(** * Puzzle engines of main.py: Sudoku, Maze and Word Ladder

    A shallow embedding of the algorithmic classes of [src/main.py]
    ([SudokuGenerator], [SudokuSolverDFS], [MazeGenerator], [MazeSolverDFS],
    [WordLadderGame]) and the properties stated about them.

    Conventions of the embedding:
    - Python exceptions are values of [error]; a function that can raise
      returns a [result].
    - Python recursion and [while] loops take a [fuel] argument; running out
      of it is the error [OutOfFuel], which no Python run produces.  The
      interpreter's recursion limit is not modelled.
    - [random] is an oracle: a stream of naturals consumed from the front.
    - Indices produced by [range] are [nat]; indices computed with signed
      arithmetic (maze coordinates) are [Z]; cell values are [Z]. *)

From Stdlib Require Import ZArith Ascii String.
From stdpp Require Import base tactics option numbers strings list.

(** ** Exceptions and results *)

Inductive error :=
  | IndexError
  | ZeroDivisionError
  | ValueError
  | BadRef
  | OutOfFuel.

Inductive result (A : Type) :=
  | Ok (a : A)
  | Err (e : error).
Arguments Ok {A} a.
Arguments Err {A} e.

#[global] Instance result_ret : MRet result := fun A a => Ok a.
#[global] Instance result_bind : MBind result := fun A B f m =>
  match m with Ok a => f a | Err e => Err e end.

(** The random source: an infinite oracle of naturals, read from position 0. *)
Definition Oracle := nat → nat.

Definition rest (rng : Oracle) : Oracle := λ i, rng (S i).

(** [random.randint(lo, hi)]: the next oracle value folded into [lo..hi];
    an empty range raises [ValueError]. *)
Definition randint (lo hi : Z) (rng : Oracle) : result (Z * Oracle) :=
  if (hi <? lo)%Z then Err ValueError
  else Ok ((lo + Z.of_nat (rng 0%nat) `mod` (hi - lo + 1))%Z, rest rng).

(** An oracle that replays a list and then yields 0. *)
Definition replay (l : list nat) : Oracle := λ i, default 0 (l !! i).

(** * Sudoku *)

Module Sudoku.

(** A board is a Python list of row lists.  The code only reads
    [board[r][c]], writes [board[r][c] = v] and takes [len(board)], so it is
    written once over this interface and run on two memory models. *)
Class Grid (G : Type) := {
  grid_len : G → nat;
  grid_get : G → nat → nat → result Z;
  grid_set : G → nat → nat → Z → result G
}.

(** Boards as values: rows are never shared. *)
Abbreviation Board := (list (list Z)).

Definition board_get (b : Board) (r c : nat) : result Z :=
  match b !! r with
  | Some row => match row !! c with Some v => Ok v | None => Err IndexError end
  | None => Err IndexError
  end.

Definition board_set (b : Board) (r c : nat) (v : Z) : result Board :=
  match b !! r with
  | Some row =>
      if decide (c < length row) then Ok (<[r := <[c := v]> row]> b)
      else Err IndexError
  | None => Err IndexError
  end.

#[global] Instance board_grid : Grid Board :=
  {| grid_len := length; grid_get := board_get; grid_set := board_set |}.

(** Boards as objects: a heap of row lists addressed by position, and a
    board that is a list of row addresses.  Two entries of a board, or two
    boards, may name the same row. *)
Abbreviation loc := nat.
Abbreviation Heap := (list (list Z)).
Abbreviation HBoard := (list (list Z) * list nat)%type.

Definition hboard_get (g : HBoard) (r c : nat) : result Z :=
  match g.2 !! r with
  | Some l =>
      match g.1 !! l with
      | Some row => match row !! c with Some v => Ok v | None => Err IndexError end
      | None => Err BadRef
      end
  | None => Err IndexError
  end.

Definition hboard_set (g : HBoard) (r c : nat) (v : Z) : result HBoard :=
  match g.2 !! r with
  | Some l =>
      match g.1 !! l with
      | Some row =>
          if decide (c < length row) then Ok (<[l := <[c := v]> row]> g.1, g.2)
          else Err IndexError
      | None => Err BadRef
      end
  | None => Err IndexError
  end.

#[global] Instance hboard_grid : Grid HBoard :=
  {| grid_len := fun g => length g.2; grid_get := hboard_get; grid_set := hboard_set |}.

(** The rows a board currently denotes. *)
Definition view (h : Heap) (b : list loc) : option Board := mapM (h !!.) b.

(** [int(size ** 0.5)]: the integer square root (the float computation
    agrees with it on every size below 2^52). *)
Definition box_size (size : nat) : nat := Nat.sqrt size.

Section Code.
Context {G : Type} `{!Grid G}.

(** First loop of [is_valid_move]:
    [for i in range(size): if board[row][i] == num or board[i][col] == num: return False].
    [Ok false] is the early [return False], [Ok true] falls through. *)
Fixpoint scan_row_col (board : G) (row col : nat) (num : Z) (idx : list nat)
  : result bool :=
  match idx with
  | [] => Ok true
  | i :: idx' =>
      a ← grid_get board row i;
      if (a =? num)%Z then Ok false else
      b ← grid_get board i col;
      if (b =? num)%Z then Ok false else
      scan_row_col board row col num idx'
  end.

(** Inner loop over [j] of the sub-box scan, at box row [r]. *)
Fixpoint scan_box_row (board : G) (r start_col : nat) (num : Z) (js : list nat)
  : result bool :=
  match js with
  | [] => Ok true
  | j :: js' =>
      a ← grid_get board r (start_col + j);
      if (a =? num)%Z then Ok false else scan_box_row board r start_col num js'
  end.

(** Outer loop over [i] of the sub-box scan. *)
Fixpoint scan_box (board : G) (start_row start_col bs : nat) (num : Z)
  (ixs : list nat) : result bool :=
  match ixs with
  | [] => Ok true
  | i :: ixs' =>
      ok ← scan_box_row board (start_row + i) start_col num (seq 0 bs);
      if (ok : bool) then scan_box board start_row start_col bs num ixs' else Ok false
  end.

(** [SudokuGenerator.is_valid_move(board, row, col, num)] for a generator
    of the given [size]; [SudokuSolverDFS.is_valid_move] is the same body
    with [size = len(self.board)]. *)
Definition is_valid_move (size : nat) (board : G) (row col : nat) (num : Z)
  : result bool :=
  ok ← scan_row_col board row col num (seq 0 size);
  if negb ok then Ok false else
  let bs := box_size size in
  if decide (bs = 0) then Err ZeroDivisionError else
  let start_row := row - row mod bs in
  let start_col := col - col mod bs in
  scan_box board start_row start_col bs num (seq 0 bs).

(** The row-major search for the first cell equal to 0: the two nested
    [for] loops of [solve_board] up to their [if], and
    [SudokuSolverDFS.find_empty_cell]. *)
Fixpoint find_zero_in_row (board : G) (row : nat) (cols : list nat)
  : result (option nat) :=
  match cols with
  | [] => Ok None
  | j :: cols' =>
      a ← grid_get board row j;
      if (a =? 0)%Z then Ok (Some j) else find_zero_in_row board row cols'
  end.

Fixpoint find_zero (board : G) (size : nat) (rows : list nat)
  : result (option (nat * nat)) :=
  match rows with
  | [] => Ok None
  | i :: rows' =>
      r ← find_zero_in_row board i (seq 0 size);
      match r with
      | Some j => Ok (Some (i, j))
      | None => find_zero board size rows'
      end
  end.

(** [range(1, size + 1)]. *)
Definition nums (size : nat) : list Z := Z.of_nat <$> seq 1 size.

(** The [for num in range(1, size + 1)] loop shared by [solve_board] and
    [solve]; [rec] is the recursive call.  The pair is the returned flag
    and the board as the call leaves it. *)
Fixpoint try_nums (rec : G → result (bool * G)) (size : nat) (board : G)
  (row col : nat) (ns : list Z) : result (bool * G) :=
  match ns with
  | [] => Ok (false, board)
  | num :: ns' =>
      ok ← is_valid_move size board row col num;
      if (ok : bool) then
        b1 ← grid_set board row col num;
        '(found, b2) ← rec b1;
        if (found : bool) then Ok (true, b2) else
        b3 ← grid_set b2 row col 0;
        try_nums rec size b3 row col ns'
      else try_nums rec size board row col ns'
  end.

(** [SudokuGenerator.solve_board(board)]. *)
Fixpoint solve_board (fuel size : nat) (board : G) : result (bool * G) :=
  match fuel with
  | 0 => Err OutOfFuel
  | S fuel' =>
      cell ← find_zero board size (seq 0 size);
      match cell with
      | Some (row, col) =>
          try_nums (solve_board fuel' size) size board row col (nums size)
      | None => Ok (true, board)
      end
  end.

(** [SudokuSolverDFS]: the fields set by [__init__]. *)
Record Solver := {
  board : G;
  size : nat;
  num_solutions : nat
}.

Definition init (b : G) : Solver :=
  {| board := b; size := grid_len b; num_solutions := 0 |}.

Definition find_empty_cell (s : Solver) : result (option (nat * nat)) :=
  find_zero (board s) (size s) (seq 0 (size s)).

(** The [for] loop of [SudokuSolverDFS.solve]. *)
Fixpoint solve_nums (rec : Solver → result (bool * Solver)) (s : Solver)
  (row col : nat) (ns : list Z) : result (bool * Solver) :=
  match ns with
  | [] => Ok (false, s)
  | num :: ns' =>
      ok ← is_valid_move (size s) (board s) row col num;
      if (ok : bool) then
        b1 ← grid_set (board s) row col num;
        '(found, s2) ← rec {| board := b1; size := size s;
                              num_solutions := num_solutions s |};
        if (found : bool) then Ok (true, s2) else
        b3 ← grid_set (board s2) row col 0;
        solve_nums rec {| board := b3; size := size s2;
                          num_solutions := num_solutions s2 |} row col ns'
      else solve_nums rec s row col ns'
  end.

(** [SudokuSolverDFS.solve()]. *)
Fixpoint solve (fuel : nat) (s : Solver) : result (bool * Solver) :=
  match fuel with
  | 0 => Err OutOfFuel
  | S fuel' =>
      cell ← find_empty_cell s;
      match cell with
      | None =>
          Ok (true, {| board := board s; size := size s;
                       num_solutions := num_solutions s + 1 |})
      | Some (row, col) => solve_nums (solve fuel') s row col (nums (size s))
      end
  end.

(** [SudokuGenerator.has_unique_solution(board)]: the answer and the board
    as the solver leaves it. *)
Definition has_unique_solution (fuel : nat) (b : G) : result (bool * G) :=
  '(_, s) ← solve fuel (init b);
  Ok (bool_decide (num_solutions s = 1), board s).

End Code.

Arguments Solver G : clear implicits.

(** ** Puzzle generation, on boards as objects *)

(** [[row[:] for row in board]]: every row is copied into a new object. *)
Fixpoint copy_rows (h : Heap) (rows : list loc) : result (Heap * list loc) :=
  match rows with
  | [] => Ok (h, [])
  | l :: rows' =>
      match h !! l with
      | Some r =>
          '(h', ls) ← copy_rows (h ++ [r]) rows';
          Ok (h', length h :: ls)
      | None => Err BadRef
      end
  end.

(** The [while board[row][col] == 0] loop of [remove_numbers]. *)
Fixpoint resample (fuel size : nat) (h : Heap) (b : list loc) (row col : nat)
  (rng : Oracle) : result (nat * nat * Oracle) :=
  match fuel with
  | 0 => Err OutOfFuel
  | S fuel' =>
      v ← grid_get (h, b) row col;
      if (v =? 0)%Z then
        '(row', rng1) ← randint 0 (Z.of_nat size - 1) rng;
        '(col', rng2) ← randint 0 (Z.of_nat size - 1) rng1;
        resample fuel' size h b (Z.to_nat row') (Z.to_nat col') rng2
      else Ok (row, col, rng)
  end.

(** One iteration of the [for _ in range(num_to_remove)] loop. *)
Definition remove_one (fuel size : nat) (h : Heap) (b : list loc)
  (rng : Oracle) : result (Heap * Oracle) :=
  '(row0, rng1) ← randint 0 (Z.of_nat size - 1) rng;
  '(col0, rng2) ← randint 0 (Z.of_nat size - 1) rng1;
  '(row, col, rng3) ← resample fuel size h b (Z.to_nat row0) (Z.to_nat col0) rng2;
  temp ← grid_get (h, b) row col;
  g1 ← grid_set (h, b) row col 0;
  '(h2, temp_board) ← copy_rows g1.1 b;
  '(unique, g3) ← has_unique_solution fuel (h2, temp_board);
  if (unique : bool) then Ok (g3.1, rng3)
  else g4 ← grid_set (g3.1, b) row col temp; Ok (g4.1, rng3).

Definition num_to_remove (size : nat) : nat :=
  if decide (size = 9) then 40 else 4.

Fixpoint remove_loop (n fuel size : nat) (h : Heap) (b : list loc)
  (rng : Oracle) : result (Heap * Oracle) :=
  match n with
  | 0 => Ok (h, rng)
  | S n' =>
      '(h1, rng1) ← remove_one fuel size h b rng;
      remove_loop n' fuel size h1 b rng1
  end.

(** [SudokuGenerator.remove_numbers(board)]. *)
Definition remove_numbers (fuel size : nat) (h : Heap) (b : list loc)
  (rng : Oracle) : result (Heap * Oracle) :=
  remove_loop (num_to_remove size) fuel size h b rng.

(** [[[0] * size for _ in range(size)]] in an empty heap. *)
Definition new_board (size : nat) : HBoard :=
  (replicate size (replicate size 0%Z), seq 0 size).

(** [SudokuGenerator.generate_board()]: the heap and the returned board. *)
Definition generate_board (fuel size : nat) (rng : Oracle)
  : result (HBoard * Oracle) :=
  let g0 := new_board size in
  '(_, g1) ← solve_board fuel size g0;
  '(h2, rng') ← remove_numbers fuel size g1.1 g0.2 rng;
  Ok ((h2, g0.2), rng').

(** The rows of the board a run of [generate_board] returns. *)
Definition returned_board (r : result (HBoard * Oracle)) : option Board :=
  match r with Ok (g, _) => view g.1 g.2 | Err _ => None end.

(** ** What a solution is *)

Definition cell (b : Board) (r c : nat) : Z :=
  default 0%Z (b !! r ≫= (.!! c)).

Definition is_grid (size : nat) (b : Board) : Prop :=
  length b = size ∧ Forall (λ row, length row = size) b.

Definition row_vals (size : nat) (b : Board) (r : nat) : list Z :=
  (λ c, cell b r c) <$> seq 0 size.

Definition col_vals (size : nat) (b : Board) (c : nat) : list Z :=
  (λ r, cell b r c) <$> seq 0 size.

Definition box_vals (bs : nat) (b : Board) (k : nat) : list Z :=
  i ← seq 0 bs; j ← seq 0 bs;
  [cell b (k `div` bs * bs + i) (k `mod` bs * bs + j)].

(** A complete valid grid: every cell holds a value of 1..size and no row,
    column or box repeats a value. *)
Definition solved (size : nat) (b : Board) : Prop :=
  is_grid size b
  ∧ Forall (λ row, Forall (λ v, 1 ≤ v ≤ Z.of_nat size)%Z row) b
  ∧ Forall (λ k, NoDup (row_vals size b k) ∧ NoDup (col_vals size b k)
                 ∧ NoDup (box_vals (box_size size) b k)) (seq 0 size).

(** [b] fills the empty cells of [puzzle] and keeps the others. *)
Definition extends (size : nat) (puzzle b : Board) : Prop :=
  Forall (λ r, Forall (λ c, cell puzzle r c ≠ 0%Z → cell b r c = cell puzzle r c)
                      (seq 0 size)) (seq 0 size).

Definition solution_of (size : nat) (puzzle b : Board) : Prop :=
  solved size b ∧ extends size puzzle b.

Definition unique_solution (size : nat) (puzzle : Board) : Prop :=
  ∃ b, solution_of size puzzle b ∧ ∀ b', solution_of size puzzle b' → b' = b.

#[global] Instance solution_of_dec size puzzle b : Decision (solution_of size puzzle b).
Proof. unfold solution_of, solved, extends, is_grid. apply _. Defined.

(** No cell of the board is empty. *)
Definition full (b : Board) : Prop := Forall (Forall (λ v, v ≠ 0%Z)) b.

(** Origin of the sub-box of a coordinate: [x - x % box_size]. *)
Definition box_origin (bs x : nat) : nat := x - x `mod` bs.

(** [(r, c)] lies in the row, the column or the sub-box of [(row, col)]. *)
Definition peer (bs row col r c : nat) : Prop :=
  r = row ∨ c = col
  ∨ (box_origin bs row ≤ r < box_origin bs row + bs
     ∧ box_origin bs col ≤ c < box_origin bs col + bs).

(** [num] appears in the row, column or sub-box of [(row, col)] at a cell
    other than [(row, col)] itself. *)
Definition appears_elsewhere (size : nat) (b : Board) (row col : nat) (num : Z)
  : Prop :=
  ∃ r c, r < size ∧ c < size ∧ (r, c) ≠ (row, col)
         ∧ peer (box_size size) row col r c ∧ cell b r c = num.

(** ** Frames and single-cell changes *)

(** [g'] is [g] with only rows of the board of [g] changed. *)
Definition frame (g g' : HBoard) : Prop :=
  g'.2 = g.2 ∧ length g'.1 = length g.1
  ∧ ∀ l, l ∉ g.2 → g'.1 !! l = g.1 !! l.

(** [new] is [old] with one cell, filled in [old], set to 0. *)
Definition cleared (old new : Board) : Prop :=
  ∃ r c row v, old !! r = Some row ∧ row !! c = Some v ∧ v ≠ 0%Z
               ∧ new = <[r := <[c := 0%Z]> row]> old.

(** The rows of board [b] after an iteration of [remove_numbers]. *)
Definition after_iteration (r : result (Heap * Oracle)) (b : list loc)
  : option Board :=
  match r with Ok (h, _) => view h b | Err _ => None end.

(** ** Boards used as concrete inputs *)

(** A full 4x4 grid that is not valid: every row is 1 2 3 4. *)
Definition stuck4 : Board :=
  [[1; 2; 3; 4]; [1; 2; 3; 4]; [1; 2; 3; 4]; [1; 2; 3; 4]]%Z.

(** The grid [solve_board] reaches from the empty 4x4 board. *)
Definition solved4 : Board :=
  [[1; 2; 3; 4]; [3; 4; 1; 2]; [2; 1; 4; 3]; [4; 3; 2; 1]]%Z.

(** [solved4] with the cells (0,0), (0,2), (1,0), (1,2) emptied. *)
Definition puzzle4 : Board :=
  [[0; 2; 0; 4]; [0; 4; 0; 2]; [2; 1; 4; 3]; [4; 3; 2; 1]]%Z.

(** The other way to fill [puzzle4]: 1 and 3 exchanged in its four cells. *)
Definition other4 : Board :=
  [[3; 2; 1; 4]; [1; 4; 3; 2]; [2; 1; 4; 3]; [4; 3; 2; 1]]%Z.

(** A 4x4 board whose only filled cell is (0,0), holding 1. *)
Definition corner4 : Board :=
  [[1; 0; 0; 0]; [0; 0; 0; 0]; [0; 0; 0; 0]; [0; 0; 0; 0]]%Z.

(** Oracle values that make [remove_numbers] pick (0,0), (0,2), (1,0), (1,2). *)
Definition picks4 : list nat := [0; 0; 0; 2; 1; 0; 1; 2].

(** Forty picks on a 9x9 board: (0,0), (0,1), (3,0), (3,1), then the cells
    of rows 1, 2, 4, 5, 6, 7 in columns 2 to 7. *)
Definition picks9 : list nat :=
  [0; 0; 0; 1; 3; 0; 3; 1]
  ++ (r ← [1; 2; 4; 5; 6; 7]; c ← [2; 3; 4; 5; 6; 7]; [r; c]).

(** The board [generate_board] returns on [picks9]. *)
Definition puzzle9 : Board :=
  [[0; 0; 3; 4; 5; 6; 7; 8; 9];
   [4; 5; 0; 0; 0; 0; 0; 0; 3];
   [7; 8; 0; 0; 0; 0; 0; 0; 6];
   [0; 0; 4; 3; 6; 5; 8; 9; 7];
   [3; 6; 0; 0; 0; 0; 0; 0; 4];
   [8; 9; 0; 0; 0; 0; 0; 0; 5];
   [5; 3; 0; 0; 0; 0; 0; 0; 8];
   [6; 4; 0; 0; 0; 0; 0; 0; 1];
   [9; 7; 8; 5; 3; 1; 6; 4; 2]]%Z.

(** The grid [solve_board] reaches from the empty 9x9 board. *)
Definition solved9 : Board :=
  [[1; 2; 3; 4; 5; 6; 7; 8; 9];
   [4; 5; 6; 7; 8; 9; 1; 2; 3];
   [7; 8; 9; 1; 2; 3; 4; 5; 6];
   [2; 1; 4; 3; 6; 5; 8; 9; 7];
   [3; 6; 5; 8; 9; 7; 2; 1; 4];
   [8; 9; 7; 2; 1; 4; 3; 6; 5];
   [5; 3; 1; 6; 4; 2; 9; 7; 8];
   [6; 4; 2; 9; 7; 8; 5; 3; 1];
   [9; 7; 8; 5; 3; 1; 6; 4; 2]]%Z.

(** [solved9] with 1 and 2 exchanged in the cells (0,0), (0,1), (3,0), (3,1). *)
Definition other9 : Board :=
  [[2; 1; 3; 4; 5; 6; 7; 8; 9];
   [4; 5; 6; 7; 8; 9; 1; 2; 3];
   [7; 8; 9; 1; 2; 3; 4; 5; 6];
   [1; 2; 4; 3; 6; 5; 8; 9; 7];
   [3; 6; 5; 8; 9; 7; 2; 1; 4];
   [8; 9; 7; 2; 1; 4; 3; 6; 5];
   [5; 3; 1; 6; 4; 2; 9; 7; 8];
   [6; 4; 2; 9; 7; 8; 5; 3; 1];
   [9; 7; 8; 5; 3; 1; 6; 4; 2]]%Z.

End Sudoku.

(** * Maze *)

(** Grids of the two maze classes: Python lists of lists, indexed the
    Python way (a negative index counts from the end). *)
Module MazeGrid.

Abbreviation Coord := (Z * Z)%type.

Definition py_index (n : nat) (i : Z) : result nat :=
  if bool_decide (0 ≤ i < Z.of_nat n)%Z then Ok (Z.to_nat i)
  else if bool_decide (- Z.of_nat n ≤ i < 0)%Z then Ok (Z.to_nat (Z.of_nat n + i))
  else Err IndexError.

(** [g[r][c]]. *)
Definition cell_get {A} (g : list (list A)) (r c : Z) : result A :=
  i ← py_index (length g) r;
  match g !! i with
  | Some row =>
      j ← py_index (length row) c;
      match row !! j with Some v => Ok v | None => Err IndexError end
  | None => Err IndexError
  end.

(** [g[r][c] = v]. *)
Definition cell_set {A} (g : list (list A)) (r c : Z) (v : A)
  : result (list (list A)) :=
  i ← py_index (length g) r;
  match g !! i with
  | Some row =>
      j ← py_index (length row) c;
      Ok (<[i := <[j := v]> row]> g)
  | None => Err IndexError
  end.

(** The cell at a position given by naturals, when there is one. *)
Definition at_pos {A} (g : list (list A)) (r c : nat) : option A :=
  g !! r ≫= (.!! c).

Definition wall : ascii := "#"%char.

(** The four directions, in the order of the constructors' list. *)
Definition four_directions : list Coord :=
  [(0, 1); (0, -1); (1, 0); (-1, 0)]%Z.

(** The grid has [rows] rows of [cols] cells. *)
Definition dims {A} (g : list (list A)) (rows cols : nat) : Prop :=
  length g = rows ∧ Forall (λ row, length row = cols) g.

(** Number of cells of the grid that satisfy [P]. *)
Fixpoint count_cells {A} (P : A → Prop) `{!∀ x, Decision (P x)}
  (g : list (list A)) : nat :=
  match g with
  | [] => 0
  | row :: g' => length (filter P row) + count_cells P g'
  end.

(** Number of cells equal to [false]. *)
Definition count_false (g : list (list bool)) : nat :=
  count_cells (λ b, b = false) g.

End MazeGrid.

Module MazeGenerator.
Import MazeGrid.

(** The fields of a [MazeGenerator].  [trace] is not a field of the class:
    it records the maze after every assignment to a cell, in order, so that
    properties of intermediate states can be stated. *)
Record Generator := {
  rows : nat;
  cols : nat;
  maze : list (list ascii);
  directions : list Coord;
  trace : list (list (list ascii))
}.

(** [MazeGenerator(rows, cols)]. *)
Definition new (rows cols : nat) : Generator :=
  {| rows := rows; cols := cols;
     maze := replicate rows (replicate cols wall);
     directions := four_directions;
     trace := [] |}.

(** [self.maze[r][c] = v]. *)
Definition write (g : Generator) (r c : Z) (v : ascii) : result Generator :=
  m ← cell_set (maze g) r c v;
  Ok {| rows := rows g; cols := cols g; maze := m;
        directions := directions g; trace := trace g ++ [m] |}.

Definition is_valid_move (g : Generator) (row col : Z) : result bool :=
  if bool_decide (0 ≤ row < Z.of_nat (rows g))%Z
     && bool_decide (0 ≤ col < Z.of_nat (cols g))%Z
  then c ← cell_get (maze g) row col; Ok (bool_decide (c = wall))
  else Ok false.

(** [x[i], x[j] = x[j], x[i]]. *)
Definition swap {A} (l : list A) (i j : nat) : list A :=
  match l !! i, l !! j with
  | Some a, Some b => <[j := a]> (<[i := b]> l)
  | _, _ => l
  end.

(** [random.shuffle(x)]:
    [for i in reversed(range(1, len(x))): j = randbelow(i + 1); swap]. *)
Fixpoint shuffle_from {A} (i : nat) (l : list A) (rng : Oracle)
  : list A * Oracle :=
  match i with
  | 0 => (l, rng)
  | S i' => shuffle_from i' (swap l i (rng 0 `mod` (i + 1))) (rest rng)
  end.

Definition shuffle {A} (l : list A) (rng : Oracle) : list A * Oracle :=
  shuffle_from (length l - 1) l rng.

(** The [for dr, dc in self.directions] loop of [dfs].  The list is the
    generator's own, which the nested calls shuffle in place, so the loop
    reads position [k] of the list as it is at that moment; [n] bounds the
    positions left. *)
Fixpoint dfs_loop
  (rec : Generator → Z → Z → Oracle → result (Generator * Oracle))
  (n k : nat) (g : Generator) (row col : Z) (rng : Oracle)
  : result (Generator * Oracle) :=
  match n with
  | 0 => Ok (g, rng)
  | S n' =>
      match directions g !! k with
      | None => Ok (g, rng)
      | Some (dr, dc) =>
          let new_row := (row + 2 * dr)%Z in
          let new_col := (col + 2 * dc)%Z in
          ok ← is_valid_move g new_row new_col;
          if (ok : bool) then
            g1 ← write g (row + dr) (col + dc) " ";
            g2 ← write g1 new_row new_col " ";
            '(g3, rng') ← rec g2 new_row new_col rng;
            dfs_loop rec n' (S k) g3 row col rng'
          else dfs_loop rec n' (S k) g row col rng
      end
  end.

(** [MazeGenerator.dfs(row, col)]. *)
Fixpoint dfs (fuel : nat) (g : Generator) (row col : Z) (rng : Oracle)
  : result (Generator * Oracle) :=
  match fuel with
  | 0 => Err OutOfFuel
  | S fuel' =>
      let '(ds, rng1) := shuffle (directions g) rng in
      let g' := {| rows := rows g; cols := cols g; maze := maze g;
                   directions := ds; trace := trace g |} in
      dfs_loop (dfs fuel') (length ds) 0 g' row col rng1
  end.

(** [MazeGenerator.generate_maze(start_row, start_col, end_row, end_col)]. *)
Definition generate_maze (fuel : nat) (g : Generator)
  (start_row start_col end_row end_col : Z) (rng : Oracle)
  : result (Generator * Oracle) :=
  g1 ← write g start_row start_col "S";
  g2 ← write g1 end_row end_col "E";
  dfs fuel g2 start_row start_col rng.

(** A cell that exists and is not a wall. *)
Definition is_open (m : list (list ascii)) (r c : nat) : Prop :=
  ∃ v, at_pos m r c = Some v ∧ v ≠ wall.

(** [m'] is [m] with one cell assigned a value that is not a wall. *)
Definition assign_open (m m' : list (list ascii)) : Prop :=
  ∃ i j row v, m !! i = Some row ∧ v ≠ wall ∧ m' = <[i := <[j := v]> row]> m.

(** Each maze of the list is the one before it, starting from [m], with one
    cell assigned a value that is not a wall. *)
Inductive opens : list (list ascii) → list (list (list ascii)) → Prop :=
  | opens_nil m : opens m []
  | opens_cons m m' t : assign_open m m' → opens m' t → opens m (m' :: t).

(** [g'] is reached from [g] by cell assignments of non-wall values, all
    recorded in the trace. *)
Definition carved (g g' : Generator) : Prop :=
  ∃ t, trace g' = trace g ++ t ∧ opens (maze g) t
       ∧ last (maze g :: t) = Some (maze g').

(** ** Shape of the generator's state *)

(** Number of wall cells of the generator's maze. *)
Definition walls (g : Generator) : nat := count_cells (λ c, c = wall) (maze g).

(** The maze has the generator's dimensions. *)
Definition gen_wf (g : Generator) : Prop := dims (maze g) (rows g) (cols g).

(** [g'] has the shape of [g] and no more walls. *)
Definition shrinks (g g' : Generator) : Prop :=
  gen_wf g' ∧ rows g' = rows g ∧ cols g' = cols g ∧ walls g' ≤ walls g.

(** The trace of a run, empty when the run raises. *)
Definition trace_of (r : result (Generator * Oracle)) : list (list (list ascii)) :=
  match r with Ok (g, _) => trace g | Err _ => [] end.

(** Between [m] and [m'] the only cells that changed were walls, and they
    became open. *)
Definition only_walls_opened (m m' : list (list ascii)) : Prop :=
  ∀ r c v v', at_pos m r c = Some v → at_pos m' r c = Some v' → v ≠ v' →
              v = wall ∧ v' ≠ wall.

(** ** Mazes used as concrete inputs *)

Definition rows_of (l : list string) : list (list ascii) :=
  list_ascii_of_string <$> l.

End MazeGenerator.

Module MazeSolverDFS.
Import MazeGrid.

(** The fields of a [MazeSolverDFS]. *)
Record Solver := {
  maze : list (list ascii);
  rows : nat;
  cols : nat;
  visited : list (list bool);
  directions : list Coord;
  path : list Coord
}.

(** [MazeSolverDFS(maze)]; [len(maze[0])] raises on an empty list. *)
Definition init (maze : list (list ascii)) : result Solver :=
  match maze with
  | [] => Err IndexError
  | row0 :: _ =>
      Ok {| maze := maze; rows := length maze; cols := length row0;
            visited := replicate (length maze) (replicate (length row0) false);
            directions := four_directions; path := [] |}
  end.

Definition is_valid_move (s : Solver) (row col : Z) : result bool :=
  if bool_decide (0 ≤ row < Z.of_nat (rows s))%Z
     && bool_decide (0 ≤ col < Z.of_nat (cols s))%Z
  then
    v ← cell_get (visited s) row col;
    if (v : bool) then Ok false
    else c ← cell_get (maze s) row col; Ok (bool_decide (c ≠ wall))
  else Ok false.

(** The [for dr, dc in self.directions] loop of [dfs]. *)
Fixpoint dfs_loop (rec : Solver → Z → Z → result (bool * Solver))
  (s : Solver) (row col : Z) (ds : list Coord) : result (bool * Solver) :=
  match ds with
  | [] => Ok (false, s)
  | (dr, dc) :: ds' =>
      '(found, s') ← rec s (row + dr)%Z (col + dc)%Z;
      if (found : bool) then Ok (true, s') else dfs_loop rec s' row col ds'
  end.

(** [MazeSolverDFS.dfs(row, col)]. *)
Fixpoint dfs (fuel : nat) (s : Solver) (row col : Z) : result (bool * Solver) :=
  match fuel with
  | 0 => Err OutOfFuel
  | S fuel' =>
      ok ← is_valid_move s row col;
      if negb ok then Ok (false, s) else
      vis ← cell_set (visited s) row col true;
      let s1 := {| maze := maze s; rows := rows s; cols := cols s;
                   visited := vis; directions := directions s;
                   path := path s ++ [(row, col)] |} in
      c ← cell_get (maze s1) row col;
      if bool_decide (c = "E"%char) then Ok (true, s1) else
      '(found, s2) ← dfs_loop (dfs fuel') s1 row col (directions s1);
      if (found : bool) then Ok (true, s2) else
      match path s2 with
      | [] => Err IndexError
      | _ :: _ =>
          Ok (false, {| maze := maze s2; rows := rows s2; cols := cols s2;
                        visited := visited s2; directions := directions s2;
                        path := removelast (path s2) |})
      end
  end.

(** [MazeSolverDFS.solve(start_row, start_col)]: the returned path, or
    [None], and the solver as the call leaves it. *)
Definition solve (fuel : nat) (s : Solver) (start_row start_col : Z)
  : result (option (list Coord) * Solver) :=
  ok ← is_valid_move s start_row start_col;
  if negb ok then Ok (None, s) else
  '(found, s') ← dfs fuel s start_row start_col;
  if (found : bool) then Ok (Some (path s'), s') else Ok (None, s').

(** ** What a path through a maze is *)

(** The cell of the maze at a coordinate inside it. *)
Definition cell_at (m : list (list ascii)) (p : Coord) : option ascii :=
  if bool_decide (0 ≤ p.1)%Z && bool_decide (0 ≤ p.2)%Z
  then at_pos m (Z.to_nat p.1) (Z.to_nat p.2) else None.

Definition open_cell (m : list (list ascii)) (p : Coord) : Prop :=
  ∃ v, cell_at m p = Some v ∧ v ≠ wall.

(** One cardinal step: Manhattan distance 1. *)
Definition adjacent (p q : Coord) : Prop :=
  (Z.abs (p.1 - q.1) + Z.abs (p.2 - q.2) = 1)%Z.

(** [q] is reachable from [p] through non-wall cells. *)
Inductive reachable (m : list (list ascii)) (p : Coord) : Coord → Prop :=
  | reach_here : open_cell m p → reachable m p p
  | reach_step q r :
      reachable m p q → adjacent q r → open_cell m r → reachable m p r.

(** Every two consecutive elements are one cardinal step apart. *)
Fixpoint stepwise (l : list Coord) : Prop :=
  match l with
  | p :: (q :: _) as l' => adjacent p q ∧ stepwise l'
  | _ => True
  end.

(** Every row has the length of the first one. *)
Definition rectangular (m : list (list ascii)) : Prop :=
  Forall (λ row, length row = length (default [] (head m))) m.

(** ** State of the search *)

(** The solver's grids have its dimensions. *)
Definition wf (s : Solver) : Prop :=
  dims (maze s) (rows s) (cols s) ∧ dims (visited s) (rows s) (cols s)
  ∧ directions s = four_directions.

Definition in_bounds (s : Solver) (p : Coord) : Prop :=
  (0 ≤ p.1 < Z.of_nat (rows s))%Z ∧ (0 ≤ p.2 < Z.of_nat (cols s))%Z.

(** The cell is marked in [visited]. *)
Definition seen (s : Solver) (p : Coord) : Prop :=
  in_bounds s p ∧ at_pos (visited s) (Z.to_nat p.1) (Z.to_nat p.2) = Some true.

(** The cell is inside the maze and not a wall. *)
Definition passable (s : Solver) (p : Coord) : Prop :=
  in_bounds s p
  ∧ ∃ ch, at_pos (maze s) (Z.to_nat p.1) (Z.to_nat p.2) = Some ch ∧ ch ≠ wall.

Definition is_end (m : list (list ascii)) (p : Coord) : Prop :=
  cell_at m p = Some "E"%char.

Definition blank (s : Solver) : Prop :=
  path s = [] ∧ Forall (Forall (λ b, b = false)) (visited s).

Definition same_maze (s s' : Solver) : Prop :=
  maze s' = maze s ∧ rows s' = rows s ∧ cols s' = cols s.

(** From [s] to [s']: same maze, marks only added. *)
Definition advances (s s' : Solver) : Prop :=
  wf s' ∧ same_maze s s' ∧ (∀ p, seen s p → seen s' p)
  ∧ count_false (visited s') ≤ count_false (visited s).

(** The cells marked between [s] and [s'] hold no 'E' and have all their
    passable neighbours marked in [s']. *)
Definition closed_new (s s' : Solver) : Prop :=
  ∀ p, seen s' p → ¬ seen s p →
       ¬ is_end (maze s) p ∧ ∀ q, adjacent p q → passable s q → seen s' q.

(** The path of [s'] is the path of [s] followed by steps from [first] to
    an 'E' cell. *)
Definition found_path (s s' : Solver) (first : Coord) : Prop :=
  ∃ q, path s' = path s ++ first :: q ∧ stepwise (first :: q)
       ∧ ∃ e, last (first :: q) = Some e ∧ is_end (maze s) e.

Definition dfs_post (s : Solver) (p : Coord) (found : bool) (s' : Solver) : Prop :=
  advances s s'
  ∧ if found then found_path s s' p
    else path s' = path s ∧ (passable s p → seen s' p) ∧ closed_new s s'.

Definition loop_post (s : Solver) (p : Coord) (ds : list Coord) (found : bool)
  (s' : Solver) : Prop :=
  advances s s'
  ∧ if found then ∃ d, d ∈ ds ∧ found_path s s' ((p.1 + d.1)%Z, (p.2 + d.2)%Z)
    else path s' = path s
         ∧ (∀ d, d ∈ ds → passable s ((p.1 + d.1)%Z, (p.2 + d.2)%Z)
                  → seen s' ((p.1 + d.1)%Z, (p.2 + d.2)%Z))
         ∧ closed_new s s'.

(** ** Mazes used as concrete inputs *)

Definition maze3 : list (list ascii) :=
  list_ascii_of_string <$> ["S #"; "  #"; "# E"]%string.

Definition solver3 : Solver :=
  {| maze := maze3; rows := 3; cols := 3;
     visited := replicate 3 (replicate 3 false);
     directions := four_directions; path := [] |}.

(** The path of a run, when it returns one. *)
Definition path_of (r : result (option (list Coord) * Solver))
  : option (list Coord) :=
  match r with Ok (p, _) => p | Err _ => None end.

End MazeSolverDFS.

(** * Word Ladder *)

Module WordLadderGame.

(** A word is a Python string, taken character by character. *)
Abbreviation Word := (list ascii).

Definition alphabet : list ascii :=
  list_ascii_of_string "abcdefghijklmnopqrstuvwxyz".

(** [w in self.word_list]: [self.word_list] is [set(word_list)], of which
    the code only tests membership. *)
Definition mem (w : Word) (ws : list Word) : bool := bool_decide (w ∈ ws).

(** [WordLadderGame.get_neighbors(word)]. *)
Definition get_neighbors (word_list : list Word) (word : Word) : list Word :=
  i ← seq 0 (length word);
  char ← alphabet;
  let new_word := take i word ++ char :: drop (S i) word in
  if bool_decide (new_word ≠ word) && mem new_word word_list
  then [new_word] else [].

(** The [for neighbor in ...] loop of [find_shortest_path]: the queue and
    the visited set after it. *)
Fixpoint enqueue (ns : list Word) (path : list Word)
  (queue : list (Word * list Word)) (visited : list Word)
  : list (Word * list Word) * list Word :=
  match ns with
  | [] => (queue, visited)
  | neighbor :: ns' =>
      if mem neighbor visited then enqueue ns' path queue visited
      else enqueue ns' path (queue ++ [(neighbor, path ++ [neighbor])])
                   (neighbor :: visited)
  end.

(** The [while queue] loop of [find_shortest_path]. *)
Fixpoint bfs (fuel : nat) (word_list : list Word) (end_word : Word)
  (queue : list (Word * list Word)) (visited : list Word)
  : result (option (list Word)) :=
  match fuel with
  | 0 => Err OutOfFuel
  | S fuel' =>
      match queue with
      | [] => Ok None
      | (current_word, path) :: queue' =>
          if bool_decide (current_word = end_word) then Ok (Some path)
          else
            let '(q, v) :=
              enqueue (get_neighbors word_list current_word) path queue' visited in
            bfs fuel' word_list end_word q v
      end
  end.

(** [WordLadderGame.find_shortest_path(start_word, end_word)]. *)
Definition find_shortest_path (fuel : nat) (word_list : list Word)
  (start_word end_word : Word) : result (option (list Word)) :=
  if negb (mem start_word word_list) || negb (mem end_word word_list)
  then Ok None
  else bfs fuel word_list end_word [(start_word, [start_word])] [start_word].

(** ** What a word ladder is *)

(** The two words differ in exactly one character position. *)
Definition differ_in_one (w w' : Word) : Prop :=
  length w = length w'
  ∧ ∃ i, i < length w ∧ w !! i ≠ w' !! i ∧ ∀ j, j ≠ i → w !! j = w' !! j.

(** Consecutive words differ in exactly one position. *)
Fixpoint ladder_steps (l : list Word) : Prop :=
  match l with
  | w :: (w' :: _) as l' => differ_in_one w w' ∧ ladder_steps l'
  | _ => True
  end.

(** A transformation path from [s] to [e] over the dictionary. *)
Definition transformation_path (word_list : list Word) (s e : Word)
  (l : list Word) : Prop :=
  head l = Some s ∧ last l = Some e
  ∧ Forall (λ w, w ∈ word_list) l ∧ ladder_steps l.

(** The dictionary holds words of lowercase letters only, as the word sets
    of the data model do. *)
Definition lowercase (word_list : list Word) : Prop :=
  Forall (Forall (λ c, c ∈ alphabet)) word_list.

(** Words from string literals. *)
Definition word (s : string) : Word := list_ascii_of_string s.

(** ** Invariants of the search *)

(** A path of the frontier: it starts at [s], stays in the dictionary,
    changes one position at a time and repeats no word. *)
Definition good_path (ws : list Word) (s : Word) (p : list Word) : Prop :=
  head p = Some s ∧ Forall (λ w, w ∈ ws) p ∧ ladder_steps p ∧ NoDup p.

Definition frontier_ok (ws : list Word) (s : Word)
  (q : list (Word * list Word)) (v : list Word) : Prop :=
  Forall (λ e, good_path ws s e.2 ∧ last e.2 = Some e.1 ∧ ∀ x, x ∈ e.2 → x ∈ v) q.

(** [x] is reached from [s] by a chain of neighbour moves counting [n] words. *)
Inductive walk (ws : list Word) (s : Word) : Word → nat → Prop :=
  | walk_start : walk ws s s 1
  | walk_step x y n : walk ws s x n → y ∈ get_neighbors ws x → walk ws s y (S n).

(** The invariant of the [while] loop at level [L]: the queue holds paths of
    [L] words followed by paths of [L + 1] words; every word left of the
    queue has its neighbours visited; every word within [L] words of [s] is
    visited; no queued path is longer than a chain to its word. *)
Definition level_inv (ws : list Word) (s : Word) (L : nat)
  (q : list (Word * list Word)) (v : list Word) : Prop :=
  (∃ A B, q = A ++ B ∧ Forall (λ e, length e.2 = L) A
          ∧ Forall (λ e, length e.2 = S L) B)
  ∧ s ∈ v
  ∧ (∀ x, x ∈ v → x ∉ q.*1 → ∀ y, y ∈ get_neighbors ws x → y ∈ v)
  ∧ (∀ x n, walk ws s x n → n ≤ L → x ∈ v)
  ∧ (∀ e, e ∈ q → ∀ n, walk ws s e.1 n → length e.2 ≤ n).

(** Queue length plus the number of dictionary entries not visited yet. *)
Definition measure (ws : list Word) (q : list (Word * list Word)) (v : list Word) : nat :=
  length q + length (filter (λ w, w ∉ v) ws).

(** ** Dictionaries used as concrete inputs *)

Definition ladder_words : list Word :=
  word <$> ["aa"; "ab"; "bb"; "ca"; "cb"]%string.

Definition mixed_words : list Word :=
  word <$> ["aa"; "Aa"; "Ab"; "bb"; "ca"; "cc"; "bc"]%string.

End WordLadderGame.

(** * Further definitions: carving and searching mazes *)

Module MazeCarving.
Import MazeGrid MazeGenerator.
Import MazeSolverDFS(cell_at, open_cell, adjacent, reachable, reach_here, reach_step).

(** Cells at an even offset from the start in both coordinates: the cells
    [dfs] is called on. *)
Definition room (s p : Coord) : Prop :=
  ((p.1 - s.1) `mod` 2 = 0 ∧ (p.2 - s.2) `mod` 2 = 0)%Z.

(** Cells at an odd offset from the start in both coordinates. *)
Definition pillar (s p : Coord) : Prop :=
  ((p.1 - s.1) `mod` 2 = 1 ∧ (p.2 - s.2) `mod` 2 = 1)%Z.

(** Cells the carving cannot assign: pillars, and rooms that are no wall. *)
Definition protected (s : Coord) (m : list (list ascii)) (p : Coord) : Prop :=
  pillar s p ∨ (room s p ∧ cell_at m p ≠ Some wall).

Definition known_directions (g : Generator) : Prop :=
  Forall (λ d, d ∈ four_directions) (directions g).

(** From [g] to [g']: same shape, protected cells unchanged, open cells
    still open, and a cell that changed holds ' '. *)
Definition keeps (s : Coord) (g g' : Generator) : Prop :=
  gen_wf g' ∧ rows g' = rows g ∧ cols g' = cols g ∧ known_directions g'
  ∧ (∀ p, protected s (maze g) p → cell_at (maze g') p = cell_at (maze g) p)
  ∧ (∀ p, open_cell (maze g) p → open_cell (maze g') p)
  ∧ (∀ p, cell_at (maze g') p = cell_at (maze g) p
          ∨ cell_at (maze g') p = Some " "%char).

(** Every carved cell can be reached from [s] through non-wall cells. *)
Definition linked (s : Coord) (m : list (list ascii)) : Prop :=
  ∀ p, cell_at m p = Some " "%char → reachable m s p.

(** The state in which [dfs] is entered at room [p]. *)
Definition ready (s : Coord) (g : Generator) (p : Coord) : Prop :=
  gen_wf g ∧ (0 ≤ p.1 < Z.of_nat (rows g))%Z ∧ (0 ≤ p.2 < Z.of_nat (cols g))%Z
  ∧ room s p ∧ known_directions g
  ∧ reachable (maze g) s p ∧ linked s (maze g).

End MazeCarving.

Module MazeSearch.
Import MazeGrid MazeSolverDFS.

(** A cell the search entered between [s] and [s']: inside the maze, no
    wall, not marked in [s] and marked in [s']. *)
Definition entered (s s' : Solver) (x : Coord) : Prop :=
  passable s x ∧ ¬ seen s x ∧ seen s' x.

(** The path of [s'] is the path of [s] followed by a walk from [first] to
    an 'E' cell, through cells the search entered, none of them twice. *)
Definition sound_path (s s' : Solver) (first : Coord) : Prop :=
  ∃ q, path s' = path s ++ first :: q ∧ stepwise (first :: q)
       ∧ (∃ e, last (first :: q) = Some e ∧ is_end (maze s) e)
       ∧ Forall (entered s s') (first :: q) ∧ NoDup (first :: q).

Definition dfs_sound_post (s : Solver) (p : Coord) (found : bool) (s' : Solver) : Prop :=
  advances s s' ∧ (passable s p → seen s' p)
  ∧ if found then sound_path s s' p else path s' = path s.

End MazeSearch.

(** * Further definitions: generated word lists *)

Module WordLists.
Import WordLadderGame.

(** [random.choice(seq)], which is also one draw of [random.choices]: the
    element at the next oracle value folded into the indices of [seq];
    [IndexError] on an empty sequence. *)
Definition choice (l : list ascii) (rng : Oracle) : result (ascii * Oracle) :=
  match l !! (rng 0 `mod` length l) with
  | Some c => Ok (c, rest rng)
  | None => Err IndexError
  end.

(** [random.choices(population, k=k)]: [k] draws; none when [k <= 0]. *)
Fixpoint choices (l : list ascii) (k : nat) (rng : Oracle)
  : result (Word * Oracle) :=
  match k with
  | 0 => Ok ([], rng)
  | S k' =>
      '(c, rng1) ← choice l rng;
      '(cs, rng2) ← choices l k' rng1;
      Ok (c :: cs, rng2)
  end.

(** [WordLadderGame.generate_next_word(word)]. *)
Definition generate_next_word (word : Word) (rng : Oracle)
  : result (Word * Oracle) :=
  '(index, rng1) ← randint 0 (Z.of_nat (length word) - 1) rng;
  '(char, rng2) ← choice alphabet rng1;
  Ok (<[Z.to_nat index := char]> word, rng2).

(** The [for _ in range(num_words - 1)] loop of [generate_word_list]. *)
Fixpoint extend (n : nat) (current_word : Word) (word_list : list Word)
  (rng : Oracle) : result (list Word * Oracle) :=
  match n with
  | 0 => Ok (word_list, rng)
  | S n' =>
      '(next_word, rng1) ← generate_next_word current_word rng;
      extend n' next_word (word_list ++ [next_word]) rng1
  end.

(** [WordLadderGame.generate_word_list(num_words, word_length)]. *)
Definition generate_word_list (num_words word_length : Z) (rng : Oracle)
  : result (list Word * Oracle) :=
  '(current_word, rng1) ← choices alphabet (Z.to_nat word_length) rng;
  extend (Z.to_nat (num_words - 1)) current_word [current_word] rng1.

(** [y] is [x] with one position assigned a lowercase letter (possibly the
    letter it held). *)
Definition one_change (x y : Word) : Prop :=
  ∃ i ch, i < length x ∧ ch ∈ alphabet ∧ y = <[i := ch]> x.

(** Each word is the one before it with one position assigned. *)
Fixpoint chain (l : list Word) : Prop :=
  match l with
  | x :: (y :: _) as l' => one_change x y ∧ chain l'
  | _ => True
  end.

(** The invariant of the search that makes it complete: every visited word
    that has left the queue is not the end word and has its neighbours
    visited. *)
Definition settled (ws : list Word) (s e : Word)
  (q : list (Word * list Word)) (v : list Word) : Prop :=
  s ∈ v
  ∧ ∀ x, x ∈ v → x ∉ q.*1 → x ≠ e ∧ ∀ y, y ∈ get_neighbors ws x → y ∈ v.

End WordLists.

(** * Further definitions: the Sudoku search *)

Module SudokuSearch.
Import Sudoku.

(** No cell of the size x size area is empty. *)
Definition no_empty (size : nat) (b : Board) : Prop :=
  ∀ r c, r < size → c < size → cell b r c ≠ 0%Z.

(** [b'] holds every filled cell of [b]. *)
Definition agrees (size : nat) (b b' : Board) : Prop :=
  ∀ r c, r < size → c < size → cell b r c ≠ 0%Z → cell b' r c = cell b r c.

(** No filled cell has its value repeated in its row, column or sub-box. *)
Definition consistent (size : nat) (b : Board) : Prop :=
  ∀ r c r' c', r < size → c < size → r' < size → c' < size →
    (r', c') ≠ (r, c) → peer (box_size size) r c r' c' →
    cell b r c ≠ 0%Z → cell b r' c' ≠ cell b r c.

(** Every cell holds 0 or a value of 1..size. *)
Definition in_range (size : nat) (b : Board) : Prop :=
  ∀ r c, r < size → c < size → (0 ≤ cell b r c ≤ Z.of_nat size)%Z.

(** [sol] is a complete valid grid that keeps the filled cells of [b]. *)
Definition completion (size : nat) (b sol : Board) : Prop :=
  is_grid size sol ∧ no_empty size sol ∧ in_range size sol
  ∧ consistent size sol ∧ agrees size b sol.

(** Number of empty cells. *)
Definition empties (b : Board) : nat :=
  MazeGrid.count_cells (λ v : Z, v = 0%Z) b.

(** [(r, c)] comes before [(r', c')] in row-major order. *)
Definition before (r c r' c' : nat) : Prop := r < r' ∨ (r = r' ∧ c < c').

(** What a run of the search from [b] leaves: on True a full grid that keeps
    the filled cells of [b], fills the others with values of 1..size and is
    consistent if [b] was; on False the board [b] itself, which then has no
    completion. *)
Definition search_post (size : nat) (b : Board) (found : bool) (b' : Board)
  : Prop :=
  if found then
    is_grid size b' ∧ no_empty size b' ∧ agrees size b b'
    ∧ (∀ r c, r < size → c < size → cell b r c = 0%Z →
              (1 ≤ cell b' r c ≤ Z.of_nat size)%Z)
    ∧ (consistent size b → consistent size b')
  else b' = b ∧ ∀ sol, ¬ completion size b sol.

(** ** Boards as objects against boards as values *)

(** Two runs end alike: both raise the same exception, or both return and
    the results are related by [Q]. *)
Definition rres {A B} (Q : A → B → Prop) (x : result A) (y : result B) : Prop :=
  match x, y with
  | Ok a, Ok b => Q a b
  | Err e, Err e' => e = e'
  | _, _ => False
  end.

(** The same flag, and boards related by [Q]. *)
Definition flagged {A B} (Q : A → B → Prop) (x : bool * A) (y : bool * B) : Prop :=
  x.1 = y.1 ∧ Q x.2 y.2.

(** The board of [g] has distinct rows, which hold the grid [v]. *)
Definition denotes (g : HBoard) (v : Board) : Prop :=
  NoDup g.2 ∧ view g.1 g.2 = Some v.

(** Number of filled cells. *)
Definition filled (b : Board) : nat :=
  MazeGrid.count_cells (λ v : Z, v ≠ 0%Z) b.

(** [new] is [old] with some cells set to 0. *)
Definition blanked (old new : Board) : Prop :=
  Forall2 (Forall2 (λ x y : Z, y = x ∨ y = 0%Z)) old new.

(** ** Checking the hypotheses on a concrete board *)

#[global] Instance peer_dec bs row col r c : Decision (peer bs row col r c).
Proof. unfold peer. apply _. Defined.

Definition consistent_check (size : nat) (b : Board) : Prop :=
  Forall (λ r, Forall (λ c, Forall (λ r', Forall (λ c',
    (r', c') ≠ (r, c) → peer (box_size size) r c r' c' →
    cell b r c ≠ 0%Z → cell b r' c' ≠ cell b r c)
    (seq 0 size)) (seq 0 size)) (seq 0 size)) (seq 0 size).

Definition in_range_check (size : nat) (b : Board) : Prop :=
  Forall (λ r, Forall (λ c, (0 ≤ cell b r c ≤ Z.of_nat size)%Z) (seq 0 size))
         (seq 0 size).

(** A 4x4 board that cannot be completed: (0,0) needs a 1, which its column holds. *)
Definition unsolvable4 : Board :=
  [[0; 2; 3; 4]; [1; 0; 0; 0]; [0; 0; 0; 0]; [0; 0; 0; 0]]%Z.

Section AsSolver.
Context {G : Type} `{!Grid G}.

(** The result of [solve_board] as [SudokuSolverDFS.solve] reports it from
    the solver [s]: the same flag and board, the counter one higher on True. *)
Definition as_solver (s : Solver G) (r : result (bool * G))
  : result (bool * Solver G) :=
  '(found, b) ← r;
  Ok (found, {| board := b; size := size s;
                num_solutions := if (found : bool) then num_solutions s + 1
                                 else num_solutions s |}).

End AsSolver.

End SudokuSearch.

(** * Properties *)

Lemma bind_Ok_inv {A B} (m : result A) (f : A → result B) (b : B) :
  m ≫= f = Ok b → ∃ a, m = Ok a ∧ f a = Ok b.
Proof. destruct m as [a|e]; simpl; [eauto | discriminate]. Qed.

(** Inverts a hypothesis [x ← m; k = Ok r] into its two runs. *)
Ltac inv_bind H :=
  let a := fresh "a" in
  let Ha := fresh "Hrun" in
  apply bind_Ok_inv in H as (a & Ha & H).

Module SudokuFacts.
Import Sudoku.

(** ** Reading a grid *)

Lemma board_get_cell size (b : Board) r c :
  is_grid size b → r < size → c < size → board_get b r c = Ok (cell b r c).
Proof.
  intros [Hlen Hrows] Hr Hc. unfold board_get, cell.
  destruct (b !! r) as [row|] eqn:Hrow.
  - simpl. assert (length row = size) as Hl.
    { eapply (Forall_lookup_1 _ _ _ _ Hrows Hrow). }
    destruct (row !! c) as [v|] eqn:Hv; [done|].
    apply lookup_ge_None in Hv. lia.
  - apply lookup_ge_None in Hrow. lia.
Qed.

Lemma find_zero_in_row_full size (b : Board) i cols :
  is_grid size b → i < size → Forall (λ j, j < size ∧ cell b i j ≠ 0%Z) cols →
  find_zero_in_row b i cols = Ok None.
Proof.
  intros Hg Hi. induction 1 as [|j cols [Hj Hnz] _ IH]; [done|].
  simpl. rewrite (board_get_cell size) by done. simpl.
  destruct (Z.eqb_spec (cell b i j) 0); [done|]. exact IH.
Qed.

Lemma full_cell size (b : Board) r c :
  is_grid size b → full b → r < size → c < size → cell b r c ≠ 0%Z.
Proof.
  intros [Hlen Hrows] Hf Hr Hc. unfold cell.
  destruct (b !! r) as [row|] eqn:Hrow.
  - simpl. pose proof (Forall_lookup_1 _ _ _ _ Hrows Hrow) as Hl. simpl in Hl.
    pose proof (Forall_lookup_1 _ _ _ _ Hf Hrow) as Hnz.
    destruct (row !! c) as [v|] eqn:Hv.
    + exact (Forall_lookup_1 _ _ _ _ Hnz Hv).
    + apply lookup_ge_None in Hv. lia.
  - apply lookup_ge_None in Hrow. lia.
Qed.

Lemma find_zero_full size (b : Board) rows :
  is_grid size b → full b → Forall (λ i, i < size) rows →
  find_zero b size rows = Ok None.
Proof.
  intros Hg Hf. induction 1 as [|i rows Hi _ IH]; [done|].
  simpl. rewrite (find_zero_in_row_full size); [exact IH|done..|].
  apply Forall_forall. intros j Hj%elem_of_seq. split; [lia|].
  apply (full_cell size); [done..|lia].
Qed.

Lemma seq_lt n : Forall (λ i, i < n) (seq 0 n).
Proof. apply Forall_forall. intros i Hi%elem_of_seq. lia. Qed.

(** C4. On a grid of the generator's size with no empty cell,
    [solve_board] reports success and returns the grid as it was. *)
Theorem solve_board_full_noop fuel size (b : Board) :
  is_grid size b → full b → solve_board (S fuel) size b = Ok (true, b).
Proof.
  intros Hg Hf. simpl. rewrite (find_zero_full size) by auto using seq_lt. done.
Qed.

Lemma solve_board_full_noop_witness :
  is_grid 4 solved4 ∧ full solved4 ∧ solve_board 1 4 solved4 = Ok (true, solved4).
Proof.
  assert (is_grid 4 solved4) as Hg by (apply (bool_decide_unpack _); vm_compute; exact I).
  assert (full solved4) as Hf by (apply (bool_decide_unpack _); vm_compute; exact I).
  split; [exact Hg|]. split; [exact Hf|].
  exact (solve_board_full_noop 0 4 solved4 Hg Hf).
Defined.

(** [SudokuSolverDFS.solve] on a full grid: success, the same grid, one
    solution counted. *)
Lemma solve_full_noop fuel (b : Board) :
  is_grid (length b) b → full b →
  solve (S fuel) (init b)
  = Ok (true, {| board := b; size := length b; num_solutions := 1 |}).
Proof.
  intros Hg Hf. simpl. unfold find_empty_cell. simpl.
  rewrite (find_zero_full (length b)) by auto using seq_lt. done.
Qed.

(** ** The validity check *)

Section ValidMove.
Variables (size : nat) (b : Board) (row col : nat) (num : Z).
Hypothesis Hgrid : is_grid size b.
Hypothesis Hrow : row < size.
Hypothesis Hcol : col < size.

Lemma scan_row_col_spec idx :
  Forall (λ i, i < size) idx →
  ∃ ok, scan_row_col b row col num idx = Ok ok
        ∧ (ok = true ↔ ∀ i, i ∈ idx → cell b row i ≠ num ∧ cell b i col ≠ num).
Proof.
  induction 1 as [|i idx Hi _ (ok & Hok & IH)].
  - exists true. split; [done|]. split; [|done]. intros _ i Hin. inversion Hin.
  - simpl. rewrite (board_get_cell size b row i) by done. simpl.
    destruct (Z.eqb_spec (cell b row i) num) as [Heq|Hne].
    { exists false. split; [done|]. split; [done|].
      intros Hall. by destruct (Hall i ltac:(left)) as [Hbad _]. }
    rewrite (board_get_cell size b i col) by done. simpl.
    destruct (Z.eqb_spec (cell b i col) num) as [Heq2|Hne2].
    { exists false. split; [done|]. split; [done|].
      intros Hall. by destruct (Hall i ltac:(left)) as [_ Hbad]. }
    exists ok. split; [done|]. rewrite IH. split.
    + intros Hall j Hj. apply elem_of_cons in Hj as [->|Hj]; auto.
    + intros Hall j Hj. apply Hall. by right.
Qed.

Lemma scan_box_row_spec r c0 js :
  r < size → Forall (λ j, c0 + j < size) js →
  ∃ ok, scan_box_row b r c0 num js = Ok ok
        ∧ (ok = true ↔ ∀ j, j ∈ js → cell b r (c0 + j) ≠ num).
Proof.
  intros Hr. induction 1 as [|j js Hj _ (ok & Hok & IH)].
  - exists true. split; [done|]. split; [|done]. intros _ j Hin. inversion Hin.
  - simpl. rewrite (board_get_cell size) by done. simpl.
    destruct (Z.eqb_spec (cell b r (c0 + j)) num) as [Heq|Hne].
    { exists false. split; [done|]. split; [done|].
      intros Hall. by destruct (Hall j ltac:(left)). }
    exists ok. split; [done|]. rewrite IH. split.
    + intros Hall k Hk. apply elem_of_cons in Hk as [->|Hk]; auto.
    + intros Hall k Hk. apply Hall. by right.
Qed.

Lemma scan_box_spec r0 c0 bs ixs :
  Forall (λ i, r0 + i < size) ixs → c0 + bs ≤ size →
  ∃ ok, scan_box b r0 c0 bs num ixs = Ok ok
        ∧ (ok = true ↔ ∀ i j, i ∈ ixs → j < bs → cell b (r0 + i) (c0 + j) ≠ num).
Proof.
  intros Hix Hc0. induction Hix as [|i ixs Hi _ (ok & Hok & IH)].
  - exists true. split; [done|]. split; [|done]. intros _ i j Hin. inversion Hin.
  - simpl.
    destruct (scan_box_row_spec (r0 + i) c0 (seq 0 bs)) as (ok1 & Hok1 & H1); [done| |].
    { apply Forall_seq. intros j Hj. lia. }
    rewrite Hok1. simpl. destruct ok1.
    + exists ok. split; [done|]. rewrite IH. split.
      * intros Hall k j Hk Hj. apply elem_of_cons in Hk as [->|Hk]; [|auto].
        destruct H1 as [H1 _]. apply H1; [done|]. apply elem_of_seq. lia.
      * intros Hall k j Hk Hj. apply Hall; [by right|done].
    + exists false. split; [done|]. split; [done|]. intros Hall.
      destruct H1 as [_ H1]. apply H1. intros j Hj%elem_of_seq.
      apply Hall; [left|lia].
Qed.
End ValidMove.

Lemma box_origin_le bs x : box_origin bs x ≤ x.
Proof. unfold box_origin. lia. Qed.

Lemma box_origin_lt bs x : 0 < bs → x < box_origin bs x + bs.
Proof.
  intros Hbs. unfold box_origin.
  pose proof (Nat.mod_upper_bound x bs ltac:(lia)).
  pose proof (Nat.Div0.mod_le x bs). lia.
Qed.

Lemma box_origin_fits bs x : 0 < bs → x < bs * bs → box_origin bs x + bs ≤ bs * bs.
Proof.
  intros Hbs Hx. unfold box_origin.
  pose proof (Nat.div_mod x bs ltac:(lia)) as Hdm.
  assert (x `div` bs < bs) by (apply Nat.Div0.div_lt_upper_bound; lia).
  replace (x - x `mod` bs) with (bs * (x `div` bs)) by lia. nia.
Qed.

(** C3, as amended.  On a size x size grid whose size is a perfect square,
    [is_valid_move] returns True exactly when [num] is neither at
    [(row, col)] itself nor anywhere else in its row, column or sub-box. *)
Theorem is_valid_move_spec size (b : Board) row col num :
  is_grid size b → box_size size * box_size size = size →
  row < size → col < size →
  ∃ ok, is_valid_move size b row col num = Ok ok
        ∧ (ok = true ↔ cell b row col ≠ num ∧ ¬ appears_elsewhere size b row col num).
Proof.
  intros Hg Hsq Hrow Hcol. unfold is_valid_move.
  set (bs := box_size size) in *.
  assert (0 < bs) as Hbs by (destruct bs; simpl in *; lia).
  destruct (scan_row_col_spec size b row col num Hg Hrow Hcol (seq 0 size))
    as (ok1 & Hok1 & H1); [apply Forall_seq; intros; lia|].
  pose proof (box_origin_fits bs row Hbs ltac:(lia)) as Hfr.
  pose proof (box_origin_fits bs col Hbs ltac:(lia)) as Hfc.
  fold (box_origin bs row). fold (box_origin bs col).
  destruct (scan_box_spec size b row col num Hg Hrow Hcol (box_origin bs row) (box_origin bs col) bs (seq 0 bs))
    as (ok2 & Hok2 & H2); [apply Forall_seq; intros; lia|lia|].
  rewrite Hok1. simpl. destruct ok1; simpl.
  - destruct (decide (bs = 0)) as [?|_]; [lia|]. rewrite Hok2.
    exists ok2. split; [done|]. rewrite H2. destruct H1 as [H1 _].
    specialize (H1 eq_refl). split.
    + intros Hbox. split.
      * apply (H1 col). apply elem_of_seq. lia.
      * intros (r & c & Hr & Hc & _ & Hpeer & Hv).
        change (box_size size) with bs in Hpeer.
        destruct Hpeer as [->|[->|[Hpr Hpc]]].
        -- destruct (H1 c) as [Ha _]; [apply elem_of_seq; lia|done].
        -- destruct (H1 r) as [_ Ha]; [apply elem_of_seq; lia|done].
        -- apply (Hbox (r - box_origin bs row) (c - box_origin bs col)).
           ++ apply elem_of_seq. lia.
           ++ lia.
           ++ replace (box_origin bs row + (r - box_origin bs row)) with r by lia.
              replace (box_origin bs col + (c - box_origin bs col)) with c by lia.
              done.
    + intros [Hself Hno] i j Hi%elem_of_seq Hj Hv.
      destruct (decide ((box_origin bs row + i, box_origin bs col + j) = (row, col)))
        as [Heq|Hne].
      * injection Heq as Hr Hc. rewrite Hr, Hc in Hv. done.
      * apply Hno. exists (box_origin bs row + i), (box_origin bs col + j).
        repeat split; [lia|lia|done| |done].
        change (box_size size) with bs. right; right. lia.
  - exists false. split; [done|]. split; [done|]. intros [Hself Hno].
    destruct H1 as [_ H1]. enough (true = true → false = true) by auto. intros _.
    apply H1. intros i Hi%elem_of_seq. split; intros Hv.
    + destruct (decide (i = col)) as [->|Hne]; [done|].
      apply Hno. exists row, i. repeat split; [lia|lia|congruence|by left|done].
    + destruct (decide (i = row)) as [->|Hne]; [done|].
      apply Hno. exists i, col. repeat split; [lia|lia|congruence|by right; left|done].
Qed.

Lemma is_valid_move_spec_witness :
  is_grid 4 puzzle4 ∧ box_size 4 * box_size 4 = 4 ∧ 0 < 4 ∧ 2 < 4
  ∧ ∃ ok, is_valid_move 4 puzzle4 0 2 3 = Ok ok
          ∧ (ok = true ↔ cell puzzle4 0 2 ≠ 3%Z ∧ ¬ appears_elsewhere 4 puzzle4 0 2 3).
Proof.
  assert (is_grid 4 puzzle4) as Hg by (apply (bool_decide_unpack _); vm_compute; exact I).
  split; [exact Hg|]. split; [reflexivity|]. split; [lia|]. split; [lia|].
  apply (is_valid_move_spec 4 puzzle4 0 2 3 Hg); [reflexivity|lia|lia].
Defined.

(** C3, as stated, fails: on [corner4] the value 1 appears nowhere else
    than at (0,0), and [is_valid_move] at (0,0) returns False. *)
Lemma is_valid_move_rejects_own_cell : is_valid_move 4 corner4 0 0 1 = Ok false ∧ ¬ appears_elsewhere 4 corner4 0 0 1.
Proof.
  split; [reflexivity|].
  intros (r & c & Hr & Hc & Hne & _ & Hv).
  do 4 (destruct r as [|r]; [do 4 (destruct c as [|c]; [vm_compute in Hv; congruence|]); lia|]).
  lia.
Qed.

(** ** The counting solver *)

Section Solver.
Context {G : Type} `{!Grid G}.

Lemma solve_nums_counts (rec : Solver G → result (bool * Solver G)) :
  (∀ s found s', rec s = Ok (found, s') →
     num_solutions s' = num_solutions s + (if found then 1 else 0)) →
  ∀ ns s row col found s',
    solve_nums rec s row col ns = Ok (found, s') →
    num_solutions s' = num_solutions s + (if found then 1 else 0).
Proof.
  intros Hrec. induction ns as [|num ns IH]; intros s row col found s' H; simpl in H.
  - injection H as <- <-. lia.
  - inv_bind H. destruct a; [|by eapply IH].
    inv_bind H. inv_bind H. destruct a0 as [f s2].
    apply Hrec in Hrun1. simpl in Hrun1. destruct f.
    + injection H as <- <-. lia.
    + inv_bind H. apply IH in H. simpl in H. lia.
Qed.

(** A run of [solve] adds one to the counter when it returns True and
    nothing when it returns False: the counter never moves by two. *)
Lemma solve_counts fuel (s : Solver G) found s' :
  solve fuel s = Ok (found, s') →
  num_solutions s' = num_solutions s + (if found then 1 else 0).
Proof.
  revert s found s'. induction fuel as [|fuel IH]; intros s found s' H; [done|].
  simpl in H. inv_bind H. destruct a as [[row col]|].
  - eapply solve_nums_counts; eauto.
  - injection H as <- <-. simpl. lia.
Qed.

(** [has_unique_solution] answers True exactly when the search found a
    solution at all. *)
Lemma has_unique_solution_solvable fuel (b : G) u b' :
  has_unique_solution fuel b = Ok (u, b') →
  ∃ s', solve fuel (init b) = Ok (u, s') ∧ board s' = b'.
Proof.
  unfold has_unique_solution. intros H. inv_bind H. destruct a as [found s'].
  injection H as <- <-. exists s'. split; [|done].
  rewrite Hrun. f_equal. f_equal.
  apply solve_counts in Hrun. simpl in Hrun. destruct found.
  - by rewrite bool_decide_eq_true_2.
  - by rewrite bool_decide_eq_false_2 by lia.
Qed.

Lemma solve_nums_mono (rec rec' : Solver G → result (bool * Solver G)) :
  (∀ s r, rec s = Ok r → rec' s = Ok r) →
  ∀ ns s row col r,
    solve_nums rec s row col ns = Ok r → solve_nums rec' s row col ns = Ok r.
Proof.
  intros Hrec. induction ns as [|num ns IH]; intros s row col r H; simpl in *; [done|].
  inv_bind H. rewrite Hrun. simpl. destruct a; [|by apply IH].
  inv_bind H. rewrite Hrun0. simpl. inv_bind H. destruct a0 as [f s2].
  rewrite (Hrec _ _ Hrun1). simpl. destruct f; [done|].
  inv_bind H. rewrite Hrun2. simpl. by apply IH.
Qed.

(** More fuel does not change a result. *)
Lemma solve_fuel_mono fuel fuel' (s : Solver G) r :
  fuel ≤ fuel' → solve fuel s = Ok r → solve fuel' s = Ok r.
Proof.
  revert fuel' s r. induction fuel as [|fuel IH]; intros fuel' s r Hle H; [done|].
  destruct fuel' as [|fuel']; [lia|]. simpl in *.
  inv_bind H. rewrite Hrun. simpl. destruct a as [[row col]|]; [|done].
  eapply solve_nums_mono; [|done]. intros s0 r0. apply IH. lia.
Qed.

Lemma has_unique_solution_fuel_mono fuel fuel' (b : G) r :
  fuel ≤ fuel' → has_unique_solution fuel b = Ok r → has_unique_solution fuel' b = Ok r.
Proof.
  unfold has_unique_solution. intros Hle H. inv_bind H.
  by rewrite (solve_fuel_mono _ _ _ _ Hle Hrun).
Qed.
End Solver.

Lemma puzzle4_two_solutions :
  solution_of 4 puzzle4 solved4 ∧ solution_of 4 puzzle4 other4 ∧ solved4 ≠ other4.
Proof.
  split; [|split]; [apply (bool_decide_unpack _); vm_compute; exact I..|discriminate].
Qed.

(** C1, at a board with two solutions.  [puzzle4] can be completed as
    [solved4] and as [other4], and [has_unique_solution] returns True on
    it: the search returns at its first solution with the counter at 1. *)
Theorem has_unique_solution_counts_one fuel :
  has_unique_solution (5 + fuel) puzzle4 = Ok (true, solved4)
  ∧ ¬ unique_solution 4 puzzle4.
Proof.
  split.
  - apply (has_unique_solution_fuel_mono 5); [lia|]. vm_compute. reflexivity.
  - intros (b & _ & Huniq). destruct puzzle4_two_solutions as (HA & HB & Hne).
    apply Hne. by rewrite (Huniq _ HA), (Huniq _ HB).
Qed.

Lemma puzzle9_two_solutions :
  solution_of 9 puzzle9 solved9 ∧ solution_of 9 puzzle9 other9 ∧ solved9 ≠ other9.
Proof.
  split; [|split]; [apply (bool_decide_unpack _); vm_compute; exact I..|discriminate].
Qed.

(** C2, at a run of the generator.  With the picks [picks9] the board
    returned by [generate_board] for size 9 is [puzzle9], which has the two
    solutions [solved9] and [other9]. *)
Theorem generate_board_two_solutions :
  returned_board (generate_board 82 9 (replay picks9)) = Some puzzle9
  ∧ ¬ unique_solution 9 puzzle9.
Proof.
  split.
  - vm_compute. reflexivity.
  - intros (b & _ & Huniq). destruct puzzle9_two_solutions as (HA & HB & Hne).
    apply Hne. by rewrite (Huniq _ HA), (Huniq _ HB).
Qed.

(** The same on a 4x4 board: the generator returns [puzzle4]. *)
Lemma generate_board_returns_puzzle4 :
  returned_board (generate_board 17 4 (replay picks4)) = Some puzzle4.
Proof. vm_compute. reflexivity. Qed.

(** ** Boards as objects *)

Lemma view_Forall2 h b old :
  view h b = Some old ↔ Forall2 (λ l row, h !! l = Some row) b old.
Proof. apply mapM_Some. Qed.

Lemma view_ext h h' b :
  (∀ l, l ∈ b → h' !! l = h !! l) → view h' b = view h b.
Proof.
  intros Hext. destruct (view h b) as [old|] eqn:Hv.
  - apply view_Forall2. apply view_Forall2 in Hv.
    induction Hv as [|l row b old Hl _ IH]; constructor.
    + rewrite Hext; [done|left].
    + apply IH. intros l' Hl'. apply Hext. by right.
  - destruct (view h' b) as [old|] eqn:Hv'; [|done].
    apply view_Forall2 in Hv'.
    assert (Forall2 (λ l row, h !! l = Some row) b old) as Hv2.
    { clear Hv. induction Hv' as [|l row b old Hl _ IH]; constructor.
      - rewrite <- Hext; [done|left].
      - apply IH. intros l' Hl'. apply Hext. by right. }
    apply view_Forall2 in Hv2. congruence.
Qed.

Lemma view_lookup h b old r l :
  view h b = Some old → b !! r = Some l →
  ∃ row, h !! l = Some row ∧ old !! r = Some row.
Proof.
  intros Hv%view_Forall2 Hl.
  destruct (Forall2_lookup_l _ _ _ _ _ Hv Hl) as (row & Hrow & Hh). eauto.
Qed.

Lemma view_bound h b old l :
  view h b = Some old → l ∈ b → l < length h.
Proof.
  intros Hv [r Hr]%list_elem_of_lookup.
  destruct (view_lookup _ _ _ _ _ Hv Hr) as (row & Hrow & _).
  by apply lookup_lt_Some in Hrow.
Qed.

Lemma hboard_get_view h b old r c v :
  view h b = Some old → hboard_get (h, b) r c = Ok v →
  ∃ row, old !! r = Some row ∧ row !! c = Some v.
Proof.
  intros Hv. unfold hboard_get. simpl.
  destruct (b !! r) as [l|] eqn:Hl; [|done].
  destruct (view_lookup _ _ _ _ _ Hv Hl) as (row & Hrow & Hold).
  rewrite Hrow. destruct (row !! c) as [v'|] eqn:Hc; [|done].
  intros [= <-]. eauto.
Qed.

Lemma hboard_set_view h b old r c v g :
  NoDup b → view h b = Some old → hboard_set (h, b) r c v = Ok g →
  ∃ row, old !! r = Some row ∧ c < length row ∧ g.2 = b
         ∧ view g.1 b = Some (<[r := <[c := v]> row]> old).
Proof.
  intros Hnd Hv. unfold hboard_set. simpl.
  destruct (b !! r) as [l|] eqn:Hl; [|done].
  destruct (view_lookup _ _ _ _ _ Hv Hl) as (row & Hrow & Hold).
  rewrite Hrow. destruct (decide (c < length row)) as [Hc|]; [|done].
  intros [= <-]. exists row. simpl. repeat split; [done..|].
  apply view_Forall2. apply view_Forall2 in Hv.
  apply Forall2_lookup. intros i. 
  pose proof (proj1 (Forall2_lookup _ _ _) Hv i) as Hi.
  destruct (decide (i = r)) as [->|Hne].
  - rewrite Hl. rewrite list_lookup_insert_eq by (by apply lookup_lt_Some in Hold).
    constructor. apply list_lookup_insert_eq. by apply lookup_lt_Some in Hrow.
  - rewrite list_lookup_insert_ne by done.
    inversion Hi as [l' row' Hl' Hbi Hoi|]; [|constructor]. constructor.
    rewrite list_lookup_insert_ne; [done|].
    intros <-. apply Hne. symmetry in Hbi. eapply NoDup_lookup; eauto.
Qed.

Lemma frame_refl g : frame g g.
Proof. done. Qed.

Lemma frame_trans g1 g2 g3 : frame g1 g2 → frame g2 g3 → frame g1 g3.
Proof.
  intros (Hb1 & Hl1 & H1) (Hb2 & Hl2 & H2). repeat split; [congruence..|].
  intros l Hl. rewrite H2, H1; [done..|]. by rewrite Hb1.
Qed.

Lemma hboard_set_frame g r c v g' : hboard_set g r c v = Ok g' → frame g g'.
Proof.
  unfold hboard_set. destruct (g.2 !! r) as [l|] eqn:Hl; [|done].
  destruct (g.1 !! l) as [row|]; [|done]. destruct (decide _); [|done].
  intros [= <-]. simpl. repeat split; [apply length_insert|].
  intros l' Hl'. apply list_lookup_insert_ne. intros ->.
  apply Hl'. eapply list_elem_of_lookup_2; eauto.
Qed.

Lemma solve_nums_frame (rec : Solver HBoard → result (bool * Solver HBoard)) :
  (∀ s found s', rec s = Ok (found, s') → frame (board s) (board s')) →
  ∀ ns s row col found s',
    solve_nums rec s row col ns = Ok (found, s') → frame (board s) (board s').
Proof.
  intros Hrec. induction ns as [|num ns IH]; intros s row col found s' H; simpl in H.
  - injection H as <- <-. apply frame_refl.
  - inv_bind H. destruct a; [|by eapply IH].
    inv_bind H. inv_bind H. destruct a0 as [f s2].
    apply hboard_set_frame in Hrun0. apply Hrec in Hrun1. simpl in Hrun1.
    pose proof (frame_trans _ _ _ Hrun0 Hrun1) as H02. destruct f.
    + by injection H as <- <-.
    + inv_bind H. apply hboard_set_frame in Hrun2. apply IH in H. simpl in H.
      eauto using frame_trans.
Qed.

Lemma solve_frame fuel (s : Solver HBoard) found s' :
  solve fuel s = Ok (found, s') → frame (board s) (board s').
Proof.
  revert s found s'. induction fuel as [|fuel IH]; intros s found s' H; [done|].
  simpl in H. inv_bind H. destruct a as [[row col]|].
  - eapply solve_nums_frame; eauto.
  - injection H as <- <-. apply frame_refl.
Qed.

Lemma has_unique_solution_frame fuel (g : HBoard) u g' :
  has_unique_solution fuel g = Ok (u, g') → frame g g'.
Proof.
  intros (s' & Hs & <-)%has_unique_solution_solvable.
  by apply solve_frame in Hs.
Qed.

Lemma copy_rows_spec b : ∀ h h2 tb,
  copy_rows h b = Ok (h2, tb) →
  (∃ k, h2 = h ++ k) ∧ Forall (λ l, length h ≤ l) tb.
Proof.
  induction b as [|l b IH]; intros h h2 tb H; simpl in H.
  - injection H as <- <-. split; [exists []; by rewrite app_nil_r|constructor].
  - destruct (h !! l) as [row|]; [|done]. inv_bind H. destruct a as [h' ls].
    injection H as <- <-. apply IH in Hrun as [[k ->] Hls]. split.
    + exists (row :: k). by rewrite <- app_assoc.
    + constructor; [done|]. eapply Forall_impl; [done|].
      intros x. rewrite length_app. simpl. lia.
Qed.

(** The probe: copying the board and running [has_unique_solution] on the
    copy leaves every row that existed before the copy as it was. *)
Lemma probe_frame fuel h b h2 tb u g3 :
  copy_rows h b = Ok (h2, tb) →
  has_unique_solution fuel (h2, tb) = Ok (u, g3) →
  ∀ l, l < length h → g3.1 !! l = h !! l.
Proof.
  intros [[k ->] Hfresh]%copy_rows_spec (_ & _ & Hfr)%has_unique_solution_frame l Hl.
  simpl in Hfr. rewrite Hfr.
  - by apply lookup_app_l.
  - intros Hin. rewrite Forall_forall in Hfresh. apply Hfresh in Hin. lia.
Qed.

Lemma resample_nonzero fuel size h b : ∀ row col rng row' col' rng',
  resample fuel size h b row col rng = Ok (row', col', rng') →
  ∃ v, hboard_get (h, b) row' col' = Ok v ∧ v ≠ 0%Z.
Proof.
  induction fuel as [|fuel IH]; intros row col rng row' col' rng' H; [done|].
  simpl in H. inv_bind H. destruct (Z.eqb_spec a 0) as [->|Hnz].
  - inv_bind H. destruct a as [r1 rng1]. inv_bind H. destruct a as [c1 rng2].
    by eapply IH.
  - injection H as <- <- <-. eauto.
Qed.

Lemma probe_view fuel h b old h2 tb u g3 :
  view h b = Some old →
  copy_rows h b = Ok (h2, tb) →
  has_unique_solution fuel (h2, tb) = Ok (u, g3) →
  view g3.1 b = Some old.
Proof.
  intros Hv Hcopy Hprobe. rewrite <- Hv. apply view_ext.
  intros l Hl. eapply probe_frame; [done..|]. by eapply view_bound.
Qed.

(** C9.  On a board whose rows are distinct objects, an iteration of
    [remove_numbers] that completes leaves the board either exactly as it
    was or with exactly one cell, filled before, set to 0; and the probe (the
    copy and [has_unique_solution] on the copy) leaves the working board as
    it was. *)
Theorem remove_one_atomic fuel size h b old :
  NoDup b → view h b = Some old →
  (∀ rng h' rng', remove_one fuel size h b rng = Ok (h', rng') →
     ∃ new, view h' b = Some new ∧ (new = old ∨ cleared old new))
  ∧ (∀ h2 tb u g3,
       copy_rows h b = Ok (h2, tb) →
       has_unique_solution fuel (h2, tb) = Ok (u, g3) →
       view g3.1 b = Some old).
Proof.
  intros Hnd Hv. split; [|intros; by eapply probe_view].
  intros rng h' rng' H. unfold remove_one in H.
  inv_bind H. destruct a as [row0 rng1]. inv_bind H. destruct a as [col0 rng2].
  inv_bind H. destruct a as [[row col] rng3].
  apply resample_nonzero in Hrun1 as (v & Hget & Hnz).
  inv_bind H. simpl in Hrun1. rewrite Hget in Hrun1. injection Hrun1 as <-.
  inv_bind H. rename a into g1. simpl in Hrun1.
  destruct (hboard_set_view _ _ _ _ _ _ _ Hnd Hv Hrun1) as (r0 & Hr0 & Hc & Hb1 & Hv1).
  destruct (hboard_get_view _ _ _ _ _ _ Hv Hget) as (r0' & Hr0' & Hcell).
  assert (r0' = r0) as -> by congruence.
  inv_bind H. destruct a as [h2 temp_board]. inv_bind H. destruct a as [unique g3].
  pose proof (probe_view _ _ _ _ _ _ _ _ Hv1 Hrun2 Hrun3) as Hv3.
  destruct unique.
  - injection H as <- <-. eexists. split; [done|]. right.
    exists row, col, r0, v. done.
  - inv_bind H. injection H as <- <-. simpl in Hrun4.
    destruct (hboard_set_view _ _ _ _ _ _ _ Hnd Hv3 Hrun4) as (r1 & Hr1 & _ & _ & Hv4).
    eexists. split; [done|]. left.
    rewrite list_lookup_insert_eq in Hr1 by (by apply lookup_lt_Some in Hr0).
    injection Hr1 as <-.
    rewrite list_insert_insert_eq, list_insert_insert_eq.
    rewrite (list_insert_id r0 col v) by done. by apply list_insert_id.
Qed.

Lemma remove_one_atomic_witness :
  NoDup [0; 1; 2; 3] ∧ view solved4 [0; 1; 2; 3] = Some solved4
  ∧ (∀ rng h' rng', remove_one 17 4 solved4 [0; 1; 2; 3] rng = Ok (h', rng') →
       ∃ new, view h' [0; 1; 2; 3] = Some new ∧ (new = solved4 ∨ cleared solved4 new))
  ∧ (∀ h2 tb u g3,
       copy_rows solved4 [0; 1; 2; 3] = Ok (h2, tb) →
       has_unique_solution 17 (h2, tb) = Ok (u, g3) →
       view g3.1 [0; 1; 2; 3] = Some solved4).
Proof.
  assert (NoDup [0; 1; 2; 3]) as Hnd by (apply (bool_decide_unpack _); vm_compute; exact I).
  split; [exact Hnd|]. split; [reflexivity|].
  apply (remove_one_atomic 17 4 solved4 [0; 1; 2; 3] solved4 Hnd). reflexivity.
Defined.


(** An iteration that clears the cell it picked, and one that restores it
    because the probed board cannot be completed. *)
Example remove_one_clears :
  after_iteration (remove_one 17 4 solved4 [0; 1; 2; 3] (replay [1; 2])) [0; 1; 2; 3]
  = Some [[1; 2; 3; 4]; [3; 4; 0; 2]; [2; 1; 4; 3]; [4; 3; 2; 1]]%Z.
Proof. vm_compute. reflexivity. Qed.

Example remove_one_restores :
  after_iteration (remove_one 17 4 stuck4 [0; 1; 2; 3] (replay [0; 0])) [0; 1; 2; 3]
  = Some stuck4.
Proof. vm_compute. reflexivity. Qed.

End SudokuFacts.

Module MazeGridFacts.
Import MazeGrid.

Lemma py_index_in n (i : Z) : (0 ≤ i < Z.of_nat n)%Z → py_index n i = Ok (Z.to_nat i).
Proof. intros H. unfold py_index. by rewrite bool_decide_eq_true_2. Qed.

Lemma dims_row {A} (g : list (list A)) rows cols i :
  dims g rows cols → i < rows → ∃ row, g !! i = Some row ∧ length row = cols.
Proof.
  intros [Hlen Hrows] Hi. destruct (lookup_lt_is_Some_2 g i) as [row Hrow]; [lia|].
  exists row. split; [done|]. exact (Forall_lookup_1 _ _ _ _ Hrows Hrow).
Qed.

Lemma dims_at_pos {A} (g : list (list A)) rows cols i j :
  dims g rows cols → i < rows → j < cols → is_Some (at_pos g i j).
Proof.
  intros Hd Hi Hj. destruct (dims_row g rows cols i Hd Hi) as (row & Hrow & Hlen).
  unfold at_pos. rewrite Hrow. simpl. apply lookup_lt_is_Some_2. lia.
Qed.

Lemma at_pos_dims {A} (g : list (list A)) rows cols i j v :
  dims g rows cols → at_pos g i j = Some v → i < rows ∧ j < cols.
Proof.
  intros [Hlen Hrows]. unfold at_pos. destruct (g !! i) as [row|] eqn:Hrow; [|done].
  simpl. intros Hv. pose proof (Forall_lookup_1 _ _ _ _ Hrows Hrow) as Hl. simpl in Hl.
  apply lookup_lt_Some in Hrow, Hv. lia.
Qed.

Lemma cell_get_dims {A} (g : list (list A)) rows cols (r c : Z) :
  dims g rows cols → (0 ≤ r < Z.of_nat rows)%Z → (0 ≤ c < Z.of_nat cols)%Z →
  ∃ v, cell_get g r c = Ok v ∧ at_pos g (Z.to_nat r) (Z.to_nat c) = Some v.
Proof.
  intros Hd Hr Hc. destruct (dims_row g rows cols (Z.to_nat r) Hd) as (row & Hrow & Hlen); [lia|].
  unfold cell_get, at_pos. destruct Hd as [Hg _].
  rewrite py_index_in by lia. simpl. rewrite Hrow. simpl.
  rewrite py_index_in by lia. simpl.
  destruct (lookup_lt_is_Some_2 row (Z.to_nat c)) as [v Hv]; [lia|].
  rewrite Hv. eauto.
Qed.

Lemma cell_set_dims {A} (g : list (list A)) rows cols (r c : Z) v :
  dims g rows cols → (0 ≤ r < Z.of_nat rows)%Z → (0 ≤ c < Z.of_nat cols)%Z →
  ∃ row, g !! Z.to_nat r = Some row ∧ length row = cols
         ∧ cell_set g r c v = Ok (<[Z.to_nat r := <[Z.to_nat c := v]> row]> g).
Proof.
  intros Hd Hr Hc. destruct (dims_row g rows cols (Z.to_nat r) Hd) as (row & Hrow & Hlen); [lia|].
  exists row. split; [done|]. split; [done|]. unfold cell_set. destruct Hd as [Hg _].
  rewrite py_index_in by lia. simpl. rewrite Hrow.
  rewrite py_index_in by lia. done.
Qed.

Lemma dims_insert {A} (g : list (list A)) rows cols i j row v :
  dims g rows cols → g !! i = Some row → dims (<[i := <[j := v]> row]> g) rows cols.
Proof.
  intros [Hlen Hrows] Hrow. split; [by rewrite length_insert|].
  apply Forall_insert; [done|]. rewrite length_insert.
  exact (Forall_lookup_1 _ _ _ _ Hrows Hrow).
Qed.

Lemma dims_replicate {A} rows cols (v : A) :
  dims (replicate rows (replicate cols v)) rows cols.
Proof.
  split; [apply length_replicate|]. apply Forall_replicate, length_replicate.
Qed.

Section Count.
Context {A : Type} (P : A → Prop) `{!∀ x, Decision (P x)}.

Lemma count_row_insert_le (row : list A) j y :
  ¬ P y → length (filter P (<[j := y]> row)) ≤ length (filter P row).
Proof.
  intros Hy. revert j. induction row as [|x row IH]; intros j; [done|].
  destruct j as [|j].
  - change (<[0:=y]> (x :: row)) with (y :: row).
    rewrite filter_cons_False by done.
    destruct (decide (P x)); [rewrite filter_cons_True by done; simpl; lia|].
    by rewrite filter_cons_False.
  - change (<[S j:=y]> (x :: row)) with (x :: <[j:=y]> row).
    specialize (IH j). destruct (decide (P x)).
    + rewrite !filter_cons_True by done. simpl. lia.
    + by rewrite !filter_cons_False.
Qed.

Lemma count_row_insert_hit (row : list A) j x y :
  row !! j = Some x → P x → ¬ P y →
  length (filter P (<[j := y]> row)) + 1 = length (filter P row).
Proof.
  intros Hj Hx Hy. revert j Hj. induction row as [|a row IH]; intros j Hj; [done|].
  destruct j as [|j].
  - injection Hj as ->. change (<[0:=y]> (x :: row)) with (y :: row).
    rewrite filter_cons_False by done.
    rewrite filter_cons_True by done. simpl. lia.
  - change (<[S j:=y]> (a :: row)) with (a :: <[j:=y]> row).
    specialize (IH j Hj). destruct (decide (P a)).
    + rewrite !filter_cons_True by done. simpl. lia.
    + by rewrite !filter_cons_False.
Qed.

Lemma count_cells_insert_le (g : list (list A)) i j row y :
  g !! i = Some row → ¬ P y →
  count_cells P (<[i := <[j := y]> row]> g) ≤ count_cells P g.
Proof.
  intros Hi Hy. revert i Hi. induction g as [|r g IH]; intros i Hi; [done|].
  destruct i as [|i].
  - injection Hi as ->.
    change (<[0:=<[j:=y]> row]> (row :: g)) with (<[j:=y]> row :: g).
    cbn [count_cells]. pose proof (count_row_insert_le row j y Hy). lia.
  - change (<[S i:=<[j:=y]> row]> (r :: g)) with (r :: <[i:=<[j:=y]> row]> g).
    cbn [count_cells]. specialize (IH i Hi). lia.
Qed.

Lemma count_cells_insert_hit (g : list (list A)) i j row x y :
  g !! i = Some row → row !! j = Some x → P x → ¬ P y →
  count_cells P (<[i := <[j := y]> row]> g) + 1 = count_cells P g.
Proof.
  intros Hi Hj Hx Hy. revert i Hi. induction g as [|r g IH]; intros i Hi; [done|].
  destruct i as [|i].
  - injection Hi as ->.
    change (<[0:=<[j:=y]> row]> (row :: g)) with (<[j:=y]> row :: g).
    cbn [count_cells]. pose proof (count_row_insert_hit row j x y Hj Hx Hy). lia.
  - change (<[S i:=<[j:=y]> row]> (r :: g)) with (r :: <[i:=<[j:=y]> row]> g).
    cbn [count_cells]. specialize (IH i Hi). lia.
Qed.

Lemma count_cells_replicate rows cols (v : A) :
  P v → count_cells P (replicate rows (replicate cols v)) = rows * cols.
Proof.
  intros Hv. induction rows as [|rows IH]; [done|].
  cbn [replicate count_cells]. rewrite IH.
  change (S rows * cols) with (cols + rows * cols). f_equal. clear IH.
  induction cols as [|cols IH]; [done|]. cbn [replicate].
  rewrite filter_cons_True by done. simpl. by rewrite IH.
Qed.
End Count.

Lemma count_false_insert g i j row :
  g !! i = Some row → row !! j = Some false →
  count_false (<[i := <[j := true]> row]> g) + 1 = count_false g.
Proof. intros Hi Hj. by apply (count_cells_insert_hit _ g i j row false true). Qed.

Lemma count_false_replicate rows cols :
  count_false (replicate rows (replicate cols false)) = rows * cols.
Proof. by apply count_cells_replicate. Qed.

Lemma at_pos_insert {A} (m : list (list A)) i j row v r c :
  m !! i = Some row →
  at_pos (<[i := <[j := v]> row]> m) r c
  = if decide (r = i ∧ c = j ∧ j < length row) then Some v else at_pos m r c.
Proof.
  intros Hrow. unfold at_pos.
  destruct (decide (r = i)) as [->|Hne].
  - rewrite list_lookup_insert_eq by (by apply lookup_lt_Some in Hrow).
    rewrite Hrow. simpl. destruct (decide (c = j)) as [->|Hnc].
    + destruct (decide (j < length row)) as [Hlt|Hge].
      * rewrite list_lookup_insert_eq by done. by rewrite decide_True.
      * rewrite decide_False by tauto. by rewrite list_insert_ge by lia.
    + rewrite decide_False by tauto. by rewrite list_lookup_insert_ne.
  - rewrite decide_False by tauto. by rewrite list_lookup_insert_ne.
Qed.

End MazeGridFacts.

Module MazeGeneratorFacts.
Import MazeGrid MazeGenerator MazeGridFacts.

Lemma assign_open_keeps m m' r c : assign_open m m' → is_open m r c → is_open m' r c.
Proof.
  intros (i & j & row & v & Hrow & Hv & ->) (w & Hw & Hnw). unfold is_open.
  rewrite (at_pos_insert _ _ _ _ _ _ _ Hrow). case_decide; eauto.
Qed.

Lemma opens_keeps m t : opens m t →
  ∀ i j mi mj, i ≤ j → (m :: t) !! i = Some mi → (m :: t) !! j = Some mj →
  ∀ r c, is_open mi r c → is_open mj r c.
Proof.
  induction 1 as [m|m m' t Ha Ht IH]; intros i j mi mj Hij Hi Hj r c Hopen.
  - destruct i, j; simpl in *; try done. congruence.
  - destruct j as [|j].
    + assert (i = 0) as -> by lia. simpl in *. congruence.
    + destruct i as [|i].
      * simpl in Hi. injection Hi as <-.
        apply (IH 0 j m' mj); [lia|done|done|]. by eapply assign_open_keeps.
      * apply (IH i j mi mj); [lia|done..].
Qed.

Lemma opens_app m t1 m2 t2 :
  opens m t1 → last (m :: t1) = Some m2 → opens m2 t2 → opens m (t1 ++ t2).
Proof.
  induction 1 as [m|m m' t Ha Ht IH]; simpl; intros Hlast H2.
  - by injection Hlast as ->.
  - constructor; [done|]. apply IH; [|done]. by destruct t.
Qed.

Lemma carved_refl g g' :
  maze g' = maze g → trace g' = trace g → carved g g'.
Proof.
  intros Hm Ht. exists []. rewrite app_nil_r. split; [done|]. split; [constructor|].
  simpl. by rewrite Hm.
Qed.

Lemma carved_trans g1 g2 g3 : carved g1 g2 → carved g2 g3 → carved g1 g3.
Proof.
  intros (t1 & Ht1 & Ho1 & Hl1) (t2 & Ht2 & Ho2 & Hl2). exists (t1 ++ t2).
  split; [by rewrite Ht2, Ht1, app_assoc|]. split; [by eapply opens_app|].
  destruct t2 as [|m t2].
  - rewrite app_nil_r. simpl in Hl2. congruence.
  - rewrite <- Hl2. rewrite !last_cons, last_app, !last_cons.
    by destruct (last t2).
Qed.

Lemma write_carved g r c v g' :
  write g r c v = Ok g' → v ≠ wall →
  carved g g' ∧ directions g' = directions g.
Proof.
  unfold write. intros H Hv. inv_bind H. injection H as <-. simpl. split; [|done].
  exists [a]. simpl. split; [done|]. split; [|done].
  constructor; [|constructor].
  unfold cell_set in Hrun. inv_bind Hrun.
  destruct (maze g !! a0) as [row|] eqn:Hrow; [|done].
  inv_bind Hrun. injection Hrun as <-. by exists a0, a1, row, v.
Qed.

Lemma space_not_wall : " "%char ≠ wall.
Proof. discriminate. Qed.

Lemma dfs_loop_carved rec :
  (∀ g r c rng g' rng', rec g r c rng = Ok (g', rng') → carved g g') →
  ∀ n k g row col rng g' rng',
    dfs_loop rec n k g row col rng = Ok (g', rng') → carved g g'.
Proof.
  intros Hrec. induction n as [|n IH]; intros k g row col rng g' rng' H; simpl in H.
  - injection H as <- <-. by apply carved_refl.
  - destruct (directions g !! k) as [[dr dc]|].
    + inv_bind H. destruct a.
      * inv_bind H. inv_bind H. inv_bind H. destruct a1 as [g3 rng3].
        apply write_carved in Hrun0 as [H0 _]; [|apply space_not_wall].
        apply write_carved in Hrun1 as [H1 _]; [|apply space_not_wall].
        apply Hrec in Hrun2. apply IH in H.
        eauto using carved_trans.
      * by eapply IH.
    + injection H as <- <-. by apply carved_refl.
Qed.

Lemma dfs_carved fuel : ∀ g row col rng g' rng',
  dfs fuel g row col rng = Ok (g', rng') → carved g g'.
Proof.
  induction fuel as [|fuel IH]; intros g row col rng g' rng' H; [done|].
  simpl in H. destruct (shuffle (directions g) rng) as [ds rng1].
  apply dfs_loop_carved in H; [|done].
  eapply carved_trans; [|exact H]. by apply carved_refl.
Qed.

(** C7, as amended.  In a run of [generate_maze], from before the marks
    on, every assignment gives a cell a value that is not a wall, so a cell
    that is open in one of the successive mazes is open in all later ones. *)
Theorem carving_keeps_open fuel g sr sc er ec rng g' rng' :
  generate_maze fuel g sr sc er ec rng = Ok (g', rng') →
  ∃ t, trace g' = trace g ++ t
       ∧ opens (maze g) t
       ∧ last (maze g :: t) = Some (maze g')
       ∧ ∀ i j mi mj, i ≤ j →
           (maze g :: t) !! i = Some mi → (maze g :: t) !! j = Some mj →
           ∀ r c, is_open mi r c → is_open mj r c.
Proof.
  unfold generate_maze. intros H. inv_bind H. inv_bind H.
  apply write_carved in Hrun as [H0 _]; [|discriminate].
  apply write_carved in Hrun0 as [H1 _]; [|discriminate].
  apply dfs_carved in H.
  destruct (carved_trans _ _ _ (carved_trans _ _ _ H0 H1) H) as (t & Ht & Ho & Hl).
  exists t. repeat split; [done..|]. by apply opens_keeps.
Qed.

Lemma carving_keeps_open_witness :
  ∃ g' rng',
    generate_maze 4 (new 1 3) 0 0 0 1 (replay []) = Ok (g', rng')
    ∧ ∃ t, trace g' = trace (new 1 3) ++ t
       ∧ opens (maze (new 1 3)) t
       ∧ last (maze (new 1 3) :: t) = Some (maze g')
       ∧ ∀ i j mi mj, i ≤ j →
           (maze (new 1 3) :: t) !! i = Some mi → (maze (new 1 3) :: t) !! j = Some mj →
           ∀ r c, is_open mi r c → is_open mj r c.
Proof.
  destruct (generate_maze 4 (new 1 3) 0 0 0 1 (replay [])) as [[g' rng']|e] eqn:Hrun.
  - exists g', rng'. split; [reflexivity|].
    exact (carving_keeps_open 4 (new 1 3) 0 0 0 1 (replay []) g' rng' Hrun).
  - vm_compute in Hrun. discriminate Hrun.
Defined.

(** C7, as stated, fails on one point: a carving step can change a cell
    that is not a wall.  In a 1x3 maze with start (0,0) and end (0,1) the
    first carving assignment replaces the 'E' at (0,1) by ' '. *)
Lemma carving_overwrites_end :
  ∃ mi mj,
    trace_of (generate_maze 4 (new 1 3) 0 0 0 1 (replay [])) !! 1 = Some mi
    ∧ trace_of (generate_maze 4 (new 1 3) 0 0 0 1 (replay [])) !! 2 = Some mj
    ∧ mi = rows_of ["SE#"] ∧ mj = rows_of ["S #"]
    ∧ ¬ only_walls_opened mi mj.
Proof.
  exists (rows_of ["SE#"]), (rows_of ["S #"]).
  split; [vm_compute; reflexivity|]. split; [vm_compute; reflexivity|].
  split; [done|]. split; [done|].
  intros H. destruct (H 0 1 "E"%char " "%char) as [Hw _]; [done..|discriminate Hw].
Qed.

(** ** Generation returns *)

Lemma shrinks_refl g : gen_wf g → shrinks g g.
Proof. intros Hwf. split; [done|]. split; [done|]. split; [done|lia]. Qed.

Lemma shrinks_trans g1 g2 g3 : shrinks g1 g2 → shrinks g2 g3 → shrinks g1 g3.
Proof.
  intros (_ & Hr1 & Hc1 & Hw1) (Hwf & Hr2 & Hc2 & Hw2).
  split; [done|]. split; [congruence|]. split; [congruence|lia].
Qed.

Lemma write_ok g (r c : Z) v :
  gen_wf g → (0 ≤ r < Z.of_nat (rows g))%Z → (0 ≤ c < Z.of_nat (cols g))%Z →
  v ≠ wall →
  ∃ g', write g r c v = Ok g' ∧ shrinks g g'
        ∧ directions g' = directions g
        ∧ (at_pos (maze g) (Z.to_nat r) (Z.to_nat c) = Some wall → walls g' + 1 = walls g)
        ∧ ∀ r' c', (r', c') ≠ (Z.to_nat r, Z.to_nat c) →
                   at_pos (maze g') r' c' = at_pos (maze g) r' c'.
Proof.
  intros Hwf Hr Hc Hv. unfold write.
  destruct (cell_set_dims (maze g) _ _ r c v Hwf Hr Hc) as (row & Hrow & Hlen & ->).
  simpl. eexists. split; [done|]. unfold shrinks, gen_wf, walls. simpl.
  split; [|split; [done|split]].
  - split; [by apply dims_insert|]. split; [done|]. split; [done|].
    by apply count_cells_insert_le.
  - unfold at_pos. rewrite Hrow. simpl. intros Hcell.
    by apply (count_cells_insert_hit _ _ _ _ _ wall v).
  - intros r' c' Hne. rewrite (at_pos_insert _ _ _ _ _ _ _ Hrow).
    rewrite decide_False; [done|]. intros (-> & -> & _). done.
Qed.

Lemma is_valid_move_ok g (r c : Z) :
  gen_wf g →
  ∃ ok, is_valid_move g r c = Ok ok
        ∧ (ok = true →
           (0 ≤ r < Z.of_nat (rows g))%Z ∧ (0 ≤ c < Z.of_nat (cols g))%Z
           ∧ at_pos (maze g) (Z.to_nat r) (Z.to_nat c) = Some wall).
Proof.
  intros Hwf. unfold is_valid_move.
  destruct (bool_decide _ && bool_decide _) eqn:Hb; [|by exists false].
  apply andb_true_iff in Hb as [Hr%bool_decide_eq_true Hc%bool_decide_eq_true].
  destruct (cell_get_dims _ _ _ r c Hwf Hr Hc) as (ch & -> & Hch). simpl.
  eexists. split; [done|]. intros ->%bool_decide_eq_true. done.
Qed.

Section CarveLoop.
Variable fuel : nat.
Hypothesis dfs_returns : ∀ g row col rng,
  gen_wf g → (0 ≤ row < Z.of_nat (rows g))%Z → (0 ≤ col < Z.of_nat (cols g))%Z →
  walls g < fuel →
  ∃ g' rng', dfs fuel g row col rng = Ok (g', rng') ∧ shrinks g g'.

Lemma dfs_loop_returns row col : ∀ n k g rng,
  gen_wf g → (0 ≤ row < Z.of_nat (rows g))%Z → (0 ≤ col < Z.of_nat (cols g))%Z →
  walls g ≤ fuel →
  ∃ g' rng', dfs_loop (dfs fuel) n k g row col rng = Ok (g', rng') ∧ shrinks g g'.
Proof.
  induction n as [|n IH]; intros k g rng Hwf Hr Hc Hfuel; simpl.
  - eauto using shrinks_refl.
  - destruct (directions g !! k) as [[dr dc]|]; [|eauto using shrinks_refl].
    destruct (is_valid_move_ok g (row + 2 * dr) (col + 2 * dc) Hwf) as (ok & -> & Hok).
    simpl. destruct ok; [|by apply IH].
    destruct (Hok eq_refl) as (Hnr & Hnc & Hwall). clear Hok.
    destruct (write_ok g (row + dr) (col + dc) " " Hwf ltac:(lia) ltac:(lia) space_not_wall)
      as (g1 & -> & Hs1 & _ & Hhit1 & Hother1). simpl.
    pose proof Hs1 as (Hwf1 & Hr1 & Hc1 & Hw1).
    destruct (write_ok g1 (row + 2 * dr) (col + 2 * dc) " " Hwf1 ltac:(lia) ltac:(lia)
                space_not_wall) as (g2 & -> & Hs2 & _ & Hhit2 & _). simpl.
    pose proof Hs2 as (Hwf2 & Hr2 & Hc2 & Hw2).
    assert (walls g2 < walls g) as Hless.
    { destruct (decide ((Z.to_nat (row + 2 * dr), Z.to_nat (col + 2 * dc))
                        = (Z.to_nat (row + dr), Z.to_nat (col + dc)))) as [Heq|Hne].
      - injection Heq as Heq1 Heq2. rewrite <- Heq1, <- Heq2 in Hhit1.
        specialize (Hhit1 Hwall). lia.
      - rewrite <- (Hother1 _ _ Hne) in Hwall. specialize (Hhit2 Hwall). lia. }
    destruct (dfs_returns g2 (row + 2 * dr)%Z (col + 2 * dc)%Z rng Hwf2 ltac:(lia) ltac:(lia)
                ltac:(lia)) as (g3 & rng3 & -> & Hs3). simpl.
    pose proof Hs3 as (Hwf3 & Hr3 & Hc3 & Hw3).
    destruct (IH (S k) g3 rng3 Hwf3 ltac:(lia) ltac:(lia) ltac:(lia)) as (g4 & rng4 & -> & Hs4).
    exists g4, rng4. split; [done|]. eauto using shrinks_trans.
Qed.
End CarveLoop.

Lemma dfs_returns fuel : ∀ g row col rng,
  gen_wf g → (0 ≤ row < Z.of_nat (rows g))%Z → (0 ≤ col < Z.of_nat (cols g))%Z →
  walls g < fuel →
  ∃ g' rng', dfs fuel g row col rng = Ok (g', rng') ∧ shrinks g g'.
Proof.
  induction fuel as [|fuel IH]; intros g row col rng Hwf Hr Hc Hfuel; [lia|].
  cbn [dfs]. destruct (shuffle (directions g) rng) as [ds rng1].
  set (g0 := {| rows := rows g; cols := cols g; maze := maze g;
                directions := ds; trace := trace g |}).
  destruct (dfs_loop_returns fuel IH row col (length ds) 0 g0 rng1) as (g' & rng' & -> & Hs);
    [done..|unfold walls in *; simpl; lia|].
  exists g', rng'. split; [done|]. exact Hs.
Qed.

(** With more fuel than cells, [generate_maze] on a new generator returns
    for every start and end inside the grid and every random source. *)
Lemma generate_maze_returns fuel rows cols sr sc er ec rng :
  (0 ≤ sr < Z.of_nat rows)%Z → (0 ≤ sc < Z.of_nat cols)%Z →
  (0 ≤ er < Z.of_nat rows)%Z → (0 ≤ ec < Z.of_nat cols)%Z →
  rows * cols < fuel →
  ∃ g' rng', generate_maze fuel (new rows cols) sr sc er ec rng = Ok (g', rng').
Proof.
  intros Hsr Hsc Her Hec Hfuel. unfold generate_maze.
  assert (gen_wf (new rows cols)) as Hwf by apply dims_replicate.
  assert (walls (new rows cols) = rows * cols) as Hw
    by (by apply (count_cells_replicate (λ c, c = wall))).
  destruct (write_ok (new rows cols) sr sc "S" Hwf Hsr Hsc ltac:(discriminate))
    as (g1 & -> & Hs1 & _). simpl.
  pose proof Hs1 as (Hwf1 & Hr1 & Hc1 & Hw1). simpl in Hr1, Hc1.
  destruct (write_ok g1 er ec "E" Hwf1 ltac:(lia) ltac:(lia) ltac:(discriminate))
    as (g2 & -> & Hs2 & _). simpl.
  pose proof Hs2 as (Hwf2 & Hr2 & Hc2 & Hw2).
  destruct (dfs_returns fuel g2 sr sc rng Hwf2 ltac:(lia) ltac:(lia) ltac:(lia))
    as (g' & rng' & -> & _). eauto.
Qed.

End MazeGeneratorFacts.

Module MazeSolverFacts.
Import MazeGrid MazeSolverDFS MazeGridFacts.

Lemma in_bounds_test s row col :
  bool_decide (0 ≤ row < Z.of_nat (rows s))%Z && bool_decide (0 ≤ col < Z.of_nat (cols s))%Z
  = true ↔ in_bounds s (row, col).
Proof.
  unfold in_bounds. simpl. rewrite andb_true_iff, !bool_decide_eq_true. done.
Qed.

Lemma solver_valid_move_spec s row col :
  wf s →
  ∃ ok, is_valid_move s row col = Ok ok
        ∧ (ok = true ↔ passable s (row, col) ∧ ¬ seen s (row, col)).
Proof.
  intros (Hm & Hv & _). unfold is_valid_move.
  destruct (bool_decide _ && bool_decide _) eqn:Hb.
  - apply in_bounds_test in Hb. destruct Hb as [Hr Hc]. simpl in Hr, Hc.
    destruct (cell_get_dims _ _ _ row col Hv Hr Hc) as (v & -> & Hv').
    destruct (cell_get_dims _ _ _ row col Hm Hr Hc) as (ch & Hch & Hch'). simpl.
    destruct v.
    + exists false. split; [done|]. split; [done|]. intros [_ Hns]. destruct Hns.
      split; [done|]. done.
    + rewrite Hch. simpl. eexists. split; [done|]. rewrite bool_decide_eq_true. split.
      * intros Hne. split; [split; [done|eauto]|]. intros [_ Hs]. simpl in Hs. congruence.
      * intros [[_ (ch' & Hch2 & Hne)] _]. simpl in Hch2. congruence.
  - exists false. split; [done|]. split; [done|]. intros [[Hin _] _].
    apply in_bounds_test in Hin. congruence.
Qed.

Lemma init_wf m s : init m = Ok s → rectangular m → wf s ∧ maze s = m ∧ blank s.
Proof.
  unfold init, rectangular. destruct m as [|row0 m]; [done|]. intros [= <-] Hrect.
  unfold wf, blank. cbn [maze rows cols visited directions path].
  split; [|split; [done|]].
  - split; [done|]. split; [exact (dims_replicate (S (length m)) (length row0) false)|done].
  - split; [done|]. apply (Forall_replicate _ (S (length m))), Forall_replicate. done.
Qed.

(** C5.  On a fresh solver, a start that is out of bounds or on a wall
    makes [solve] return None with the solver untouched: no cell marked, the
    path empty.  It holds with no fuel at all, so [dfs] is not entered. *)
Theorem solve_invalid_start fuel m s start_row start_col :
  init m = Ok s →
  ¬ in_bounds s (start_row, start_col) ∨ cell_at m (start_row, start_col) = Some wall →
  solve fuel s start_row start_col = Ok (None, s) ∧ blank s.
Proof.
  intros Hinit Hbad.
  assert (blank s ∧ maze s = m ∧ dims (visited s) (rows s) (cols s)) as (Hblank & Hm & Hv).
  { unfold init in Hinit. destruct m as [|row0 m]; [done|]. injection Hinit as <-.
    unfold blank. cbn [maze rows cols visited directions path].
    split; [|split; [done|exact (dims_replicate (S (length m)) (length row0) false)]].
    split; [done|]. apply (Forall_replicate _ (S (length m))), Forall_replicate. done. }
  split; [|done]. unfold solve.
  enough (is_valid_move s start_row start_col = Ok false) as -> by done.
  unfold is_valid_move.
  destruct (bool_decide _ && bool_decide _) eqn:Hb; [|done].
  apply in_bounds_test in Hb. destruct Hbad as [Hout|Hwall]; [done|].
  destruct Hb as [Hr Hc]. simpl in Hr, Hc.
  destruct (cell_get_dims _ _ _ start_row start_col Hv Hr Hc) as (v & -> & Hv'). simpl.
  destruct v; [done|].
  unfold cell_at in Hwall. simpl in Hwall.
  rewrite !bool_decide_eq_true_2 in Hwall by lia. simpl in Hwall.
  unfold cell_get. rewrite Hm.
  unfold at_pos in Hwall. destruct (m !! Z.to_nat start_row) as [r|] eqn:Hrow; [|done].
  simpl in Hwall. rewrite py_index_in.
  - simpl. rewrite Hrow. rewrite py_index_in.
    + simpl. rewrite Hwall. done.
    + apply lookup_lt_Some in Hwall. lia.
  - apply lookup_lt_Some in Hrow. lia.
Qed.

Lemma solve_invalid_start_witness :
  init maze3 = Ok solver3
  ∧ (¬ in_bounds solver3 (0, 2)%Z ∨ cell_at maze3 (0, 2)%Z = Some wall)
  ∧ solve 0 solver3 0 2 = Ok (None, solver3) ∧ blank solver3.
Proof.
  split; [reflexivity|]. split; [right; reflexivity|].
  apply (solve_invalid_start 0 maze3 solver3 0 2); [reflexivity|right; reflexivity].
Defined.

(** ** The search *)

Lemma advances_refl s : wf s → advances s s.
Proof. intros Hwf. split; [done|]. split; [done|]. split; [auto|lia]. Qed.

Lemma advances_trans s1 s2 s3 : advances s1 s2 → advances s2 s3 → advances s1 s3.
Proof.
  intros (_ & (Hm1 & Hr1 & Hc1) & Hs1 & Hn1) (Hwf & (Hm2 & Hr2 & Hc2) & Hs2 & Hn2).
  split; [done|]. split; [|split; [auto|lia]].
  unfold same_maze. split; [congruence|]. split; congruence.
Qed.

Lemma passable_same s s' p : same_maze s s' → passable s p ↔ passable s' p.
Proof. intros (Hm & Hr & Hc). unfold passable, in_bounds. by rewrite Hm, Hr, Hc. Qed.

Lemma closed_new_refl s : closed_new s s.
Proof. intros p Hp Hn. done. Qed.

Lemma seen_dec s p : Decision (seen s p).
Proof. unfold seen, in_bounds. apply _. Qed.

Lemma closed_new_trans s1 s2 s3 :
  advances s1 s2 → closed_new s1 s2 → advances s2 s3 → closed_new s2 s3 →
  closed_new s1 s3.
Proof.
  intros (_ & Hsame & _ & _) H12 (_ & _ & Hgrow & _) H23 p Hp3 Hn1.
  destruct (seen_dec s2 p) as [Hp2|Hn2].
  - destruct (H12 p Hp2 Hn1) as [He Hq]. split; [done|]. intros q Hadj Hpass. auto.
  - destruct (H23 p Hp3 Hn2) as [He Hq]. destruct Hsame as (Hm & Hr & Hc). split.
    + by rewrite <- Hm.
    + intros q Hadj Hpass. apply Hq; [done|]. by apply (passable_same s1 s2).
Qed.

Lemma adjacent_direction (p : Coord) (d : Coord) :
  d ∈ four_directions → adjacent p ((p.1 + d.1)%Z, (p.2 + d.2)%Z).
Proof.
  unfold four_directions, adjacent. rewrite !elem_of_cons, elem_of_nil. simpl.
  intros [->|[->|[->|[->|[]]]]]; simpl; lia.
Qed.

Lemma direction_adjacent (p q : Coord) :
  adjacent p q → ∃ d, d ∈ four_directions ∧ q = ((p.1 + d.1)%Z, (p.2 + d.2)%Z).
Proof.
  destruct p as [r c], q as [r' c']. unfold adjacent, four_directions. simpl. intros H.
  assert ((r' = r ∧ c' = c + 1) ∨ (r' = r ∧ c' = c + -1)
          ∨ (r' = r + 1 ∧ c' = c) ∨ (r' = r + -1 ∧ c' = c))%Z as Hcases by lia.
  destruct Hcases as [[-> ->]|[[-> ->]|[[-> ->]|[-> ->]]]].
  - exists (0, 1)%Z. split; [left|]. simpl. f_equal; lia.
  - exists (0, -1)%Z. split; [right; left|]. simpl. f_equal; lia.
  - exists (1, 0)%Z. split; [right; right; left|]. simpl. f_equal; lia.
  - exists (-1, 0)%Z. split; [right; right; right; left|]. simpl. f_equal; lia.
Qed.

(** Marking a passable cell that is not marked yet. *)
Lemma mark_cell s row col :
  wf s → passable s (row, col) → ¬ seen s (row, col) →
  ∃ vis, cell_set (visited s) row col true = Ok vis
    ∧ ∀ pth,
      let s1 := {| maze := maze s; rows := rows s; cols := cols s; visited := vis;
                   directions := directions s; path := pth |} in
      wf s1
      ∧ count_false (visited s1) + 1 = count_false (visited s)
      ∧ ∀ p, seen s1 p ↔ seen s p ∨ p = (row, col).
Proof.
  intros (Hm & Hv & Hd) [[Hr Hc] _] Hns. simpl in Hr, Hc.
  destruct (cell_set_dims (visited s) _ _ row col true Hv Hr Hc) as (vrow & Hvrow & Hlen & ->).
  eexists. split; [done|]. intros pth s1.
  assert (vrow !! Z.to_nat col = Some false) as Hfalse.
  { destruct (lookup_lt_is_Some_2 vrow (Z.to_nat col)) as [b Hb]; [lia|].
    destruct b; [|done]. destruct Hns. split; [done|]. unfold at_pos. simpl.
    by rewrite Hvrow. }
  split; [|split].
  - split; [done|]. split; [|done]. by apply dims_insert.
  - by apply count_false_insert.
  - intros [pr pc]. unfold seen, in_bounds. simpl.
    rewrite (at_pos_insert _ _ _ _ _ _ _ Hvrow). case_decide as Hdec.
    + destruct Hdec as (H1 & H2 & _). split.
      * intros [[Hpr Hpc] _]. right. f_equal; lia.
      * intros [[Hin _]|[= -> ->]]; done.
    + split.
      * intros [Hin Hat]. by left.
      * intros [[Hin Hat]|[= -> ->]]; [done|]. destruct Hdec. split; [done|]. split; [done|lia].
Qed.

Section Loop.
Variable fuel : nat.
Hypothesis dfs_ok : ∀ s row col,
  wf s → count_false (visited s) < fuel →
  ∃ found s', dfs fuel s row col = Ok (found, s') ∧ dfs_post s (row, col) found s'.

Lemma dfs_loop_ok row col ds : ∀ s,
  wf s → count_false (visited s) < fuel →
  ∃ found s', dfs_loop (dfs fuel) s row col ds = Ok (found, s')
              ∧ loop_post s (row, col) ds found s'.
Proof.
  induction ds as [|[dr dc] ds IH]; intros s Hwf Hfuel.
  - exists false, s. split; [done|]. split; [by apply advances_refl|].
    split; [done|]. split; [|apply closed_new_refl]. intros d Hd. inversion Hd.
  - destruct (dfs_ok s (row + dr)%Z (col + dc)%Z Hwf Hfuel) as (f1 & s1 & Hrun & Hadv1 & Hpost1).
    simpl. rewrite Hrun. simpl. destruct f1.
    + exists true, s1. split; [done|]. split; [done|]. exists (dr, dc). split; [left|done].
    + destruct Hpost1 as (Hpath1 & Hseen1 & Hclosed1).
      pose proof Hadv1 as (Hwf1 & Hsame1 & Hgrow1 & Hcount1).
      destruct (IH s1 Hwf1 ltac:(lia)) as (f2 & s2 & Hrun2 & Hadv2 & Hpost2).
      exists f2, s2. split; [done|]. split; [by eapply advances_trans|].
      destruct f2.
      * destruct Hpost2 as (d & Hd & q & Hq & Hstep & e & Hlast & He).
        exists d. split; [by right|]. exists q. rewrite <- Hpath1. split; [done|].
        split; [done|]. exists e. split; [done|]. destruct Hsame1 as (<- & _). done.
      * destruct Hpost2 as (Hpath2 & Hseen2 & Hclosed2). split; [congruence|]. split.
        -- intros d Hd Hpass. apply elem_of_cons in Hd as [->|Hd].
           ++ destruct Hadv2 as (_ & _ & Hgrow2 & _). auto.
           ++ apply Hseen2; [done|]. by apply (passable_same s s1).
        -- by eapply closed_new_trans.
Qed.
End Loop.

Lemma dfs_ok fuel : ∀ s row col,
  wf s → count_false (visited s) < fuel →
  ∃ found s', dfs fuel s row col = Ok (found, s') ∧ dfs_post s (row, col) found s'.
Proof.
  induction fuel as [|fuel IH]; intros s row col Hwf Hfuel; [lia|].
  cbn [dfs].
  destruct (solver_valid_move_spec s row col Hwf) as (ok & -> & Hok). simpl.
  destruct ok; simpl.
  - destruct Hok as [Hok _]. destruct (Hok eq_refl) as [Hpass Hns]. clear Hok.
    destruct (mark_cell s row col Hwf Hpass Hns) as (vis & -> & Hmark). simpl.
    specialize (Hmark (path s ++ [(row, col)])).
    set (s1 := {| maze := maze s; rows := rows s; cols := cols s; visited := vis;
                  directions := directions s; path := path s ++ [(row, col)] |}) in *.
    destruct Hmark as (Hwf1 & Hcount1 & Hseen1).
    assert (advances s s1) as Hadv1.
    { split; [done|]. split; [done|]. split; [|lia]. intros p Hp. apply Hseen1. by left. }
    destruct Hpass as [[Hr Hc] (ch & Hch & Hnw)]. simpl in Hr, Hc, Hch.
    destruct Hwf as (Hm & Hv & Hdirs).
    destruct (cell_get_dims _ _ _ row col Hm Hr Hc) as (ch' & -> & Hch'). simpl.
    assert (ch' = ch) as -> by congruence.
    assert (cell_at (maze s) (row, col) = Some ch) as Hcell.
    { unfold cell_at. simpl. by rewrite !bool_decide_eq_true_2 by lia. }
    case_bool_decide as HE.
    + exists true, s1. split; [done|]. split; [done|]. exists []. split; [done|].
      split; [done|]. exists (row, col). split; [done|]. unfold is_end. by rewrite Hcell, HE.
    + destruct (dfs_loop_ok fuel IH row col (directions s) s1 Hwf1 ltac:(lia))
        as (f2 & s2 & -> & Hadv2 & Hpost2). simpl.
      destruct f2.
      * exists true, s2. split; [done|]. split; [by eapply advances_trans|].
        destruct Hpost2 as (d & Hd & q & Hq & Hstep & e & Hlast & He).
        exists (((row + d.1)%Z, (col + d.2)%Z) :: q). subst s1. simpl in *. split.
        { by rewrite Hq, <- app_assoc. }
        split.
        { split; [|done]. apply (adjacent_direction (row, col)). by rewrite <- Hdirs. }
        exists e. split; done.
      * destruct Hpost2 as (Hpath2 & Hseen2 & Hclosed2).
        assert (path s2 = path s ++ [(row, col)]) as Hp2 by (by rewrite Hpath2).
        rewrite Hp2, removelast_last.
        assert (∀ X (a b : X), match path s ++ [(row, col)] with
                               | [] => a | _ :: _ => b end = b) as ->
          by (intros; by destruct (path s)).
        eexists false, _. split; [done|].
        pose proof Hadv2 as (Hwf2 & Hsame2 & Hgrow2 & Hcount2).
        split; [|split; [|split]].
        -- pose proof (advances_trans _ _ _ Hadv1 Hadv2) as (Hw & Hsm & Hg & Hcn).
           split; [exact Hw|]. split; [exact Hsm|]. split; [exact Hg|exact Hcn].
        -- done.
        -- intros _. unfold seen, in_bounds. simpl.
           apply (Hgrow2 (row, col)). apply Hseen1. by right.
        -- intros p Hp Hnp.
           assert (seen s2 p) as Hp' by exact Hp.
           destruct (decide (p = (row, col))) as [->|Hne].
           ++ split; [unfold is_end; rewrite Hcell; congruence|].
              intros q Hadj Hq. apply direction_adjacent in Hadj as (d & Hd' & ->).
              simpl. apply (Hseen2 d).
              ** by rewrite Hdirs.
              ** by apply (passable_same s s1).
           ++ destruct (Hclosed2 p Hp') as [He Hq].
              { intros Hs1. apply Hseen1 in Hs1 as [Hs|Heq]; [by apply Hnp|done]. }
              split; [done|]. intros q Hadj Hpq. apply (Hq q Hadj).
              by apply (passable_same s s1).
  - exists false, s. split; [done|]. split; [by apply advances_refl|].
    split; [done|]. split; [|apply closed_new_refl].
    intros Hpass. destruct (seen_dec s (row, col)) as [Hs|Hn]; [done|].
    destruct Hok as [_ Hok]. discriminate Hok. done.
Qed.

Lemma open_cell_passable s p :
  wf s → open_cell (maze s) p → passable s p.
Proof.
  intros (Hm & _ & _) (v & Hv & Hnw). unfold cell_at in Hv.
  destruct (bool_decide (0 ≤ p.1)%Z && bool_decide (0 ≤ p.2)%Z) eqn:Hb; [|done].
  apply andb_true_iff in Hb as [H1%bool_decide_eq_true H2%bool_decide_eq_true].
  destruct (at_pos_dims _ _ _ _ _ _ Hm Hv) as [Hr Hc].
  split; [split; lia|eauto].
Qed.

Lemma reachable_start m p q : reachable m p q → open_cell m p.
Proof. induction 1; auto. Qed.

Lemma blank_not_seen s p : blank s → ¬ seen s p.
Proof.
  intros [_ Hall] [_ Hat]. unfold at_pos in Hat.
  destruct (visited s !! Z.to_nat p.1) as [row|] eqn:Hrow; [|done]. simpl in Hat.
  pose proof (Forall_lookup_1 _ _ _ _ Hall Hrow) as Hr.
  pose proof (Forall_lookup_1 _ _ _ _ Hr Hat). done.
Qed.

Lemma init_count m s :
  init m = Ok s → count_false (visited s) = length m * length (default [] (head m)).
Proof.
  unfold init. destruct m as [|row0 m]; [done|]. intros [= <-].
  exact (count_false_replicate (S (length m)) (length row0)).
Qed.

(** C6.  In a rectangular maze where an 'E' cell is reachable from the
    start through non-wall cells, [solve] on a fresh solver returns a path
    that begins at the start, ends on an 'E' cell (on [e] when it is the only
    one) and advances by one cardinal step at a time. *)
Theorem solve_finds_path fuel m s start e :
  init m = Ok s → rectangular m →
  reachable m start e → cell_at m e = Some "E"%char →
  length m * length (default [] (head m)) < fuel →
  ∃ p s', solve fuel s start.1 start.2 = Ok (Some p, s')
    ∧ head p = Some start
    ∧ stepwise p
    ∧ (∃ e', last p = Some e' ∧ cell_at m e' = Some "E"%char)
    ∧ ((∀ x, cell_at m x = Some "E"%char → x = e) → last p = Some e).
Proof.
  intros Hinit Hrect Hreach HE Hfuel.
  destruct (init_wf m s Hinit Hrect) as (Hwf & Hm & Hblank).
  pose proof (init_count m s Hinit) as Hcount.
  assert (passable s start) as Hstart.
  { apply open_cell_passable; [done|]. rewrite Hm. by eapply reachable_start. }
  unfold solve. destruct start as [sr sc]. simpl.
  destruct (solver_valid_move_spec s sr sc Hwf) as (ok & -> & Hok). simpl.
  assert (ok = true) as ->.
  { apply Hok. split; [done|]. by apply blank_not_seen. }
  simpl.
  destruct (dfs_ok fuel s sr sc Hwf ltac:(lia)) as (found & s' & -> & Hadv & Hpost).
  simpl. destruct found.
  - destruct Hpost as (q & Hq & Hstep & e' & Hlast & He').
    destruct Hblank as [Hpath _]. rewrite Hpath in Hq. simpl in Hq.
    exists (path s'), s'. split; [done|]. rewrite Hq. split; [done|]. split; [done|].
    rewrite Hm in He'. split; [by exists e'|].
    intros Huniq. by rewrite Hlast, (Huniq e' He').
  - exfalso. destruct Hpost as (_ & Hseen & Hclosed).
    assert (∀ x, reachable m (sr, sc) x → seen s' x) as Hall.
    { induction 1 as [|x y Hxy IH Hadj Hy]; [by apply Hseen|].
      destruct (Hclosed x IH) as [_ Hq]; [by apply blank_not_seen|].
      apply (Hq y Hadj). apply open_cell_passable; [done|]. by rewrite Hm. }
    destruct (Hclosed e (Hall e Hreach)) as [Hne _]; [by apply blank_not_seen|].
    apply Hne. unfold is_end. by rewrite Hm.
Qed.
Lemma maze3_reachable : reachable maze3 (0, 0)%Z (2, 2)%Z.
Proof.
  assert (∀ p v, cell_at maze3 p = Some v → v ≠ wall → open_cell maze3 p) as Hopen
    by (intros p v Hv Hw; by exists v).
  apply (reach_step _ _ (2, 1)%Z); [|reflexivity|by apply (Hopen _ "E"%char)].
  apply (reach_step _ _ (1, 1)%Z); [|reflexivity|by apply (Hopen _ " "%char)].
  apply (reach_step _ _ (0, 1)%Z); [|reflexivity|by apply (Hopen _ " "%char)].
  apply (reach_step _ _ (0, 0)%Z); [|reflexivity|by apply (Hopen _ " "%char)].
  apply reach_here. by apply (Hopen _ "S"%char).
Qed.

Lemma solve_finds_path_witness :
  init maze3 = Ok solver3 ∧ rectangular maze3
  ∧ reachable maze3 (0, 0)%Z (2, 2)%Z ∧ cell_at maze3 (2, 2)%Z = Some "E"%char
  ∧ length maze3 * length (default [] (head maze3)) < 10
  ∧ ∃ p s', solve 10 solver3 0 0 = Ok (Some p, s')
      ∧ head p = Some (0, 0)%Z
      ∧ stepwise p
      ∧ (∃ e', last p = Some e' ∧ cell_at maze3 e' = Some "E"%char)
      ∧ ((∀ x, cell_at maze3 x = Some "E"%char → x = (2, 2)%Z) → last p = Some (2, 2)%Z).
Proof.
  assert (rectangular maze3) as Hrect by (repeat constructor).
  assert (length maze3 * length (default [] (head maze3)) < 10) as Hfuel by (vm_compute; lia).
  split; [reflexivity|]. split; [exact Hrect|]. split; [exact maze3_reachable|].
  split; [reflexivity|]. split; [exact Hfuel|].
  exact (solve_finds_path 10 maze3 solver3 (0, 0)%Z (2, 2)%Z eq_refl Hrect
           maze3_reachable eq_refl Hfuel).
Defined.

Example solve_maze3 :
  path_of (solve 10 solver3 0 0) = Some [(0, 0); (0, 1); (1, 1); (2, 1); (2, 2)]%Z.
Proof. vm_compute. reflexivity. Qed.
End MazeSolverFacts.

Module WordLadderFacts.
Import WordLadderGame.

(** ** Neighbours *)

Lemma mem_true w ws : mem w ws = true ↔ w ∈ ws.
Proof. unfold mem. apply bool_decide_eq_true. Qed.

Lemma mem_false w ws : mem w ws = false ↔ w ∉ ws.
Proof. unfold mem. apply bool_decide_eq_false. Qed.

Lemma get_neighbors_spec ws (w x : Word) :
  x ∈ get_neighbors ws w ↔
  ∃ i ch, i < length w ∧ ch ∈ alphabet ∧ x = <[i := ch]> w ∧ x ≠ w ∧ x ∈ ws.
Proof.
  unfold get_neighbors. rewrite list_elem_of_bind. split.
  - intros (i & Hx & Hi%elem_of_seq). apply list_elem_of_bind in Hx as (ch & Hx & Hch).
    destruct (bool_decide _ && mem _ ws) eqn:Hb; [|inversion Hx].
    apply list_elem_of_singleton in Hx as ->.
    apply andb_true_iff in Hb as [Hne%bool_decide_eq_true Hin%mem_true].
    exists i, ch. rewrite insert_take_drop by lia. repeat split; [lia|done..].
  - intros (i & ch & Hi & Hch & -> & Hne & Hin). exists i. split; [|apply elem_of_seq; lia].
    apply list_elem_of_bind. exists ch. split; [|done].
    rewrite <- insert_take_drop by lia.
    rewrite (proj2 (andb_true_iff _ _)); [left|].
    split; [by apply bool_decide_eq_true|by apply mem_true].
Qed.

Lemma insert_differ (w : Word) i ch :
  i < length w → <[i := ch]> w ≠ w → differ_in_one w (<[i := ch]> w).
Proof.
  intros Hi Hne. split; [by rewrite length_insert|]. exists i. split; [done|]. split.
  - rewrite list_lookup_insert_eq by done. intros Hw. apply Hne. by apply list_insert_id.
  - intros j Hj. by rewrite list_lookup_insert_ne.
Qed.

Lemma neighbor_differs ws (w x : Word) :
  x ∈ get_neighbors ws w → x ∈ ws ∧ differ_in_one w x.
Proof.
  intros (i & ch & Hi & _ & -> & Hne & Hin)%get_neighbors_spec.
  split; [done|]. by apply insert_differ.
Qed.

Lemma differ_neighbor ws (w x : Word) :
  lowercase ws → x ∈ ws → differ_in_one w x → x ∈ get_neighbors ws w.
Proof.
  intros Hlow Hin (Hlen & i & Hi & Hdiff & Hsame). apply get_neighbors_spec.
  destruct (lookup_lt_is_Some_2 x i) as [ch Hch]; [lia|].
  exists i, ch. split; [done|]. split.
  - unfold lowercase in Hlow. rewrite Forall_forall in Hlow.
    specialize (Hlow x Hin). rewrite Forall_forall in Hlow. apply Hlow.
    eapply list_elem_of_lookup_2; eauto.
  - assert (x = <[i := ch]> w) as Hx.
    { apply list_eq. intros j. destruct (decide (j = i)) as [->|Hj].
      - by rewrite list_lookup_insert_eq.
      - rewrite list_lookup_insert_ne by done. symmetry. by apply Hsame. }
    split; [done|]. split; [|done]. intros ->. done.
Qed.

(** ** The neighbour loop *)

Lemma enqueue_spec ns (path : list Word) : ∀ q v q' v',
  enqueue ns path q v = (q', v') →
  ∃ new, q' = q ++ ((λ n, (n, path ++ [n])) <$> new)
         ∧ (∀ x, x ∈ v' ↔ x ∈ new ∨ x ∈ v)
         ∧ (∀ x, x ∈ new ↔ x ∈ ns ∧ x ∉ v).
Proof.
  induction ns as [|n ns IH]; intros q v q' v' H; simpl in H.
  - injection H as <- <-. exists []. simpl. rewrite app_nil_r. split; [done|].
    split; intros x; rewrite ?elem_of_nil; tauto.
  - destruct (mem n v) eqn:Hn.
    + apply mem_true in Hn. destruct (IH _ _ _ _ H) as (new & Hq & Hv & Hnew).
      exists new. split; [done|]. split; [done|]. intros x. rewrite Hnew, elem_of_cons.
      split; [tauto|]. intros [[->|Hx] Hnv]; tauto.
    + apply mem_false in Hn. destruct (IH _ _ _ _ H) as (new & Hq & Hv & Hnew).
      exists (n :: new). split; [by rewrite Hq, <- app_assoc|]. split.
      * intros x. rewrite Hv, !elem_of_cons. tauto.
      * intros x. rewrite !elem_of_cons, Hnew, elem_of_cons. split.
        -- intros [->|[Hx Hnx]]; [tauto|]. split; [tauto|]. tauto.
        -- intros [[->|Hx] Hnv]; [tauto|]. destruct (decide (x = n)) as [->|Hne]; tauto.
Qed.

(** ** Returned paths are ladders *)

Lemma ladder_steps_snoc (p : list Word) w n :
  ladder_steps p → last p = Some w → differ_in_one w n → ladder_steps (p ++ [n]).
Proof.
  induction p as [|a p IH]; [done|]. intros Hp Hlast Hd.
  destruct p as [|b p].
  - simpl in *. injection Hlast as ->. done.
  - destruct Hp as [Hab Hp]. split; [done|]. apply IH; [done| |done].
    by rewrite last_cons_cons in Hlast.
Qed.

Lemma good_path_snoc ws s (p : list Word) w n :
  good_path ws s p → last p = Some w → n ∈ ws → differ_in_one w n → n ∉ p →
  good_path ws s (p ++ [n]).
Proof.
  intros (Hhead & Hin & Hsteps & Hnd) Hlast Hn Hd Hnp. repeat split.
  - destruct p; [done|]. done.
  - apply Forall_app. split; [done|]. by constructor.
  - by eapply ladder_steps_snoc.
  - apply NoDup_app. split; [done|]. split; [|apply NoDup_singleton].
    intros x Hx Hx'. apply list_elem_of_singleton in Hx' as ->. done.
Qed.

Lemma frontier_step ws s w p rest v q' v' :
  frontier_ok ws s ((w, p) :: rest) v →
  enqueue (get_neighbors ws w) p rest v = (q', v') →
  frontier_ok ws s q' v'.
Proof.
  intros Hok Henq. apply Forall_cons in Hok as [(Hgood & Hlast & Hsub) Hrest].
  simpl in Hgood, Hlast, Hsub.
  destruct (enqueue_spec _ _ _ _ _ _ Henq) as (new & -> & Hv & Hnew).
  apply Forall_app. split.
  - eapply Forall_impl; [exact Hrest|]. intros [w0 p0] (Hg & Hl & Hs). simpl in *.
    split; [done|]. split; [done|]. intros x Hx. apply Hv. right. auto.
  - apply Forall_fmap, Forall_forall. intros n Hn. simpl.
    pose proof (proj1 (Hnew n) Hn) as [Hnb Hnv].
    apply neighbor_differs in Hnb as [Hnws Hd].
    split; [|split].
    + eapply good_path_snoc; eauto.
    + by rewrite last_snoc.
    + intros x [Hx|Hx]%elem_of_app; apply Hv; [right; auto|].
      apply list_elem_of_singleton in Hx as ->. by left.
Qed.

Lemma bfs_good ws s e fuel : ∀ q v P,
  frontier_ok ws s q v →
  bfs fuel ws e q v = Ok (Some P) →
  good_path ws s P ∧ last P = Some e.
Proof.
  induction fuel as [|fuel IH]; intros q v P Hok H; [done|]. simpl in H.
  destruct q as [|[w p] rest]; [done|]. case_bool_decide as Hw.
  - injection H as <-. apply Forall_cons in Hok as [(Hgood & Hlast & _) _].
    simpl in *. by subst.
  - destruct (enqueue _ _ _ _) as [q' v'] eqn:Henq.
    eapply IH; [|exact H]. by eapply frontier_step.
Qed.

(** C10.  A path returned by [find_shortest_path] starts at the start
    word, ends at the end word, holds dictionary words only, changes
    exactly one position between consecutive words and repeats no word. *)
Theorem find_shortest_path_is_ladder fuel ws s e P :
  find_shortest_path fuel ws s e = Ok (Some P) →
  transformation_path ws s e P ∧ NoDup P.
Proof.
  unfold find_shortest_path.
  destruct (mem s ws) eqn:Hs; [|done]. destruct (mem e ws) eqn:He; [|done]. simpl.
  apply mem_true in Hs. intros H. apply (bfs_good ws s) in H as [(Hh & Hin & Hst & Hnd) Hl].
  - done.
  - constructor; [|constructor]. simpl. split; [|split; [done|]].
    + split; [done|]. split; [by constructor|]. split; [done|apply NoDup_singleton].
    + intros x Hx. done.
Qed.

Lemma find_shortest_path_is_ladder_witness :
  find_shortest_path 6 ladder_words (word "aa") (word "bb")
  = Ok (Some (word <$> ["aa"; "ab"; "bb"]%string))
  ∧ transformation_path ladder_words (word "aa") (word "bb")
      (word <$> ["aa"; "ab"; "bb"]%string)
  ∧ NoDup (word <$> ["aa"; "ab"; "bb"]%string).
Proof.
  split; [reflexivity|].
  exact (find_shortest_path_is_ladder 6 ladder_words (word "aa") (word "bb")
           (word <$> ["aa"; "ab"; "bb"]%string) eq_refl).
Defined.

(** ** Shortest paths *)

Lemma walk_pos ws s x n : walk ws s x n → 1 ≤ n.
Proof. induction 1; lia. Qed.

Lemma level_shift ws s L q v :
  level_inv ws s L q v → Forall (λ e, length e.2 = S L) q →
  level_inv ws s (S L) q v.
Proof.
  intros (_ & Hs & Hclosed & Hnear & Hshort) Hall. split; [|split; [done|split; [done|split; [|done]]]].
  - exists q, []. rewrite app_nil_r. split; [done|]. split; [done|constructor].
  - intros x n Hwalk Hn. destruct (decide (n ≤ L)) as [Hle|Hgt]; [by eapply Hnear|].
    assert (n = S L) as -> by lia. inversion Hwalk as [|y x' n' Hy Hedge]; subst; [done|].
    apply (Hclosed y); [by eapply Hnear| |done].
    intros ([w p] & -> & Hin)%list_elem_of_fmap. simpl in *.
    rewrite Forall_forall in Hall. pose proof (Hall _ Hin) as Hlen.
    pose proof (Hshort _ Hin _ Hy) as Hle. simpl in *. lia.
Qed.

Lemma level_step ws s L w p rest v q' v' :
  level_inv ws s L ((w, p) :: rest) v →
  enqueue (get_neighbors ws w) p rest v = (q', v') →
  ∃ L', level_inv ws s L' q' v'.
Proof.
  intros Hinv Henq.
  assert (∃ L0 A B, level_inv ws s L0 ((w, p) :: rest) v
                    ∧ rest = A ++ B ∧ length p = L0
                    ∧ Forall (λ e, length e.2 = L0) A
                    ∧ Forall (λ e, length e.2 = S L0) B) as (L0 & A & B & Hinv0 & -> & Hp & HA & HB).
  { pose proof Hinv as ((A & B & Hq & HA & HB) & _).
    destruct A as [|a A].
    - simpl in Hq. subst B. exists (S L), rest, [].
      apply Forall_cons in HB as HB'. destruct HB' as [Hp Hrest]. simpl in Hp.
      split; [by apply level_shift|]. rewrite app_nil_r. split; [done|].
      split; [done|]. split; [done|constructor].
    - injection Hq as <- ->. apply Forall_cons in HA as [Hp HA]. simpl in Hp.
      exists L, A, B. done. }
  clear Hinv L. destruct Hinv0 as (_ & Hs & Hclosed & Hnear & Hshort).
  destruct (enqueue_spec _ _ _ _ _ _ Henq) as (new & -> & Hv & Hnew).
  exists L0. split; [|split; [|split; [|split]]].
  - exists A, (B ++ ((λ n, (n, p ++ [n])) <$> new)). split; [by rewrite app_assoc|].
    split; [done|]. apply Forall_app. split; [done|].
    apply Forall_fmap, Forall_forall. intros n _. simpl. rewrite length_app. simpl. lia.
  - apply Hv. by right.
  - intros x Hx Hnq y Hy. apply Hv. apply Hv in Hx as [Hx|Hx].
    + exfalso. apply Hnq. rewrite fmap_app, elem_of_app. right.
      rewrite <- list_fmap_compose. apply list_elem_of_fmap. by exists x.
    + destruct (decide (x = w)) as [->|Hne].
      * destruct (decide (y ∈ v)) as [Hyv|Hyv]; [by right|]. left. by apply Hnew.
      * right. apply (Hclosed x); [done| |done]. intros Hin. apply Hnq.
        rewrite fmap_app, elem_of_app. left.
        rewrite fmap_cons in Hin. apply elem_of_cons in Hin as [Heq|Hin]; done.
  - intros x n Hw Hn. apply Hv. right. by eapply Hnear.
  - intros e [He|He]%elem_of_app n Hw.
    + apply (Hshort e); [|done]. by apply list_elem_of_further.
    + apply list_elem_of_fmap in He as (y & -> & Hy). simpl in *.
      apply Hnew in Hy as [_ Hyv]. rewrite length_app. simpl.
      destruct (decide (n ≤ length p)) as [Hle|Hgt]; [|lia].
      exfalso. apply Hyv. apply (Hnear y n); [done|lia].
Qed.

Lemma bfs_shortest ws s e fuel : ∀ q v P,
  (∃ L, level_inv ws s L q v) →
  bfs fuel ws e q v = Ok (Some P) →
  ∀ n, walk ws s e n → length P ≤ n.
Proof.
  induction fuel as [|fuel IH]; intros q v P [L Hinv] H; [done|]. simpl in H.
  destruct q as [|[w p] rest]; [done|]. case_bool_decide as Hw.
  - injection H as <-. subst w. destruct Hinv as (_ & _ & _ & _ & Hshort).
    intros n Hn. apply (Hshort (e, p)); [left|done].
  - destruct (enqueue _ _ _ _) as [q' v'] eqn:Henq.
    eapply IH; [|exact H]. by eapply level_step.
Qed.

Lemma level_inv_init ws s : level_inv ws s 1 [(s, [s])] [s].
Proof.
  split; [|split; [|split; [|split]]].
  - exists [(s, [s])], []. split; [done|]. split; repeat constructor.
  - left.
  - intros x ->%list_elem_of_singleton Hn. destruct Hn. left.
  - intros x n Hw Hn. pose proof (walk_pos _ _ _ _ Hw). assert (n = 1) as -> by lia.
    inversion Hw as [|y x' n' Hy Hedge]; subst; [left|].
    apply walk_pos in Hy. lia.
  - intros e ->%list_elem_of_singleton n Hw. apply walk_pos in Hw. simpl. lia.
Qed.

Lemma ladder_walk ws s : lowercase ws → ∀ (Q : list Word) x n e,
  walk ws s x n → Forall (λ w, w ∈ ws) Q → ladder_steps (x :: Q) →
  last (x :: Q) = Some e → walk ws s e (n + length Q).
Proof.
  intros Hlow. induction Q as [|y Q IH]; intros x n e Hw Hin Hsteps Hlast.
  - simpl in Hlast. injection Hlast as <-. by rewrite Nat.add_0_r.
  - apply Forall_cons in Hin as [Hy Hin]. destruct Hsteps as [Hd Hsteps].
    rewrite last_cons_cons in Hlast.
    replace (n + length (y :: Q)) with (S n + length Q) by (simpl; lia).
    apply (IH y); [|done..]. eapply walk_step; [done|]. by apply differ_neighbor.
Qed.

(** C8.  On a dictionary of lowercase words, a path returned by
    [find_shortest_path] is no longer than any transformation path between
    the same two words. *)
Theorem find_shortest_path_shortest fuel ws s e P Q :
  lowercase ws →
  find_shortest_path fuel ws s e = Ok (Some P) →
  transformation_path ws s e Q →
  length P ≤ length Q.
Proof.
  intros Hlow HP (Hhead & Hlast & Hin & Hsteps).
  unfold find_shortest_path in HP.
  destruct (mem s ws) eqn:Hs; [|done]. destruct (mem e ws) eqn:He; [|done]. simpl in HP.
  destruct Q as [|x Q]; [done|]. simpl in Hhead. injection Hhead as ->.
  apply Forall_cons in Hin as [_ Hin].
  eapply (bfs_shortest ws s e); [|exact HP|].
  - exists 1. apply level_inv_init.
  - change (length (s :: Q)) with (1 + length Q).
    eapply ladder_walk; [done|constructor|done..].
Qed.

Lemma differ_at (w w' : Word) i :
  length w = length w' → i < length w → w !! i ≠ w' !! i →
  <[i := default "a"%char (w !! i)]> w' = w → differ_in_one w w'.
Proof.
  intros Hlen Hi Hne Heq. split; [done|]. exists i. split; [done|]. split; [done|].
  intros j Hj. rewrite <- Heq at 1. by rewrite list_lookup_insert_ne.
Qed.

Lemma ladder_words_detour :
  transformation_path ladder_words (word "aa") (word "bb")
    (word <$> ["aa"; "ca"; "cb"; "bb"]%string).
Proof.
  split; [reflexivity|]. split; [reflexivity|]. split.
  - apply (bool_decide_unpack _). vm_compute. exact I.
  - repeat split.
    + apply (differ_at _ _ 0); [reflexivity|simpl; lia|discriminate|reflexivity].
    + apply (differ_at _ _ 1); [reflexivity|simpl; lia|discriminate|reflexivity].
    + apply (differ_at _ _ 0); [reflexivity|simpl; lia|discriminate|reflexivity].
Qed.

Lemma ladder_words_lowercase : lowercase ladder_words.
Proof. apply (bool_decide_unpack _). vm_compute. exact I. Qed.

Lemma find_shortest_path_shortest_witness :
  lowercase ladder_words
  ∧ find_shortest_path 6 ladder_words (word "aa") (word "bb")
    = Ok (Some (word <$> ["aa"; "ab"; "bb"]%string))
  ∧ transformation_path ladder_words (word "aa") (word "bb")
      (word <$> ["aa"; "ca"; "cb"; "bb"]%string)
  ∧ length (word <$> ["aa"; "ab"; "bb"]%string)
    ≤ length (word <$> ["aa"; "ca"; "cb"; "bb"]%string).
Proof.
  split; [exact ladder_words_lowercase|]. split; [reflexivity|].
  split; [exact ladder_words_detour|].
  exact (find_shortest_path_shortest 6 ladder_words (word "aa") (word "bb") _ _
           ladder_words_lowercase eq_refl ladder_words_detour).
Defined.

(** On a dictionary with capital letters the search only moves to words
    obtained by writing a lowercase letter: it returns five words where a
    chain of four exists. *)
Remark mixed_case_detour :
  find_shortest_path 8 mixed_words (word "aa") (word "bb")
  = Ok (Some (word <$> ["aa"; "ca"; "cc"; "bc"; "bb"]%string))
  ∧ transformation_path mixed_words (word "aa") (word "bb")
      (word <$> ["aa"; "Aa"; "Ab"; "bb"]%string).
Proof.
  split; [reflexivity|].
  split; [reflexivity|]. split; [reflexivity|]. split.
  - apply (bool_decide_unpack _). vm_compute. exact I.
  - repeat split.
    + apply (differ_at _ _ 0); [reflexivity|simpl; lia|discriminate|reflexivity].
    + apply (differ_at _ _ 1); [reflexivity|simpl; lia|discriminate|reflexivity].
    + apply (differ_at _ _ 0); [reflexivity|simpl; lia|discriminate|reflexivity].
Qed.

(** ** The search returns *)

Lemma filter_unvisited_le (ws : list Word) n v :
  length (filter (λ w, w ∉ n :: v) ws) ≤ length (filter (λ w, w ∉ v) ws).
Proof.
  induction ws as [|a ws IH]; [done|].
  destruct (decide (a ∉ n :: v)) as [Ha|Ha].
  - rewrite filter_cons_True by done.
    rewrite filter_cons_True by (intros H; apply Ha; by right). simpl. lia.
  - rewrite filter_cons_False by done.
    destruct (decide (a ∉ v)).
    + rewrite filter_cons_True by done. simpl. lia.
    + by rewrite filter_cons_False by done.
Qed.

Lemma filter_unvisited_lt (ws : list Word) n v :
  n ∈ ws → n ∉ v →
  length (filter (λ w, w ∉ n :: v) ws) < length (filter (λ w, w ∉ v) ws).
Proof.
  intros Hin Hnv. induction ws as [|a ws IH]; [inversion Hin|].
  destruct (decide (a = n)) as [->|Hne].
  - rewrite filter_cons_False by (intros H; apply H; left).
    rewrite filter_cons_True by done. simpl.
    pose proof (filter_unvisited_le ws n v). lia.
  - apply elem_of_cons in Hin as [->|Hin]; [done|]. specialize (IH Hin).
    destruct (decide (a ∉ v)) as [Ha|Ha].
    + rewrite filter_cons_True by (intros [?|?]%elem_of_cons; done).
      rewrite filter_cons_True by done. simpl. lia.
    + rewrite filter_cons_False by (intros H; apply Ha; intros Hv; apply H; by right).
      by rewrite filter_cons_False by done.
Qed.

Lemma enqueue_measure ws ns (path : list Word) : ∀ q v q' v',
  (∀ n, n ∈ ns → n ∈ ws) →
  enqueue ns path q v = (q', v') → measure ws q' v' ≤ measure ws q v.
Proof.
  induction ns as [|n ns IH]; intros q v q' v' Hns H; simpl in H.
  - by injection H as <- <-.
  - destruct (mem n v) eqn:Hn.
    + eapply IH; [|done]. intros x Hx. apply Hns. by right.
    + apply mem_false in Hn. apply IH in H; [|intros x Hx; apply Hns; by right].
      unfold measure in *. rewrite length_app in H. simpl in H.
      pose proof (filter_unvisited_lt ws n v (Hns n ltac:(left)) Hn). lia.
Qed.

Lemma bfs_total ws e fuel : ∀ q v,
  measure ws q v < fuel → ∃ r, bfs fuel ws e q v = Ok r.
Proof.
  induction fuel as [|fuel IH]; intros q v Hm; [lia|]. simpl.
  destruct q as [|[w p] rest]; [eauto|]. case_bool_decide; [eauto|].
  destruct (enqueue _ _ _ _) as [q' v'] eqn:Henq. apply IH.
  apply enqueue_measure with (ws := ws) in Henq.
  - unfold measure in *. simpl in Hm. lia.
  - intros n Hn. by apply neighbor_differs in Hn as [Hn _].
Qed.

(** With more fuel than dictionary entries [find_shortest_path] returns. *)
Lemma find_shortest_path_total fuel ws s e :
  length ws < fuel → ∃ r, find_shortest_path fuel ws s e = Ok r.
Proof.
  intros Hfuel. unfold find_shortest_path.
  destruct (mem s ws) eqn:Hs; [|simpl; eauto]. destruct (mem e ws); [|simpl; eauto].
  simpl. apply bfs_total. unfold measure. simpl. apply mem_true in Hs.
  pose proof (filter_unvisited_lt ws s [] Hs ltac:(inversion 1)).
  pose proof (length_filter (λ w, w ∉ ([] : list Word)) ws). lia.
Qed.

End WordLadderFacts.

(** * Further properties: the Sudoku search *)

Module SudokuSearchFacts.
Import Sudoku SudokuFacts SudokuSearch.

Lemma board_set_cell size (b : Board) r c v :
  is_grid size b → r < size → c < size →
  ∃ b', board_set b r c v = Ok b' ∧ is_grid size b'
        ∧ (∀ r' c', cell b' r' c' = if decide ((r', c') = (r, c)) then v else cell b r' c')
        ∧ ∃ row, b !! r = Some row ∧ b' = <[r := <[c := v]> row]> b.
Proof.
  intros [Hlen Hrows] Hr Hc. unfold board_set.
  destruct (lookup_lt_is_Some_2 b r) as [row Hrow]; [lia|]. rewrite Hrow.
  pose proof (Forall_lookup_1 _ _ _ _ Hrows Hrow) as Hl. simpl in Hl.
  rewrite decide_True by lia. eexists. split; [done|]. split; [|split; [|eauto]].
  - split; [by rewrite length_insert|]. apply Forall_insert; [done|].
    by rewrite length_insert.
  - intros r' c'. unfold cell.
    fold (MazeGrid.at_pos (<[r:=<[c:=v]> row]> b) r' c').
    rewrite (MazeGridFacts.at_pos_insert _ _ _ _ _ _ _ Hrow).
    destruct (decide ((r', c') = (r, c))) as [[= -> ->]|Hne].
    + by rewrite decide_True by (split; [done|split; [done|lia]]).
    + rewrite decide_False; [done|]. intros (-> & -> & _). done.
Qed.

(** ** The first empty cell *)

Lemma find_zero_in_row_spec size (b : Board) i n :
  is_grid size b → i < size → n ≤ size →
  (find_zero_in_row b i (seq 0 n) = Ok None ∧ ∀ j, j < n → cell b i j ≠ 0%Z)
  ∨ ∃ j, find_zero_in_row b i (seq 0 n) = Ok (Some j) ∧ j < n
         ∧ cell b i j = 0%Z ∧ ∀ j', j' < j → cell b i j' ≠ 0%Z.
Proof.
  intros Hg Hi Hn.
  assert (∀ k s, s + k ≤ size →
    (find_zero_in_row b i (seq s k) = Ok None ∧ ∀ j, s ≤ j < s + k → cell b i j ≠ 0%Z)
    ∨ ∃ j, find_zero_in_row b i (seq s k) = Ok (Some j) ∧ s ≤ j < s + k
           ∧ cell b i j = 0%Z ∧ ∀ j', s ≤ j' < j → cell b i j' ≠ 0%Z) as Hgen.
  { induction k as [|k IH]; intros s Hs.
    - left. split; [done|]. intros j Hj. lia.
    - simpl. rewrite (board_get_cell size b i s) by (done || lia). simpl.
      destruct (Z.eqb_spec (cell b i s) 0) as [Hz|Hnz].
      + right. exists s. split; [done|]. split; [lia|]. split; [done|]. intros j' Hj'. lia.
      + destruct (IH (S s) ltac:(lia)) as [[Hrun Hall]|(j & Hrun & Hj & Hz & Hpre)].
        * left. split; [done|]. intros j Hj.
          destruct (decide (j = s)) as [->|]; [done|]. apply Hall. lia.
        * right. exists j. split; [done|]. split; [lia|]. split; [done|].
          intros j' Hj'. destruct (decide (j' = s)) as [->|]; [done|]. apply Hpre. lia. }
  destruct (Hgen n 0 ltac:(lia)) as [[Hrun Hall]|(j & Hrun & Hj & Hz & Hpre)].
  - left. split; [done|]. intros j Hj. apply Hall. lia.
  - right. exists j. split; [done|]. split; [lia|]. split; [done|].
    intros j' Hj'. apply Hpre. lia.
Qed.

Lemma find_zero_spec size (b : Board) :
  is_grid size b →
  (find_zero b size (seq 0 size) = Ok None ∧ no_empty size b)
  ∨ ∃ i j, find_zero b size (seq 0 size) = Ok (Some (i, j)) ∧ i < size ∧ j < size
           ∧ cell b i j = 0%Z
           ∧ ∀ r c, r < size → c < size → before r c i j → cell b r c ≠ 0%Z.
Proof.
  intros Hg.
  assert (∀ k s, s + k ≤ size →
    (find_zero b size (seq s k) = Ok None
     ∧ ∀ r c, s ≤ r < s + k → c < size → cell b r c ≠ 0%Z)
    ∨ ∃ i j, find_zero b size (seq s k) = Ok (Some (i, j)) ∧ s ≤ i < s + k ∧ j < size
             ∧ cell b i j = 0%Z
             ∧ ∀ r c, s ≤ r → c < size → before r c i j → cell b r c ≠ 0%Z) as Hgen.
  { induction k as [|k IH]; intros s Hs.
    - left. split; [done|]. intros r c Hr. lia.
    - simpl.
      destruct (find_zero_in_row_spec size b s size Hg ltac:(lia) ltac:(lia))
        as [[-> Hall]|(j & -> & Hj & Hz & Hpre)]; simpl.
      + destruct (IH (S s) ltac:(lia)) as [[Hrun Hrest]|(i & j & Hrun & Hi & Hj & Hz & Hpre)].
        * left. split; [done|]. intros r c Hr Hc.
          destruct (decide (r = s)) as [->|]; [by apply Hall|]. apply Hrest; [lia|done].
        * right. exists i, j. split; [done|]. split; [lia|]. split; [done|]. split; [done|].
          intros r c Hr Hc Hb. destruct (decide (r = s)) as [->|]; [by apply Hall|].
          apply Hpre; [lia|done..].
      + right. exists s, j. split; [done|]. split; [lia|]. split; [done|]. split; [done|].
        intros r c Hr Hc [Hlt|[-> Hlt]]; [lia|]. by apply Hpre. }
  destruct (Hgen size 0 ltac:(lia)) as [[Hrun Hall]|(i & j & Hrun & Hi & Hj & Hz & Hpre)].
  - left. split; [done|]. intros r c Hr Hc. apply Hall; [lia|done].
  - right. exists i, j. split; [done|]. split; [lia|]. split; [done|]. split; [done|].
    intros r c Hr Hc. apply Hpre; [lia|done].
Qed.

(** ** Peers *)

Lemma box_origin_div bs x y :
  0 < bs → (box_origin bs x ≤ y < box_origin bs x + bs ↔ y `div` bs = x `div` bs).
Proof.
  intros Hbs. unfold box_origin.
  pose proof (Nat.div_mod x bs ltac:(lia)) as Hx.
  pose proof (Nat.mod_upper_bound x bs ltac:(lia)) as Hxm.
  pose proof (Nat.div_mod y bs ltac:(lia)) as Hy.
  pose proof (Nat.mod_upper_bound y bs ltac:(lia)) as Hym.
  replace (x - x `mod` bs) with (bs * (x `div` bs)) by lia. split.
  - intros H. apply Nat.le_antisymm.
    + apply Nat.lt_succ_r. apply (Nat.mul_lt_mono_pos_l bs); nia.
    + apply Nat.lt_succ_r. apply (Nat.mul_lt_mono_pos_l bs); nia.
  - intros Heq. rewrite <- Heq. nia.
Qed.

Lemma peer_sym bs r c r' c' : 0 < bs → peer bs r c r' c' → peer bs r' c' r c.
Proof.
  intros Hbs [->|[->|[Hr Hc]]]; [by left|by right; left|].
  right; right. apply box_origin_div in Hr, Hc; [|done..].
  split; apply box_origin_div; done.
Qed.

Lemma valid_move_peers size (b : Board) row col num :
  is_grid size b → box_size size * box_size size = size →
  row < size → col < size →
  ∃ ok, is_valid_move size b row col num = Ok ok
        ∧ (ok = true ↔
           ∀ r c, r < size → c < size → peer (box_size size) row col r c →
                  cell b r c ≠ num).
Proof.
  intros Hg Hsq Hrow Hcol. unfold is_valid_move.
  set (bs := box_size size) in *.
  assert (0 < bs) as Hbs by (destruct bs; simpl in *; lia).
  destruct (scan_row_col_spec size b row col num Hg Hrow Hcol (seq 0 size))
    as (ok1 & Hok1 & H1); [apply Forall_seq; intros; lia|].
  pose proof (box_origin_fits bs row Hbs ltac:(lia)) as Hfr.
  pose proof (box_origin_fits bs col Hbs ltac:(lia)) as Hfc.
  fold (box_origin bs row). fold (box_origin bs col).
  destruct (scan_box_spec size b row col num Hg Hrow Hcol
              (box_origin bs row) (box_origin bs col) bs (seq 0 bs))
    as (ok2 & Hok2 & H2); [apply Forall_seq; intros; lia|lia|].
  rewrite Hok1. simpl. destruct ok1; simpl.
  - rewrite decide_False by lia. rewrite Hok2. exists ok2. split; [done|].
    rewrite H2. destruct H1 as [H1 _]. specialize (H1 eq_refl). split.
    + intros Hbox r c Hr Hc [->|[->|[Hpr Hpc]]].
      * apply (H1 c). apply elem_of_seq. lia.
      * apply (H1 r). apply elem_of_seq. lia.
      * replace r with (box_origin bs row + (r - box_origin bs row)) by lia.
        replace c with (box_origin bs col + (c - box_origin bs col)) by lia.
        apply Hbox; [apply elem_of_seq|]; lia.
    + intros Hall i j Hi%elem_of_seq Hj. apply Hall; [lia..|].
      right; right. lia.
  - exists false. split; [done|]. split; [done|]. intros Hall.
    destruct H1 as [_ H1]. enough (true = true → false = true) by auto. intros _.
    apply H1. intros i Hi%elem_of_seq. split.
    + apply Hall; [lia..|by left].
    + apply Hall; [lia..|by right; left].
Qed.

Lemma place_consistent size (b b' : Board) row col num :
  0 < box_size size → row < size → col < size →
  consistent size b → cell b row col = 0%Z → num ≠ 0%Z →
  (∀ r c, r < size → c < size → peer (box_size size) row col r c → cell b r c ≠ num) →
  (∀ r c, cell b' r c = if decide ((r, c) = (row, col)) then num else cell b r c) →
  consistent size b'.
Proof.
  intros Hbs Hrow Hcol Hcons Hz Hnum Hvalid Hb' r c r' c' Hr Hc Hr' Hc' Hne Hpeer Hnz.
  rewrite !Hb' in *. destruct (decide ((r, c) = (row, col))) as [[= -> ->]|Hn1].
  - rewrite decide_False by done. by apply Hvalid.
  - destruct (decide ((r', c') = (row, col))) as [[= -> ->]|Hn2].
    + intros Heq. apply (Hvalid r c); [done..|by apply peer_sym|done].
    + by apply Hcons.
Qed.

(** ** The backtracking search *)

Lemma empties_set (b : Board) r c row v :
  b !! r = Some row → row !! c = Some 0%Z → v ≠ 0%Z →
  empties (<[r := <[c := v]> row]> b) + 1 = empties b.
Proof.
  intros Hr Hc Hv.
  by apply (MazeGridFacts.count_cells_insert_hit (λ v : Z, v = 0%Z) b r c row 0%Z v).
Qed.

Lemma cell_lookup (b : Board) r c row :
  b !! r = Some row → c < length row → row !! c = Some (cell b r c).
Proof.
  intros Hr Hc. unfold cell. rewrite Hr. simpl.
  destruct (lookup_lt_is_Some_2 row c Hc) as [v ->]. done.
Qed.

Lemma elem_of_nums size (v : Z) : v ∈ nums size ↔ (1 ≤ v ≤ Z.of_nat size)%Z.
Proof.
  unfold nums. rewrite list_elem_of_fmap. split.
  - intros (n & -> & Hn%elem_of_seq). lia.
  - intros Hv. exists (Z.to_nat v). split; [lia|]. apply elem_of_seq. lia.
Qed.

Section Search.
Variables (size fuel : nat).
Hypothesis Hsq : box_size size * box_size size = size.
Hypothesis rec_ok : ∀ b : Board,
  is_grid size b → empties b < fuel →
  ∃ found b', solve_board fuel size b = Ok (found, b') ∧ search_post size b found b'.

Lemma try_nums_ok (b : Board) row col ns :
  is_grid size b → row < size → col < size → cell b row col = 0%Z →
  empties b ≤ fuel → Forall (λ n, 1 ≤ n ≤ Z.of_nat size)%Z ns →
  ∃ found b', try_nums (solve_board fuel size) size b row col ns = Ok (found, b')
    ∧ if found then search_post size b true b'
      else b' = b ∧ ∀ sol, completion size b sol → cell sol row col ∉ ns.
Proof.
  intros Hg Hrow Hcol Hz Hfuel Hns.
  assert (0 < box_size size) as Hbs by (destruct (box_size size); simpl in *; lia).
  induction Hns as [|num ns Hnum _ IH].
  - exists false, b. split; [done|]. split; [done|]. intros sol _ Hin. inversion Hin.
  - simpl.
    destruct (valid_move_peers size b row col num Hg Hsq Hrow Hcol) as (ok & -> & Hok).
    simpl. destruct ok.
    + destruct Hok as [Hvalid _]. specialize (Hvalid eq_refl).
      destruct (board_set_cell size b row col num Hg Hrow Hcol)
        as (b1 & Hset & Hg1 & Hcell1 & rowl & Hrowl & Hb1).
      change (grid_set b row col num) with (board_set b row col num).
      rewrite Hset. simpl.
      assert (length rowl = size) as Hlen.
      { destruct Hg as [_ Hrows]. exact (Forall_lookup_1 _ _ _ _ Hrows Hrowl). }
      assert (rowl !! col = Some 0%Z) as Hc0.
      { rewrite <- Hz. apply cell_lookup; [done|lia]. }
      assert (empties b1 + 1 = empties b) as Hemp.
      { rewrite Hb1. apply empties_set; [done..|lia]. }
      destruct (rec_ok b1 Hg1 ltac:(lia)) as (f & b2 & -> & Hpost). simpl.
      destruct f.
      * exists true, b2. split; [done|].
        destruct Hpost as (Hg2 & Hfull & Hagree & Hnew & Hcons).
        split; [done|]. split; [done|]. split; [|split].
        -- intros r c Hr Hc Hnz. rewrite Hagree; rewrite ?Hcell1; try done.
           ++ rewrite decide_False; [done|]. intros [= -> ->]. done.
           ++ rewrite decide_False; [done|]. intros [= -> ->]. done.
        -- intros r c Hr Hc Hzero.
           destruct (decide ((r, c) = (row, col))) as [[= -> ->]|Hne].
           ++ rewrite Hagree; [|done..|]; rewrite Hcell1, decide_True by done; [done|lia].
           ++ apply Hnew; [done..|]. by rewrite Hcell1, decide_False.
        -- intros Hc. apply Hcons.
           apply (place_consistent size b b1 row col num); try done. lia.
      * destruct Hpost as [-> Hnone].
        destruct (board_set_cell size b1 row col 0 Hg1 Hrow Hcol)
          as (b3 & Hset3 & _ & _ & rowl1 & Hrowl1 & Hb3).
        change (grid_set b1 row col 0) with (board_set b1 row col 0).
        rewrite Hset3. simpl.
        assert (b3 = b) as ->.
        { rewrite Hb3. rewrite Hb1 in Hrowl1 |- *.
          rewrite list_lookup_insert_eq in Hrowl1 by (by apply lookup_lt_Some in Hrowl).
          injection Hrowl1 as <-.
          rewrite !list_insert_insert_eq.
          rewrite (list_insert_id rowl col 0%Z) by done. by apply list_insert_id. }
        destruct IH as (f & b' & Hrun & Hres). exists f, b'. split; [done|].
        destruct f; [done|]. destruct Hres as [-> Hrest]. split; [done|].
        intros sol Hsol Hin. apply elem_of_cons in Hin as [Heq|Hin]; [|by eapply Hrest].
        apply (Hnone sol). destruct Hsol as (Hgs & Hfs & Hrs & Hcs & Has).
        split; [done|]. split; [done|]. split; [done|]. split; [done|].
        intros r c Hr Hc. rewrite Hcell1.
        destruct (decide ((r, c) = (row, col))) as [[= -> ->]|Hne]; [done|]. by apply Has.
    + destruct IH as (f & b' & Hrun & Hres). exists f, b'. split; [done|].
      destruct f; [done|]. destruct Hres as [-> Hrest]. split; [done|].
      intros sol Hsol Hin. apply elem_of_cons in Hin as [Heq|Hin]; [|by eapply Hrest].
      destruct Hsol as (Hgs & Hfs & Hrs & Hcs & Has).
      destruct Hok as [_ Hok]. enough (false = true) by discriminate.
      apply Hok. intros r c Hr Hc Hpeer Hv.
      destruct (decide ((r, c) = (row, col))) as [[= -> ->]|Hne]; [lia|].
      apply (Hcs row col r c); try done.
      * rewrite Heq. lia.
      * rewrite Heq, <- Hv. apply Has; [done..|]. rewrite Hv. lia.
Qed.
End Search.

Lemma solve_board_ok size (Hsq : box_size size * box_size size = size) fuel :
  ∀ b : Board, is_grid size b → empties b < fuel →
  ∃ found b', solve_board fuel size b = Ok (found, b') ∧ search_post size b found b'.
Proof.
  induction fuel as [|fuel IH]; intros b Hg Hfuel; [lia|]. cbn [solve_board].
  destruct (find_zero_spec size b Hg) as [[-> Hfull]|(i & j & -> & Hi & Hj & Hz & _)]; simpl.
  - exists true, b. split; [done|]. split; [done|]. split; [done|]. split; [done|].
    split; [|done]. intros r c Hr Hc Hzero. destruct (Hfull r c Hr Hc Hzero).
  - destruct (try_nums_ok size fuel Hsq IH b i j (nums size) Hg Hi Hj Hz ltac:(lia))
      as (f & b' & -> & Hres).
    { apply Forall_forall. intros n. apply elem_of_nums. }
    exists f, b'. split; [done|]. destruct f; [done|]. destruct Hres as [-> Hnone].
    split; [done|]. intros sol Hsol. apply (Hnone sol Hsol).
    destruct Hsol as (_ & Hfs & Hrs & _). apply elem_of_nums.
    specialize (Hfs i j Hi Hj). specialize (Hrs i j Hi Hj). lia.
Qed.

(** ** The two solvers *)

Section Siblings.
Context {G : Type} `{!Grid G}.

Lemma solve_nums_as_try_nums (rec : Solver G → result (bool * Solver G))
  (rec' : G → result (bool * G)) sz :
  (∀ s, size s = sz → rec s = as_solver s (rec' (board s))) →
  ∀ ns s row col, size s = sz →
    solve_nums rec s row col ns = as_solver s (try_nums rec' sz (board s) row col ns).
Proof.
  unfold as_solver. intros Hrec.
  induction ns as [|num ns IH]; intros [b sz' n] row col Hsz; simpl in Hsz; subst sz';
    simpl; [done|].
  destruct (is_valid_move sz b row col num) as [ok|e]; simpl; [|done].
  destruct ok; [|by apply (IH {| board := b; size := sz; num_solutions := n |})].
  destruct (grid_set b row col num) as [b1|e]; simpl; [|done].
  rewrite Hrec by done. simpl.
  destruct (rec' b1) as [[f b2]|e]; simpl; [|done]. destruct f; simpl; [done|].
  destruct (grid_set b2 row col 0) as [b3|e]; simpl; [|done].
  by rewrite IH.
Qed.

Lemma solve_as_solve_board fuel : ∀ s : Solver G,
  solve fuel s = as_solver s (solve_board fuel (size s) (board s)).
Proof.
  induction fuel as [|fuel IH]; intros s; [done|]. simpl. unfold find_empty_cell.
  pose proof (solve_nums_as_try_nums (solve fuel) (solve_board fuel (size s)) (size s)) as Hnums.
  unfold as_solver in *.
  destruct (find_zero (board s) (size s) (seq 0 (size s))) as [[[row col]|]|e]; simpl; [| |done].
  - apply Hnums; [|done]. intros s' <-. apply IH.
  - done.
Qed.

Lemma try_nums_mono (rec rec' : G → result (bool * G)) size :
  (∀ b r, rec b = Ok r → rec' b = Ok r) →
  ∀ ns b row col r,
    try_nums rec size b row col ns = Ok r → try_nums rec' size b row col ns = Ok r.
Proof.
  intros Hrec. induction ns as [|num ns IH]; intros b row col r H; simpl in *; [done|].
  inv_bind H. rewrite Hrun. simpl. destruct a; [|by apply IH].
  inv_bind H. rewrite Hrun0. simpl. inv_bind H. destruct a0 as [f b2].
  rewrite (Hrec _ _ Hrun1). simpl. destruct f; [done|].
  inv_bind H. rewrite Hrun2. simpl. by apply IH.
Qed.

Lemma solve_board_fuel_mono fuel fuel' size (b : G) r :
  fuel ≤ fuel' → solve_board fuel size b = Ok r → solve_board fuel' size b = Ok r.
Proof.
  revert fuel' b r. induction fuel as [|fuel IH]; intros fuel' b r Hle H; [done|].
  destruct fuel' as [|fuel']; [lia|]. simpl in *.
  inv_bind H. rewrite Hrun. simpl. destruct a as [[row col]|]; [|done].
  eapply try_nums_mono; [|done]. intros b0 r0. apply IH. lia.
Qed.
End Siblings.

(** ** Two ways to say that a grid is valid *)

Lemma NoDup_fmap_seq {A} (f : nat → A) n :
  NoDup (f <$> seq 0 n) ↔ ∀ i j, i < n → j < n → f i = f j → i = j.
Proof.
  split.
  - intros Hnd i j Hi Hj Heq.
    apply (NoDup_lookup _ i j (f i) Hnd); rewrite list_lookup_fmap.
    + by rewrite (proj2 (lookup_seq 0 n i i)).
    + rewrite (proj2 (lookup_seq 0 n j j)) by done. simpl. by rewrite Heq.
  - intros Hinj. apply NoDup_fmap_2_strong; [|apply NoDup_seq].
    intros i j Hi%elem_of_seq Hj%elem_of_seq. apply Hinj; lia.
Qed.

Lemma bind_singleton_fmap {A B} (f : A → B) (l : list A) :
  l ≫= (λ x, [f x]) = f <$> l.
Proof. induction l as [|x l IH]; [done|]. csimpl. by rewrite IH. Qed.

Lemma box_vals_NoDup bs (b : Board) k :
  NoDup (box_vals bs b k) ↔
  ∀ i j i' j', i < bs → j < bs → i' < bs → j' < bs →
    cell b (k `div` bs * bs + i) (k `mod` bs * bs + j)
    = cell b (k `div` bs * bs + i') (k `mod` bs * bs + j') →
    i = i' ∧ j = j'.
Proof.
  unfold box_vals.
  set (R := k `div` bs * bs). set (C := k `mod` bs * bs). split.
  - intros Hnd i j i' j' Hi Hj Hi' Hj' Heq.
    assert (∀ i j, i < bs → j < bs →
              (seq 0 bs ≫= λ i, seq 0 bs ≫= λ j, [cell b (R + i) (C + j)])
              !! (i * bs + j) = Some (cell b (R + i) (C + j))) as Hlook.
    { clear. intros i j Hi Hj.
      assert (∀ n s, s + n = bs → s ≤ i →
        (seq s n ≫= λ i, seq 0 bs ≫= λ j, [cell b (R + i) (C + j)])
        !! ((i - s) * bs + j) = Some (cell b (R + i) (C + j))) as Hgen.
      { induction n as [|n IH]; intros s Hs Hsi; [lia|]. csimpl.
        rewrite bind_singleton_fmap.
        destruct (decide (i = s)) as [->|Hne].
        - rewrite Nat.sub_diag. simpl. rewrite lookup_app_l by (rewrite length_fmap, length_seq; lia).
          rewrite list_lookup_fmap. by rewrite (proj2 (lookup_seq 0 bs j j)).
        - rewrite lookup_app_r by (rewrite length_fmap, length_seq; nia).
          rewrite length_fmap, length_seq.
          replace ((i - s) * bs + j - bs) with ((i - S s) * bs + j) by nia.
          apply IH; lia. }
      specialize (Hgen bs 0 ltac:(lia) ltac:(lia)). by rewrite Nat.sub_0_r in Hgen. }
    assert (i * bs + j = i' * bs + j') as Huniq.
    { apply (NoDup_lookup _ _ _ (cell b (R + i) (C + j)) Hnd); [by apply Hlook|].
      rewrite Heq. by apply Hlook. }
    assert (i = i') by nia. subst. split; [done|]. nia.
  - intros Hinj. apply NoDup_bind; [| |apply NoDup_seq].
    + intros i i' y Hi%elem_of_seq Hi'%elem_of_seq.
      rewrite !bind_singleton_fmap, !list_elem_of_fmap.
      intros (j & -> & Hj%elem_of_seq) (j' & Heq & Hj'%elem_of_seq).
      by destruct (Hinj i j i' j' ltac:(lia) ltac:(lia) ltac:(lia) ltac:(lia) Heq).
    + intros i Hi%elem_of_seq. rewrite bind_singleton_fmap. apply NoDup_fmap_seq.
      intros j j' Hj Hj' Heq.
      by destruct (Hinj i j i j' ltac:(lia) ltac:(lia) ltac:(lia) ltac:(lia) Heq).
Qed.

Lemma div_block a bs i : i < bs → (a * bs + i) `div` bs = a.
Proof.
  intros Hi. rewrite Nat.div_add_l by lia. rewrite Nat.div_small by done. lia.
Qed.

Lemma mod_block a bs i : i < bs → (a * bs + i) `mod` bs = i.
Proof.
  intros Hi. rewrite Nat.add_comm, Nat.Div0.mod_add. by apply Nat.mod_small.
Qed.

Lemma grid_cell_elem size (b : Board) row v :
  is_grid size b → row ∈ b → v ∈ row → ∃ r c, r < size ∧ c < size ∧ cell b r c = v.
Proof.
  intros [Hlen Hrows] [r Hr]%list_elem_of_lookup [c Hc]%list_elem_of_lookup.
  pose proof (Forall_lookup_1 _ _ _ _ Hrows Hr) as Hl. simpl in Hl.
  exists r, c. split; [apply lookup_lt_Some in Hr; lia|].
  split; [apply lookup_lt_Some in Hc; lia|]. unfold cell. by rewrite Hr; simpl; rewrite Hc.
Qed.

Lemma grid_elem_cell size (b : Board) r c :
  is_grid size b → r < size → c < size → ∃ row, row ∈ b ∧ cell b r c ∈ row.
Proof.
  intros [Hlen Hrows] Hr Hc.
  destruct (lookup_lt_is_Some_2 b r) as [row Hrow]; [lia|].
  pose proof (Forall_lookup_1 _ _ _ _ Hrows Hrow) as Hl. simpl in Hl.
  exists row. split; [by eapply list_elem_of_lookup_2|].
  apply (list_elem_of_lookup_2 _ c). apply cell_lookup; [done|lia].
Qed.

Lemma solved_iff size (b : Board) :
  box_size size * box_size size = size →
  solved size b ↔
  is_grid size b ∧ no_empty size b ∧ in_range size b ∧ consistent size b.
Proof.
  intros Hsq. unfold solved, consistent. remember (box_size size) as bs eqn:Hbsdef.
  clear Hbsdef. split.
  - intros (Hg & Hvals & Hnd).
    assert (∀ r c, r < size → c < size → (1 ≤ cell b r c ≤ Z.of_nat size)%Z) as Hv.
    { intros r c Hr Hc. destruct (grid_elem_cell size b r c Hg Hr Hc) as (row & Hrow & Hin).
      rewrite Forall_forall in Hvals. specialize (Hvals row Hrow).
      rewrite Forall_forall in Hvals. by apply Hvals. }
    split; [done|]. split; [|split].
    + intros r c Hr Hc. specialize (Hv r c Hr Hc). lia.
    + intros r c Hr Hc. specialize (Hv r c Hr Hc). lia.
    + rewrite Forall_forall in Hnd.
      intros r c r' c' Hr Hc Hr' Hc' Hne Hpeer _ Heq.
      assert (0 < bs) as Hbs by (destruct bs; simpl in *; lia).
      destruct Hpeer as [->|[->|[Hpr Hpc]]].
      * destruct (Hnd r ltac:(apply elem_of_seq; lia)) as (Hrow & _ & _).
        unfold row_vals in Hrow. rewrite NoDup_fmap_seq in Hrow.
        apply Hne. f_equal. by apply Hrow.
      * destruct (Hnd c ltac:(apply elem_of_seq; lia)) as (_ & Hcol & _).
        unfold col_vals in Hcol. rewrite NoDup_fmap_seq in Hcol.
        apply Hne. f_equal. by apply Hcol.
      * apply box_origin_div in Hpr, Hpc; [|done..].
        assert (r `div` bs < bs) by (apply Nat.Div0.div_lt_upper_bound; lia).
        assert (c `div` bs < bs) by (apply Nat.Div0.div_lt_upper_bound; lia).
        set (k := r `div` bs * bs + c `div` bs).
        destruct (Hnd k ltac:(apply elem_of_seq; subst k; nia)) as (_ & _ & Hbox).
        rewrite box_vals_NoDup in Hbox.
        assert (k `div` bs = r `div` bs) as Hkd by (by apply div_block).
        assert (k `mod` bs = c `div` bs) as Hkm by (by apply mod_block).
        rewrite Hkd, Hkm in Hbox.
        pose proof (Nat.div_mod r bs ltac:(lia)). pose proof (Nat.div_mod c bs ltac:(lia)).
        pose proof (Nat.div_mod r' bs ltac:(lia)). pose proof (Nat.div_mod c' bs ltac:(lia)).
        pose proof (Nat.mod_upper_bound r bs ltac:(lia)).
        pose proof (Nat.mod_upper_bound c bs ltac:(lia)).
        pose proof (Nat.mod_upper_bound r' bs ltac:(lia)).
        pose proof (Nat.mod_upper_bound c' bs ltac:(lia)).
        destruct (Hbox (r' `mod` bs) (c' `mod` bs) (r `mod` bs) (c `mod` bs)) as [E1 E2];
          [done..| |].
        -- replace (r `div` bs * bs + r' `mod` bs) with r' by (rewrite <- Hpr; lia).
           replace (c `div` bs * bs + c' `mod` bs) with c' by (rewrite <- Hpc; lia).
           replace (r `div` bs * bs + r `mod` bs) with r by lia.
           replace (c `div` bs * bs + c `mod` bs) with c by lia. done.
        -- apply Hne. f_equal; [rewrite <- Hpr in *|rewrite <- Hpc in *]; lia.
  - intros (Hg & Hfull & Hrange & Hcons).
    assert (0 < bs ∨ size = 0) as Hbs by (destruct bs; simpl in *; lia).
    split; [done|]. split.
    + apply Forall_forall. intros row Hrow. apply Forall_forall. intros v Hv.
      destruct (grid_cell_elem size b row v Hg Hrow Hv) as (r & c & Hr & Hc & <-).
      specialize (Hfull r c Hr Hc). specialize (Hrange r c Hr Hc). lia.
    + apply Forall_forall. intros k Hk%elem_of_seq.
      destruct Hbs as [Hbs | ->]; [|lia]. split; [|split].
      * apply NoDup_fmap_seq. intros c c' Hc Hc' Heq.
        destruct (decide (c = c')) as [|Hne]; [done|].
        destruct (Hcons k c k c'); try done; try lia.
        -- intros [=]. done.
        -- by left.
        -- apply Hfull; lia.
      * apply NoDup_fmap_seq. intros r r' Hr Hr' Heq.
        destruct (decide (r = r')) as [|Hne]; [done|].
        destruct (Hcons r k r' k); try done; try lia.
        -- intros [=]. done.
        -- by right; left.
        -- apply Hfull; lia.
      * apply box_vals_NoDup. intros i j i' j' Hi Hj Hi' Hj' Heq.
        assert (k `div` bs < bs) by (apply Nat.Div0.div_lt_upper_bound; lia).
        pose proof (Nat.mod_upper_bound k bs ltac:(lia)).
        set (R := k `div` bs * bs) in *. set (C := k `mod` bs * bs) in *.
        destruct (decide ((R + i', C + j') = (R + i, C + j))) as [[=]|Hne]; [lia|].
        destruct (Hcons (R + i) (C + j) (R + i') (C + j')); try done; try (subst R C; nia).
        -- right; right. split; apply box_origin_div; try done; subst R C;
             by rewrite !div_block.
        -- apply Hfull; subst R C; nia.
Qed.

Lemma extends_iff size (p b : Board) : extends size p b ↔ agrees size p b.
Proof.
  unfold extends, agrees. rewrite Forall_forall. split.
  - intros H r c Hr Hc. specialize (H r ltac:(apply elem_of_seq; lia)).
    rewrite Forall_forall in H. apply H. apply elem_of_seq. lia.
  - intros H r Hr%elem_of_seq. apply Forall_forall. intros c Hc%elem_of_seq.
    apply H; lia.
Qed.

Lemma completion_iff size (p b : Board) :
  box_size size * box_size size = size →
  completion size p b ↔ solution_of size p b.
Proof.
  intros Hsq. unfold completion, solution_of.
  rewrite (solved_iff size b Hsq), extends_iff. tauto.
Qed.

(** ** Checking the hypotheses on a concrete board *)

Lemma consistent_checked size (b : Board) : consistent_check size b → consistent size b.
Proof.
  unfold consistent_check. rewrite Forall_seq. intros H r c r' c' Hr Hc Hr' Hc'.
  specialize (H r ltac:(lia)). rewrite Forall_seq in H.
  specialize (H c ltac:(lia)). rewrite Forall_seq in H.
  specialize (H r' ltac:(lia)). rewrite Forall_seq in H.
  apply H. lia.
Qed.

Lemma in_range_checked size (b : Board) : in_range_check size b → in_range size b.
Proof.
  unfold in_range_check. rewrite Forall_seq. intros H r c Hr Hc.
  specialize (H r ltac:(lia)). rewrite Forall_seq in H. apply H. lia.
Qed.

Ltac check_board :=
  first [apply consistent_checked | apply in_range_checked | idtac];
  apply (bool_decide_unpack _); vm_compute; exact I.

(** ** What the solvers guarantee *)

Lemma solve_board_post fuel size (b : Board) found b' :
  box_size size * box_size size = size → is_grid size b →
  solve_board fuel size b = Ok (found, b') → search_post size b found b'.
Proof.
  intros Hsq Hg Hrun.
  assert (empties b < fuel + S (empties b)) as Hlt by lia.
  assert (fuel ≤ fuel + S (empties b)) as Hle by lia.
  destruct (solve_board_ok size Hsq (fuel + S (empties b)) b Hg Hlt)
    as (f & b2 & Hrun2 & Hpost).
  rewrite (solve_board_fuel_mono fuel _ size b _ Hle Hrun) in Hrun2.
  by injection Hrun2 as <- <-.
Qed.

Lemma clue_range size (b b' : Board) :
  in_range size b → agrees size b b' →
  (∀ r c, r < size → c < size → cell b r c = 0%Z → (1 ≤ cell b' r c ≤ Z.of_nat size)%Z) →
  in_range size b'.
Proof.
  intros Hrange Hagree Hnew r c Hr Hc.
  destruct (decide (cell b r c = 0%Z)) as [Hz|Hnz].
  - specialize (Hnew r c Hr Hc Hz). lia.
  - rewrite (Hagree r c Hr Hc Hnz). by apply Hrange.
Qed.

(** X1.  On a square board [find_empty_cell] returns the first cell holding 0
    in row-major order, and (None, None) exactly when no cell is empty. *)
Theorem find_empty_cell_first (b : Board) :
  is_grid (length b) b →
  (find_empty_cell (init b) = Ok None ∧ no_empty (length b) b)
  ∨ ∃ i j, find_empty_cell (init b) = Ok (Some (i, j))
           ∧ i < length b ∧ j < length b ∧ cell b i j = 0%Z
           ∧ ∀ r c, r < length b → c < length b → before r c i j → cell b r c ≠ 0%Z.
Proof. intros Hg. exact (find_zero_spec (length b) b Hg). Qed.

Lemma find_empty_cell_first_witness :
  is_grid (length puzzle4) puzzle4
  ∧ ((find_empty_cell (init puzzle4) = Ok None ∧ no_empty (length puzzle4) puzzle4)
     ∨ ∃ i j, find_empty_cell (init puzzle4) = Ok (Some (i, j))
              ∧ i < length puzzle4 ∧ j < length puzzle4 ∧ cell puzzle4 i j = 0%Z
              ∧ ∀ r c, r < length puzzle4 → c < length puzzle4 → before r c i j →
                       cell puzzle4 r c ≠ 0%Z).
Proof.
  assert (is_grid (length puzzle4) puzzle4) as Hg
    by (apply (bool_decide_unpack _); vm_compute; exact I).
  split; [exact Hg|]. exact (find_empty_cell_first puzzle4 Hg).
Defined.

(** X2.  When [solve_board] returns True on a board whose filled cells are
    in 1..size and repeat no value in a row, column or box, the board it
    leaves is a complete valid grid that keeps every filled cell. *)
Theorem solve_board_sound fuel size (b b' : Board) :
  box_size size * box_size size = size → is_grid size b →
  in_range size b → consistent size b →
  solve_board fuel size b = Ok (true, b') →
  solution_of size b b'.
Proof.
  intros Hsq Hg Hrange Hcons Hrun.
  destruct (solve_board_post fuel size b true b' Hsq Hg Hrun)
    as (Hg' & Hfull & Hagree & Hnew & Hc').
  apply completion_iff; [done|]. split; [done|]. split; [done|].
  split; [by eapply clue_range|]. split; [by apply Hc'|done].
Qed.

Lemma solve_board_sound_witness :
  box_size 4 * box_size 4 = 4 ∧ is_grid 4 puzzle4
  ∧ in_range 4 puzzle4 ∧ consistent 4 puzzle4
  ∧ solve_board 5 4 puzzle4 = Ok (true, solved4)
  ∧ solution_of 4 puzzle4 solved4.
Proof.
  assert (is_grid 4 puzzle4) as Hg by check_board.
  assert (in_range 4 puzzle4) as Hr by check_board.
  assert (consistent 4 puzzle4) as Hc by check_board.
  split; [reflexivity|]. split; [exact Hg|]. split; [exact Hr|]. split; [exact Hc|].
  split; [reflexivity|].
  exact (solve_board_sound 5 4 puzzle4 solved4 eq_refl Hg Hr Hc eq_refl).
Defined.

(** X3.  When [solve_board] returns False the board is left exactly as it
    was given, and that board has no solution. *)
Theorem solve_board_false fuel size (b b' : Board) :
  box_size size * box_size size = size → is_grid size b →
  solve_board fuel size b = Ok (false, b') →
  b' = b ∧ ∀ sol, ¬ solution_of size b sol.
Proof.
  intros Hsq Hg Hrun.
  destruct (solve_board_post fuel size b false b' Hsq Hg Hrun) as [-> Hnone].
  split; [done|]. intros sol Hsol. apply (Hnone sol). by apply completion_iff.
Qed.

Lemma solve_board_false_witness :
  box_size 4 * box_size 4 = 4 ∧ is_grid 4 unsolvable4
  ∧ solve_board 1 4 unsolvable4 = Ok (false, unsolvable4)
  ∧ unsolvable4 = unsolvable4 ∧ ∀ sol, ¬ solution_of 4 unsolvable4 sol.
Proof.
  assert (is_grid 4 unsolvable4) as Hg by check_board.
  split; [reflexivity|]. split; [exact Hg|]. split; [reflexivity|].
  exact (solve_board_false 1 4 unsolvable4 unsolvable4 eq_refl Hg eq_refl).
Defined.

(** X4.  On a size x size board with a perfect-square size [solve_board]
    raises nothing and needs no deeper recursion than the number of empty
    cells plus one; the board keeps its shape. *)
Theorem solve_board_returns fuel size (b : Board) :
  box_size size * box_size size = size → is_grid size b → empties b < fuel →
  ∃ found b', solve_board fuel size b = Ok (found, b') ∧ is_grid size b'.
Proof.
  intros Hsq Hg Hfuel.
  destruct (solve_board_ok size Hsq fuel b Hg Hfuel) as (f & b' & Hrun & Hpost).
  exists f, b'. split; [done|]. destruct f; [apply Hpost|]. by destruct Hpost as [-> _].
Qed.

Lemma solve_board_returns_witness :
  box_size 9 * box_size 9 = 9 ∧ is_grid 9 puzzle9 ∧ empties puzzle9 < 41
  ∧ ∃ found b', solve_board 41 9 puzzle9 = Ok (found, b') ∧ is_grid 9 b'.
Proof.
  assert (is_grid 9 puzzle9) as Hg by check_board.
  assert (empties puzzle9 < 41) as He by (vm_compute; lia).
  split; [reflexivity|]. split; [exact Hg|]. split; [exact He|].
  exact (solve_board_returns 41 9 puzzle9 eq_refl Hg He).
Defined.

(** X5.  [SudokuSolverDFS.solve] computes what [solve_board] computes for
    the size [len(board)]: the same flag and the same board, and it adds one
    to [num_solutions] exactly when the flag is True. *)
Theorem solve_matches_solve_board {G : Type} `{!Grid G} fuel (s : Solver G) :
  solve fuel s = as_solver s (solve_board fuel (size s) (board s)).
Proof. apply solve_as_solve_board. Qed.

(** X6.  On a consistent square board [has_unique_solution] returns True
    exactly when the board has at least one solution. *)
Theorem has_unique_solution_iff fuel (b : Board) :
  box_size (length b) * box_size (length b) = length b → is_grid (length b) b →
  in_range (length b) b → consistent (length b) b → empties b < fuel →
  ∃ u b', has_unique_solution fuel b = Ok (u, b')
          ∧ (u = true ↔ ∃ sol, solution_of (length b) b sol).
Proof.
  intros Hsq Hg Hrange Hcons Hfuel. unfold has_unique_solution.
  rewrite solve_as_solve_board. simpl.
  destruct (solve_board_ok (length b) Hsq fuel b Hg Hfuel) as (f & b' & Hrun & Hpost).
  change (grid_len b) with (length b). rewrite Hrun. simpl.
  exists f, b'. destruct f; simpl.
  - split; [done|]. split; [|done]. intros _. exists b'.
    destruct Hpost as (Hg' & Hfull & Hagree & Hnew & Hc').
    apply completion_iff; [done|]. split; [done|]. split; [done|].
    split; [by eapply clue_range|]. split; [by apply Hc'|done].
  - split; [done|]. split; [done|]. intros [sol Hsol]. destruct Hpost as [_ Hnone].
    destruct (Hnone sol). by apply completion_iff.
Qed.

Lemma has_unique_solution_iff_witness :
  box_size (length puzzle4) * box_size (length puzzle4) = length puzzle4
  ∧ is_grid (length puzzle4) puzzle4
  ∧ in_range (length puzzle4) puzzle4 ∧ consistent (length puzzle4) puzzle4
  ∧ empties puzzle4 < 5
  ∧ ∃ u b', has_unique_solution 5 puzzle4 = Ok (u, b')
            ∧ (u = true ↔ ∃ sol, solution_of (length puzzle4) puzzle4 sol).
Proof.
  assert (is_grid (length puzzle4) puzzle4) as Hg by check_board.
  assert (in_range (length puzzle4) puzzle4) as Hr by check_board.
  assert (consistent (length puzzle4) puzzle4) as Hc by check_board.
  assert (empties puzzle4 < 5) as He by (vm_compute; lia).
  split; [reflexivity|]. split; [exact Hg|]. split; [exact Hr|]. split; [exact Hc|].
  split; [exact He|].
  exact (has_unique_solution_iff 5 puzzle4 eq_refl Hg Hr Hc He).
Defined.

(** ** The same code on both kinds of board *)

Section Simulation.
Context {G1 G2 : Type} `{!Grid G1} `{!Grid G2} (R : G1 → G2 → Prop).
Hypothesis R_get : ∀ g v r c, R g v → grid_get g r c = grid_get v r c.
Hypothesis R_set : ∀ g v r c x, R g v → rres R (grid_set g r c x) (grid_set v r c x).

Lemma scan_row_col_sim g v row col num idx :
  R g v → scan_row_col g row col num idx = scan_row_col v row col num idx.
Proof.
  intros HR. induction idx as [|i idx IH]; simpl; [done|].
  rewrite !(R_get g v) by done. by rewrite IH.
Qed.

Lemma scan_box_row_sim g v r c0 num js :
  R g v → scan_box_row g r c0 num js = scan_box_row v r c0 num js.
Proof.
  intros HR. induction js as [|j js IH]; simpl; [done|].
  rewrite !(R_get g v) by done. by rewrite IH.
Qed.

Lemma scan_box_sim g v r0 c0 bs num ixs :
  R g v → scan_box g r0 c0 bs num ixs = scan_box v r0 c0 bs num ixs.
Proof.
  intros HR. induction ixs as [|i ixs IH]; simpl; [done|].
  rewrite (scan_box_row_sim g v) by done. by rewrite IH.
Qed.

Lemma is_valid_move_sim size g v row col num :
  R g v → is_valid_move size g row col num = is_valid_move size v row col num.
Proof.
  intros HR. unfold is_valid_move.
  rewrite (scan_row_col_sim g v) by done.
  destruct (scan_row_col v row col num (seq 0 size)) as [ok|e]; simpl; [|done].
  destruct (negb ok); [done|]. destruct (decide _); [done|].
  by apply scan_box_sim.
Qed.

Lemma find_zero_in_row_sim g v row cols :
  R g v → find_zero_in_row g row cols = find_zero_in_row v row cols.
Proof.
  intros HR. induction cols as [|j cols IH]; simpl; [done|].
  rewrite !(R_get g v) by done. by rewrite IH.
Qed.

Lemma find_zero_sim g v size rows :
  R g v → find_zero g size rows = find_zero v size rows.
Proof.
  intros HR. induction rows as [|i rows IH]; simpl; [done|].
  rewrite (find_zero_in_row_sim g v) by done. by rewrite IH.
Qed.

Lemma try_nums_sim rec1 rec2 size :
  (∀ g v, R g v → rres (flagged R) (rec1 g) (rec2 v)) →
  ∀ ns g v row col, R g v →
    rres (flagged R) (try_nums rec1 size g row col ns) (try_nums rec2 size v row col ns).
Proof.
  intros Hrec. induction ns as [|num ns IH]; intros g v row col HR; simpl; [done|].
  rewrite (is_valid_move_sim size g v) by done.
  destruct (is_valid_move size v row col num) as [ok|e]; simpl; [|done].
  destruct ok; [|by apply IH].
  pose proof (R_set g v row col num HR) as Hset.
  destruct (grid_set g row col num) as [g1|e1], (grid_set v row col num) as [v1|e2];
    simpl in *; try done.
  pose proof (Hrec g1 v1 Hset) as Hr.
  destruct (rec1 g1) as [[f1 g2]|e1], (rec2 v1) as [[f2 v2]|e2]; simpl in *; try done.
  destruct Hr as [Hf HR2]. simpl in Hf, HR2. subst f2. destruct f1; [done|].
  pose proof (R_set g2 v2 row col 0%Z HR2) as Hset2.
  destruct (grid_set g2 row col 0) as [g3|e1], (grid_set v2 row col 0) as [v3|e2];
    simpl in *; try done.
  by apply IH.
Qed.

Lemma solve_board_sim fuel size : ∀ g v, R g v →
  rres (flagged R) (solve_board fuel size g) (solve_board fuel size v).
Proof.
  induction fuel as [|fuel IH]; intros g v HR; simpl; [done|].
  rewrite (find_zero_sim g v) by done.
  destruct (find_zero v size (seq 0 size)) as [[[row col]|]|e]; simpl; [| |done].
  - by apply try_nums_sim.
  - done.
Qed.

End Simulation.

Section Unique.
Context {G : Type} `{!Grid G}.

Lemma has_unique_solution_as_solve_board fuel (b : G) :
  has_unique_solution fuel b = solve_board fuel (grid_len b) b.
Proof.
  unfold has_unique_solution. rewrite solve_as_solve_board. unfold as_solver. simpl.
  destruct (solve_board fuel (grid_len b) b) as [[f b']|e]; simpl; [|done].
  by destruct f.
Qed.
End Unique.

Lemma denotes_get g v r c : denotes g v → hboard_get g r c = board_get v r c.
Proof.
  destruct g as [h b]. intros [_ Hv]. unfold hboard_get, board_get. simpl in *.
  destruct (b !! r) as [l|] eqn:Hl.
  - destruct (view_lookup _ _ _ _ _ Hv Hl) as (row & -> & ->). done.
  - apply view_Forall2, Forall2_length in Hv.
    apply lookup_ge_None in Hl. rewrite (lookup_ge_None_2 v r) by lia. done.
Qed.

Lemma denotes_set g v r c x :
  denotes g v → rres denotes (hboard_set g r c x) (board_set v r c x).
Proof.
  destruct g as [h b]. intros [Hnd Hv].
  destruct (hboard_set (h, b) r c x) as [g'|e] eqn:Hset.
  - destruct (hboard_set_view _ _ _ _ _ _ _ Hnd Hv Hset) as (row & Hrow & Hc & Hb & Hv').
    unfold board_set. rewrite Hrow. rewrite decide_True by done. simpl.
    split; rewrite Hb; done.
  - unfold hboard_set, board_set in *. simpl in *.
    destruct (b !! r) as [l|] eqn:Hl.
    + destruct (view_lookup _ _ _ _ _ Hv Hl) as (row & Hrow & ->).
      rewrite Hrow in Hset. destruct (decide _); [done|]. simpl. congruence.
    + apply view_Forall2, Forall2_length in Hv.
      apply lookup_ge_None in Hl. rewrite (lookup_ge_None_2 v r) by lia. simpl. congruence.
Qed.

Lemma solve_board_denotes fuel size g v :
  denotes g v →
  rres (flagged (λ g' v', g'.2 = g.2 ∧ denotes g' v'))
       (solve_board fuel size g) (solve_board fuel size v).
Proof.
  intros Hd. apply (solve_board_sim (λ g' v', g'.2 = g.2 ∧ denotes g' v')); [| |done].
  - intros g' v' r c [_ Hd']. by apply denotes_get.
  - intros g' v' r c x [Hb Hd']. pose proof (denotes_set g' v' r c x Hd') as Hset.
    change (grid_set g' r c x) with (hboard_set g' r c x).
    change (grid_set v' r c x) with (board_set v' r c x).
    destruct (hboard_set g' r c x) as [g2|e] eqn:Hs,
             (board_set v' r c x) as [v2|e']; simpl in *; try done.
    split; [|done]. apply hboard_set_frame in Hs as [-> _]. done.
Qed.

(** ** Removing numbers *)

Lemma view_seq (h : Heap) : view h (seq 0 (length h)) = Some h.
Proof.
  apply view_Forall2. apply Forall2_lookup. intros i.
  destruct (decide (i < length h)) as [Hi|Hi].
  - rewrite lookup_seq_lt by done. destruct (lookup_lt_is_Some_2 h i Hi) as [row Hrow].
    rewrite Hrow. by constructor.
  - rewrite lookup_seq_ge by lia. rewrite (lookup_ge_None_2 h i) by lia. constructor.
Qed.

Lemma copy_rows_view b : ∀ h h2 tb p,
  view h b = Some p → copy_rows h b = Ok (h2, tb) →
  view h2 tb = Some p ∧ NoDup tb.
Proof.
  intros h h2 tb p Hv Hc.
  enough (Forall2 (λ l row, h2 !! l = Some row) tb p ∧ NoDup tb
          ∧ Forall (λ l, length h ≤ l) tb ∧ ∃ k, h2 = h ++ k) as (H1 & H2 & _).
  { split; [by apply view_Forall2|done]. }
  apply view_Forall2 in Hv. revert h h2 tb p Hv Hc.
  induction b as [|l b IH]; intros h h2 tb p Hv Hc; simpl in Hc.
  - injection Hc as <- <-. inversion Hv; subst.
    repeat split; [constructor..|]. exists []. by rewrite app_nil_r.
  - inversion Hv as [|l' row b' p' Hl Hv']; subst. rewrite Hl in Hc.
    inv_bind Hc. destruct a as [h' ls]. injection Hc as <- <-.
    destruct (IH (h ++ [row]) h' ls p') as (H1 & H2 & H3 & k & ->); [|done|].
    { eapply Forall2_impl; [done|]. intros l' row' Hl'. simpl in Hl'.
      rewrite lookup_app_l; [done|]. by apply lookup_lt_Some in Hl'. }
    rewrite Forall_forall in H3. rewrite length_app in H3. simpl in H3.
    split; [|split; [|split]].
    + constructor; [|done]. rewrite <- app_assoc. by apply list_lookup_middle.
    + constructor; [|done]. intros Hin. apply H3 in Hin. lia.
    + constructor; [done|]. apply Forall_forall. intros x Hx. apply H3 in Hx. lia.
    + exists ([row] ++ k). by rewrite app_assoc.
Qed.

Lemma view_length h b p : view h b = Some p → length p = length b.
Proof. intros Hv%view_Forall2. symmetry. by eapply Forall2_length. Qed.

(** One iteration of [remove_numbers], read on the rows of the board: a
    filled cell is picked and cleared, the search is run on the cleared
    grid, and the cell stays cleared exactly when the search succeeds. *)
Lemma remove_one_step fuel size h b old rng h' rng' :
  NoDup b → view h b = Some old →
  remove_one fuel size h b rng = Ok (h', rng') →
  ∃ r c row v u v3,
    old !! r = Some row ∧ row !! c = Some v ∧ v ≠ 0%Z
    ∧ solve_board fuel (length old) (<[r := <[c := 0%Z]> row]> old) = Ok (u, v3)
    ∧ view h' b = Some (if (u : bool) then <[r := <[c := 0%Z]> row]> old else old).
Proof.
  intros Hnd Hv H. unfold remove_one in H.
  inv_bind H. destruct a as [row0 rng1]. inv_bind H. destruct a as [col0 rng2].
  inv_bind H. destruct a as [[row col] rng3].
  apply resample_nonzero in Hrun1 as (v & Hget & Hnz).
  inv_bind H. simpl in Hrun1. rewrite Hget in Hrun1. injection Hrun1 as <-.
  inv_bind H. rename a into g1. simpl in Hrun1.
  destruct (hboard_set_view _ _ _ _ _ _ _ Hnd Hv Hrun1) as (r0 & Hr0 & Hc & Hb1 & Hv1).
  destruct (hboard_get_view _ _ _ _ _ _ Hv Hget) as (r0' & Hr0' & Hcell).
  assert (r0' = r0) as -> by congruence.
  inv_bind H. destruct a as [h2 temp_board]. inv_bind H. destruct a as [unique g3].
  pose proof (probe_view _ _ _ _ _ _ _ _ Hv1 Hrun2 Hrun3) as Hv3.
  destruct (copy_rows_view _ _ _ _ _ Hv1 Hrun2) as [Hvt Hndt].
  rewrite has_unique_solution_as_solve_board in Hrun3.
  pose proof (solve_board_denotes fuel (length temp_board) (h2, temp_board) _
                (conj Hndt Hvt)) as Hsim.
  change (grid_len (h2, temp_board)) with (length temp_board) in Hrun3.
  rewrite Hrun3 in Hsim.
  rewrite <- (view_length _ _ _ Hvt), length_insert in Hsim.
  destruct (solve_board fuel (length old) _) as [[u v3]|e] eqn:Hprobe; [|done].
  destruct Hsim as [Hu _]. simpl in Hu. subst u.
  exists row, col, r0, v, unique, v3. split; [done|]. split; [done|]. split; [done|].
  split; [done|]. destruct unique.
  - by injection H as <- <-.
  - inv_bind H. injection H as <- <-. simpl in Hrun4.
    destruct (hboard_set_view _ _ _ _ _ _ _ Hnd Hv3 Hrun4) as (r1 & Hr1 & _ & _ & Hv4).
    rewrite Hv4. f_equal.
    rewrite list_lookup_insert_eq in Hr1 by (by apply lookup_lt_Some in Hr0).
    injection Hr1 as <-.
    rewrite list_insert_insert_eq, list_insert_insert_eq.
    rewrite (list_insert_id r0 col v) by done. by apply list_insert_id.
Qed.

Lemma blanked_refl b : blanked b b.
Proof. apply Forall2_same_length_lookup. split; [done|]. intros i x y Hx Hy.
  assert (x = y) as -> by congruence.
  apply Forall2_same_length_lookup. split; [done|]. intros; left; congruence. Qed.

Lemma blanked_trans b1 b2 b3 : blanked b1 b2 → blanked b2 b3 → blanked b1 b3.
Proof.
  unfold blanked. intros H12 H23.
  eapply Forall2_trans; [|exact H12|exact H23].
  intros r1 r2 r3 Hr12 Hr23. eapply Forall2_trans; [|exact Hr12|exact Hr23].
  simpl. intros x y z [->| ->] [->| ->]; auto.
Qed.

Lemma blanked_clear (b : Board) r c row :
  b !! r = Some row → blanked b (<[r := <[c := 0%Z]> row]> b).
Proof.
  intros Hr. unfold blanked.
  rewrite <- (list_insert_id b r row) at 1 by done.
  apply Forall2_insert; [apply blanked_refl|].
  destruct (decide (c < length row)) as [Hc|Hc].
  - destruct (lookup_lt_is_Some_2 row c Hc) as [v Hv].
    rewrite <- (list_insert_id row c v) at 1 by done.
    apply Forall2_insert; [|by right].
    apply Forall2_same_length_lookup. split; [done|]. intros; left; congruence.
  - rewrite list_insert_ge by lia.
    apply Forall2_same_length_lookup. split; [done|]. intros; left; congruence.
Qed.

Lemma filled_clear (b : Board) r c row v :
  b !! r = Some row → row !! c = Some v → v ≠ 0%Z →
  filled (<[r := <[c := 0%Z]> row]> b) + 1 = filled b.
Proof.
  intros Hr Hc Hv.
  apply (MazeGridFacts.count_cells_insert_hit (λ v : Z, v ≠ 0%Z) b r c row v 0%Z);
    [done..|]. intros Hn. by apply Hn.
Qed.

Lemma empties_clear (b : Board) r c row v :
  b !! r = Some row → row !! c = Some v → v ≠ 0%Z →
  empties (<[r := <[c := 0%Z]> row]> b) = empties b + 1.
Proof.
  intros Hr Hc Hv.
  assert (r < length b) as Hrl by (by apply lookup_lt_Some in Hr).
  assert (c < length row) as Hcl by (by apply lookup_lt_Some in Hc).
  pose proof (empties_set (<[r := <[c := 0%Z]> row]> b) r c (<[c := 0%Z]> row) v) as H.
  rewrite list_lookup_insert_eq in H by done.
  rewrite list_lookup_insert_eq in H by done.
  specialize (H eq_refl eq_refl Hv).
  rewrite !list_insert_insert_eq in H.
  rewrite (list_insert_id row c v) in H by done.
  rewrite (list_insert_id b r row) in H by done. lia.
Qed.

Lemma remove_loop_blanks fuel size b n : ∀ h old rng h' rng',
  NoDup b → view h b = Some old →
  remove_loop n fuel size h b rng = Ok (h', rng') →
  ∃ new, view h' b = Some new ∧ blanked old new ∧ filled old ≤ filled new + n.
Proof.
  induction n as [|n IH]; intros h old rng h' rng' Hnd Hv H; simpl in H.
  - injection H as <- <-. exists old. split; [done|]. split; [apply blanked_refl|lia].
  - inv_bind H. destruct a as [h1 rng1].
    destruct (remove_one_step _ _ _ _ _ _ _ _ Hnd Hv Hrun)
      as (r & c & row & v & u & v3 & Hr & Hc & Hnz & _ & Hv1).
    destruct (IH _ _ _ _ _ Hnd Hv1 H) as (new & Hvn & Hbl & Hcount).
    exists new. split; [done|]. destruct u.
    + pose proof (filled_clear old r c row v Hr Hc Hnz). split; [|lia].
      eapply blanked_trans; [|done]. by apply blanked_clear.
    + split; [done|lia].
Qed.

Lemma no_empty_full size (b : Board) : is_grid size b → no_empty size b → full b.
Proof.
  intros [Hlen Hrows] Hne. apply Forall_lookup. intros r row Hr.
  apply Forall_lookup. intros c v Hc.
  pose proof (Forall_lookup_1 _ _ _ _ Hrows Hr) as Hl. simpl in Hl.
  assert (r < size) as Hrs by (apply lookup_lt_Some in Hr; lia).
  assert (c < size) as Hcs by (apply lookup_lt_Some in Hc; lia).
  specialize (Hne r c Hrs Hcs). unfold cell in Hne. rewrite Hr in Hne. simpl in Hne.
  by rewrite Hc in Hne.
Qed.

Lemma empties_full (b : Board) : full b → empties b = 0.
Proof.
  unfold empties. induction 1 as [|row b Hrow _ IH]; [done|].
  cbn [MazeGrid.count_cells]. rewrite IH.
  enough (filter (λ v : Z, v = 0%Z) row = []) as -> by done.
  induction Hrow as [|v row Hv _ IHrow]; [done|].
  by rewrite filter_cons_False.
Qed.

Lemma cell_blank n m r c : cell (replicate n (replicate m 0%Z)) r c = 0%Z.
Proof.
  unfold cell. destruct (replicate n (replicate m 0%Z) !! r) as [row|] eqn:Hr; [|done].
  apply lookup_replicate in Hr as [-> _]. simpl.
  destruct (replicate m 0%Z !! c) as [v|] eqn:Hc; [|done].
  by apply lookup_replicate in Hc as [-> _].
Qed.

Lemma is_grid_blank size : is_grid size (replicate size (replicate size 0%Z)).
Proof.
  split; [apply length_replicate|]. apply Forall_replicate, length_replicate.
Qed.

Lemma remove_loop_exact fuel size b sol n :
  box_size size * box_size size = size → NoDup b →
  ∀ h p rng h' rng',
    view h b = Some p → is_grid size p → completion size p sol →
    remove_loop n fuel size h b rng = Ok (h', rng') →
    ∃ p', view h' b = Some p' ∧ is_grid size p' ∧ completion size p' sol
          ∧ blanked p p' ∧ empties p' = empties p + n.
Proof.
  intros Hsq Hnd. induction n as [|n IH]; intros h p rng h' rng' Hv Hg Hsol H; simpl in H.
  - injection H as <- <-. exists p. split; [done|]. split; [done|]. split; [done|].
    split; [apply blanked_refl|lia].
  - inv_bind H. destruct a as [h1 rng1].
    destruct (remove_one_step _ _ _ _ _ _ _ _ Hnd Hv Hrun)
      as (r & c & row & v & u & v3 & Hr & Hc & Hnz & Hprobe & Hv1).
    assert (length p = size) as Hlen by apply Hg.
    assert (length row = size) as Hrl.
    { destruct Hg as [_ Hrows]. exact (Forall_lookup_1 _ _ _ _ Hrows Hr). }
    assert (r < size) as Hrs by (apply lookup_lt_Some in Hr; lia).
    assert (c < size) as Hcs by (apply lookup_lt_Some in Hc; lia).
    destruct (board_set_cell size p r c 0%Z Hg Hrs Hcs)
      as (p1 & _ & Hg1 & Hcell & row' & Hr' & ->).
    assert (row' = row) as -> by congruence.
    assert (completion size (<[r := <[c := 0%Z]> row]> p) sol) as Hsol1.
    { destruct Hsol as (H1 & H2 & H3 & H4 & Hag).
      split; [done|]. split; [done|]. split; [done|]. split; [done|].
      intros r' c' Hr1 Hc1. rewrite Hcell. destruct (decide _); [done|]. by apply Hag. }
    rewrite Hlen in Hprobe.
    pose proof (solve_board_post _ _ _ _ _ Hsq Hg1 Hprobe) as Hpost.
    destruct u; [|destruct Hpost as [_ Hno]; destruct (Hno sol Hsol1)].
    destruct (IH _ _ _ _ _ Hv1 Hg1 Hsol1 H) as (p' & Hv' & Hg' & Hsol' & Hbl & Hcount).
    exists p'. split; [done|]. split; [done|]. split; [done|]. split.
    + eapply blanked_trans; [|done]. by apply blanked_clear.
    + rewrite Hcount. rewrite (empties_clear p r c row v) by done. lia.
Qed.

(** X7.  On a board whose rows are distinct objects, [remove_numbers] only
    sets cells to 0: every cell of the board it leaves holds its old value
    or 0, the shape is kept, and at most [num_to_remove] filled cells are
    lost. *)
Theorem remove_numbers_only_blanks fuel size h b old rng h' rng' :
  NoDup b → view h b = Some old →
  remove_numbers fuel size h b rng = Ok (h', rng') →
  ∃ new, view h' b = Some new ∧ blanked old new
         ∧ filled old ≤ filled new + num_to_remove size.
Proof. apply remove_loop_blanks. Qed.

Lemma remove_numbers_only_blanks_witness :
  ∃ h' rng',
    remove_numbers 17 4 solved4 [0; 1; 2; 3] (replay picks4) = Ok (h', rng')
    ∧ ∃ new, view h' [0; 1; 2; 3] = Some new ∧ blanked solved4 new
             ∧ filled solved4 ≤ filled new + num_to_remove 4.
Proof.
  destruct (remove_numbers 17 4 solved4 [0; 1; 2; 3] (replay picks4))
    as [[h' rng']|e] eqn:Hrun.
  - exists h', rng'. split; [reflexivity|].
    apply (remove_numbers_only_blanks 17 4 solved4 [0; 1; 2; 3] solved4
             (replay picks4) h' rng'); [|reflexivity|exact Hrun].
    apply (bool_decide_unpack _); vm_compute; exact I.
  - vm_compute in Hrun. discriminate Hrun.
Defined.

(** What [generate_board] returns: a board of distinct rows holding a grid
    [p] that [sol], the grid the search found from the empty board,
    completes, with [num_to_remove] cells cleared. *)
Lemma generate_board_grid fuel size rng g rng' :
  box_size size * box_size size = size →
  generate_board fuel size rng = Ok (g, rng') →
  ∃ p sol, denotes g p ∧ length g.2 = size ∧ is_grid size p
           ∧ completion size p sol ∧ empties p = num_to_remove size.
Proof.
  intros Hsq H. unfold generate_board in H. inv_bind H. destruct a as [f g1].
  inv_bind H. destruct a as [h2 rng2]. injection H as <- <-.
  set (v0 := replicate size (replicate size 0%Z)) in *.
  assert (denotes (new_board size) v0) as Hd0.
  { split; [apply NoDup_seq|]. simpl.
    pose proof (view_seq v0) as Hvs. unfold v0 in Hvs at 2.
    by rewrite length_replicate in Hvs. }
  pose proof (solve_board_denotes fuel size _ _ Hd0) as Hsim. rewrite Hrun in Hsim.
  destruct (solve_board fuel size v0) as [[f' v1]|e] eqn:Hrun'; [|done].
  destruct Hsim as (Hf & Hb1 & Hnd1 & Hv1). simpl in Hf, Hb1, Hnd1, Hv1. subst f'.
  rewrite Hb1 in Hv1. unfold denotes. simpl in Hv1, Hrun0 |- *.
  pose proof (solve_board_post _ _ _ _ _ Hsq (is_grid_blank size) Hrun') as Hpost.
  assert (NoDup (seq 0 size)) as Hnd by apply NoDup_seq.
  destruct f.
  - destruct Hpost as (Hg1 & Hne & Hag & Hnew & Hcons).
    assert (completion size v1 v1) as Hsol.
    { split; [done|]. split; [done|]. split; [|split].
      - eapply clue_range; [|done..]. intros r c _ _. unfold v0. rewrite cell_blank. lia.
      - apply Hcons. intros r c r' c' _ _ _ _ _ _ Hnz. destruct Hnz. apply cell_blank.
      - by intros r c _ _ _. }
    destruct (remove_loop_exact _ _ _ _ _ Hsq Hnd _ _ _ _ _ Hv1 Hg1 Hsol Hrun0)
      as (p & Hvp & Hgp & Hsolp & _ & Hcount).
    exists p, v1. split; [done|]. split; [apply length_seq|]. split; [done|].
    split; [done|].
    rewrite Hcount, (empties_full v1); [done|]. by apply (no_empty_full size).
  - destruct Hpost as [-> _]. unfold remove_numbers in Hrun0.
    assert (∃ n, num_to_remove size = S n) as [n Hn].
    { unfold num_to_remove. destruct (decide _); eauto. }
    rewrite Hn in Hrun0. simpl in Hrun0. inv_bind Hrun0. destruct a as [h1 rng1].
    destruct (remove_one_step _ _ _ _ _ _ _ _ Hnd Hv1 Hrun1)
      as (r & c & row & v & _ & _ & Hr & Hc & Hnz & _).
    apply lookup_replicate in Hr as [-> _]. apply lookup_replicate in Hc as [-> _]. done.
Qed.

(** A grid that a valid full grid completes is itself within range and
    free of repeats. *)
Lemma completion_clues size (p sol : Board) :
  is_grid size p → completion size p sol → in_range size p ∧ consistent size p.
Proof.
  intros Hg (_ & Hne & Hrange & Hcons & Hag). split.
  - intros r c Hr Hc. destruct (decide (cell p r c = 0%Z)) as [->|Hnz]; [lia|].
    rewrite <- (Hag r c Hr Hc Hnz). by apply Hrange.
  - intros r c r' c' Hr Hc Hr' Hc' Hne' Hpeer Hnz.
    destruct (decide (cell p r' c' = 0%Z)) as [Hz|Hnz']; [congruence|].
    rewrite <- (Hag r c Hr Hc Hnz), <- (Hag r' c' Hr' Hc' Hnz').
    apply Hcons; [done..|]. rewrite (Hag r c Hr Hc Hnz). done.
Qed.

(** X8.  For a perfect-square size, the board [generate_board] returns is
    a size x size grid with at least one solution and exactly
    [num_to_remove] empty cells: the uniqueness probe succeeds on every
    cleared cell, so no cell is ever restored. *)
Theorem generate_board_solvable fuel size rng g rng' :
  box_size size * box_size size = size →
  generate_board fuel size rng = Ok (g, rng') →
  ∃ p sol, view g.1 g.2 = Some p ∧ is_grid size p ∧ solution_of size p sol
           ∧ empties p = num_to_remove size.
Proof.
  intros Hsq H.
  destruct (generate_board_grid _ _ _ _ _ Hsq H) as (p & sol & [_ Hv] & _ & Hg & Hsol & Hn).
  exists p, sol. split; [done|]. split; [done|]. split; [by apply completion_iff|done].
Qed.

Lemma generate_board_solvable_witness :
  ∃ g rng',
    generate_board 17 4 (replay picks4) = Ok (g, rng')
    ∧ ∃ p sol, view g.1 g.2 = Some p ∧ is_grid 4 p ∧ solution_of 4 p sol
               ∧ empties p = num_to_remove 4.
Proof.
  destruct (generate_board 17 4 (replay picks4)) as [[g rng']|e] eqn:Hrun.
  - exists g, rng'. split; [reflexivity|].
    exact (generate_board_solvable 17 4 (replay picks4) g rng' eq_refl Hrun).
  - vm_compute in Hrun. discriminate Hrun.
Defined.

(** X21.  The way the game uses the two: [SudokuSolverDFS] on the board
    [generate_board] returned solves it.  [solve] returns True with the
    counter at 1 and leaves, in the rows of that same board, a complete
    valid grid that keeps the clues. *)
Theorem solver_solves_generated fuel fuel' size rng g rng' :
  box_size size * box_size size = size →
  generate_board fuel size rng = Ok (g, rng') →
  num_to_remove size < fuel' →
  ∃ p s' sol,
    view g.1 g.2 = Some p
    ∧ solve fuel' (init g) = Ok (true, s')
    ∧ (board s').2 = g.2 ∧ num_solutions s' = 1
    ∧ view (board s').1 (board s').2 = Some sol
    ∧ solution_of size p sol.
Proof.
  intros Hsq H Hfuel.
  destruct (generate_board_grid _ _ _ _ _ Hsq H)
    as (p & sol0 & Hd & Hlen & Hg & Hsol0 & Hn).
  destruct (completion_clues size p sol0 Hg Hsol0) as [Hrange Hcons].
  destruct (solve_board_ok size Hsq fuel' p Hg ltac:(lia)) as (found & sol & Hrun & Hpost).
  pose proof (solve_board_denotes fuel' size g p Hd) as Hsim. rewrite Hrun in Hsim.
  destruct (solve_board fuel' size g) as [[f g']|e] eqn:Hrun'; [|done].
  destruct Hsim as (Hf & Hb & _ & Hv'). simpl in Hf, Hb, Hv'. subst f.
  destruct found; [|destruct Hpost as [_ Hno]; destruct (Hno sol0 Hsol0)].
  destruct Hpost as (Hg' & Hne & Hag & Hnew & Hcons').
  exists p, {| board := g'; size := size; num_solutions := 1 |}, sol.
  split; [apply Hd|]. split.
  { rewrite solve_as_solve_board. unfold as_solver, init. cbn [board Sudoku.size num_solutions].
    change (grid_len g) with (length g.2). rewrite Hlen, Hrun'. done. }
  split; [done|]. split; [done|]. split; [done|].
  apply completion_iff; [done|]. split; [done|]. split; [done|]. split; [|split; [|done]].
  - by eapply clue_range.
  - by apply Hcons'.
Qed.

Lemma solver_solves_generated_witness :
  ∃ g rng',
    generate_board 17 4 (replay picks4) = Ok (g, rng')
    ∧ ∃ p s' sol,
        view g.1 g.2 = Some p
        ∧ solve 5 (init g) = Ok (true, s')
        ∧ (board s').2 = g.2 ∧ num_solutions s' = 1
        ∧ view (board s').1 (board s').2 = Some sol
        ∧ solution_of 4 p sol.
Proof.
  destruct (generate_board 17 4 (replay picks4)) as [[g rng']|e] eqn:Hrun.
  - exists g, rng'. split; [reflexivity|].
    apply (solver_solves_generated 17 5 4 (replay picks4) g rng' eq_refl Hrun).
    vm_compute. lia.
  - vm_compute in Hrun. discriminate Hrun.
Defined.

End SudokuSearchFacts.

(** * Further properties: carving a maze *)

Module MazeCarvingFacts.
Import MazeGrid MazeGenerator MazeGridFacts MazeGeneratorFacts MazeCarving.
Import MazeSolverDFS(cell_at, open_cell, adjacent, reachable, reach_here, reach_step).

Lemma cell_at_in (m : list (list ascii)) (r c : Z) :
  (0 ≤ r)%Z → (0 ≤ c)%Z → cell_at m (r, c) = at_pos m (Z.to_nat r) (Z.to_nat c).
Proof. intros Hr Hc. unfold cell_at. simpl. by rewrite !bool_decide_eq_true_2 by done. Qed.

Lemma write_cell g (r c : Z) v :
  gen_wf g → (0 ≤ r < Z.of_nat (rows g))%Z → (0 ≤ c < Z.of_nat (cols g))%Z →
  ∃ g', write g r c v = Ok g' ∧ gen_wf g' ∧ rows g' = rows g ∧ cols g' = cols g
        ∧ directions g' = directions g
        ∧ ∀ p, cell_at (maze g') p
               = if decide (p = (r, c)) then Some v else cell_at (maze g) p.
Proof.
  intros Hwf Hr Hc. unfold write.
  destruct (cell_set_dims (maze g) _ _ r c v Hwf Hr Hc) as (row & Hrow & Hlen & ->).
  simpl. eexists. split; [done|]. unfold gen_wf. simpl.
  split; [by apply dims_insert|]. split; [done|]. split; [done|]. split; [done|].
  intros [pr pc]. unfold cell_at. simpl.
  destruct (bool_decide (0 ≤ pr)%Z && bool_decide (0 ≤ pc)%Z) eqn:Hb.
  - apply andb_true_iff in Hb as [H1%bool_decide_eq_true H2%bool_decide_eq_true].
    rewrite (at_pos_insert _ _ _ _ _ _ _ Hrow).
    destruct (decide ((pr, pc) = (r, c))) as [[= -> ->]|Hne].
    + rewrite decide_True; [done|]. split; [done|]. split; [done|lia].
    + rewrite decide_False; [done|]. intros (H3 & H4 & _). apply Hne. f_equal; lia.
  - destruct (decide ((pr, pc) = (r, c))) as [[= -> ->]|Hne]; [|done].
    apply andb_false_iff in Hb as [Hb%bool_decide_eq_false|Hb%bool_decide_eq_false]; lia.
Qed.

Lemma swap_known {A} (P : A → Prop) (l : list A) i j :
  Forall P l → Forall P (swap l i j).
Proof.
  intros Hl. unfold swap.
  destruct (l !! i) as [a|] eqn:Ha; [|done]. destruct (l !! j) as [b|] eqn:Hb; [|done].
  apply Forall_insert; [apply Forall_insert; [done|]|].
  - exact (Forall_lookup_1 _ _ _ _ Hl Hb).
  - exact (Forall_lookup_1 _ _ _ _ Hl Ha).
Qed.

Lemma shuffle_from_known {A} (P : A → Prop) i : ∀ (l : list A) rng,
  Forall P l → Forall P (shuffle_from i l rng).1.
Proof.
  induction i as [|i IH]; intros l rng Hl; [done|]. simpl. apply IH. by apply swap_known.
Qed.

Lemma shuffle_known {A} (P : A → Prop) (l : list A) rng :
  Forall P l → Forall P (shuffle l rng).1.
Proof. apply shuffle_from_known. Qed.

Lemma reachable_grows m m' s p :
  (∀ q, open_cell m q → open_cell m' q) → reachable m s p → reachable m' s p.
Proof.
  intros Hg. induction 1 as [Ho|q r Hq IH Hadj Ho].
  - apply reach_here. by apply Hg.
  - eapply reach_step; [exact IH|done|]. by apply Hg.
Qed.

Lemma keeps_refl s g : gen_wf g → known_directions g → keeps s g g.
Proof.
  intros Hwf Hd. split; [done|]. split; [done|]. split; [done|]. split; [done|].
  split; [done|]. split; [done|]. by left.
Qed.

Lemma keeps_trans s g1 g2 g3 : keeps s g1 g2 → keeps s g2 g3 → keeps s g1 g3.
Proof.
  intros (_ & Hr1 & Hc1 & _ & Hp1 & Ho1 & Hs1) (Hwf & Hr2 & Hc2 & Hd & Hp2 & Ho2 & Hs2).
  split; [done|]. split; [congruence|]. split; [congruence|]. split; [done|].
  split; [|split].
  - intros p Hp. rewrite <- (Hp1 p Hp). apply Hp2.
    destruct Hp as [Hp|[Hroom Hnw]]; [by left|]. right. split; [done|].
    rewrite Hp1; [done|]. by right.
  - auto.
  - intros p. destruct (Hs2 p) as [Heq|Hsp]; [|by right]. rewrite Heq. apply Hs1.
Qed.

Lemma ready_keeps s g g' p :
  ready s g p → keeps s g g' → linked s (maze g') → ready s g' p.
Proof.
  intros (_ & Hr & Hc & Hroom & _ & Hreach & _) (Hwf & Hr' & Hc' & Hd & _ & Hgrow & _) Hl.
  split; [done|]. rewrite Hr', Hc'. split; [done|]. split; [done|]. split; [done|].
  split; [done|]. split; [|done]. by eapply reachable_grows.
Qed.

Lemma direction_shape (d : Coord) :
  d ∈ four_directions →
  (d.1 = 0 ∧ (d.2 = 1 ∨ d.2 = -1))%Z ∨ (d.2 = 0 ∧ (d.1 = 1 ∨ d.1 = -1))%Z.
Proof.
  unfold four_directions. rewrite !elem_of_cons, elem_of_nil.
  intros [->|[->|[->|[->|[]]]]]; simpl; lia.
Qed.

(** Carving the corridor and the room behind it in direction [d]. *)
Lemma carve_step s g row col (d : Coord) :
  ready s g (row, col) → d ∈ four_directions →
  (0 ≤ row + 2 * d.1 < Z.of_nat (rows g))%Z → (0 ≤ col + 2 * d.2 < Z.of_nat (cols g))%Z →
  cell_at (maze g) ((row + 2 * d.1)%Z, (col + 2 * d.2)%Z) = Some wall →
  ∃ g1 g2,
    write g (row + d.1) (col + d.2) " " = Ok g1
    ∧ write g1 (row + 2 * d.1) (col + 2 * d.2) " " = Ok g2
    ∧ keeps s g g2 ∧ ready s g2 ((row + 2 * d.1)%Z, (col + 2 * d.2)%Z).
Proof.
  intros (Hwf & Hr & Hc & [Hroom1 Hroom2] & Hd & Hreach & Hlinked) Hdir Hnr Hnc Hwall.
  simpl in Hr, Hc, Hroom1, Hroom2.
  pose proof (direction_shape d Hdir) as Hshape.
  destruct (write_cell g (row + d.1) (col + d.2) " " Hwf ltac:(lia) ltac:(lia))
    as (g1 & Hw1 & Hwf1 & Hr1 & Hc1 & Hd1 & Hcell1).
  destruct (write_cell g1 (row + 2 * d.1) (col + 2 * d.2) " " Hwf1 ltac:(lia) ltac:(lia))
    as (g2 & Hw2 & Hwf2 & Hr2 & Hc2 & Hd2 & Hcell2).
  exists g1, g2. split; [done|]. split; [done|].
  set (x := ((row + d.1)%Z, (col + d.2)%Z)) in *.
  set (y := ((row + 2 * d.1)%Z, (col + 2 * d.2)%Z)) in *.
  assert (∀ p, cell_at (maze g2) p
               = if decide (p = y) then Some " "%char
                 else if decide (p = x) then Some " "%char else cell_at (maze g) p) as Hcell.
  { intros p. rewrite Hcell2. destruct (decide (p = y)); [done|]. apply Hcell1. }
  assert (∀ p, open_cell (maze g) p → open_cell (maze g2) p) as Hgrow.
  { intros p (v & Hv & Hnw). unfold open_cell. rewrite Hcell.
    destruct (decide (p = y)); [by eauto using space_not_wall|].
    destruct (decide (p = x)); [by eauto using space_not_wall|]. eauto. }
  assert (keeps s g g2) as Hkeeps.
  { split; [done|]. split; [congruence|]. split; [congruence|].
    split; [unfold known_directions; by rewrite Hd2, Hd1|].
    split; [|split; [done|]].
    - intros p Hp. rewrite Hcell.
      destruct (decide (p = y)) as [->|_].
      { destruct Hp as [[Hp1 Hp2]|[_ Hp]]; [|done]. unfold y in Hp1, Hp2. simpl in Hp1, Hp2.
        exfalso. Z.div_mod_to_equations. lia. }
      destruct (decide (p = x)) as [->|_]; [|done].
      exfalso. unfold x in Hp. destruct Hp as [[Hp1 Hp2]|[[Hp1 Hp2] _]]; simpl in Hp1, Hp2;
        Z.div_mod_to_equations; lia.
    - intros p. rewrite Hcell. destruct (decide (p = y)); [by right|].
      destruct (decide (p = x)); [by right|by left]. }
  split; [done|].
  assert (open_cell (maze g2) x) as Hox.
  { exists " "%char. split; [|exact space_not_wall]. rewrite Hcell.
    destruct (decide (x = y)); [done|]. by rewrite decide_True. }
  assert (open_cell (maze g2) y) as Hoy.
  { exists " "%char. split; [|exact space_not_wall]. rewrite Hcell. by rewrite decide_True. }
  assert (reachable (maze g2) s (row, col)) as Hreach2 by (by eapply reachable_grows).
  assert (reachable (maze g2) s x) as Hrx.
  { eapply reach_step; [exact Hreach2| |done]. unfold adjacent, x. simpl. lia. }
  assert (reachable (maze g2) s y) as Hry.
  { eapply reach_step; [exact Hrx| |done]. unfold adjacent, x, y. simpl. lia. }
  split; [done|]. rewrite Hr2, Hr1, Hc2, Hc1. split; [done|]. split; [done|].
  split; [unfold room, y; simpl; split; Z.div_mod_to_equations; lia|].
  split; [unfold known_directions; by rewrite Hd2, Hd1|]. split; [done|].
  intros p Hp. rewrite Hcell in Hp.
  destruct (decide (p = y)) as [->|_]; [done|].
  destruct (decide (p = x)) as [->|_]; [done|].
  eapply reachable_grows; [done|]. by apply Hlinked.
Qed.

Section CarveInvariant.
Variable s : Coord.
Variable rec : Generator → Z → Z → Oracle → result (Generator * Oracle).
Hypothesis rec_keeps : ∀ g row col rng g' rng',
  ready s g (row, col) → rec g row col rng = Ok (g', rng') →
  keeps s g g' ∧ linked s (maze g').

Lemma dfs_loop_keeps row col : ∀ n k g rng g' rng',
  ready s g (row, col) → dfs_loop rec n k g row col rng = Ok (g', rng') →
  keeps s g g' ∧ linked s (maze g').
Proof.
  induction n as [|n IH]; intros k g rng g' rng' Hready H; simpl in H.
  { injection H as <- <-. destruct Hready as (Hwf & _ & _ & _ & Hd & _ & Hl).
    split; [by apply keeps_refl|done]. }
  destruct (directions g !! k) as [[dr dc]|] eqn:Hk.
  2:{ injection H as <- <-. destruct Hready as (Hwf & _ & _ & _ & Hd & _ & Hl).
      split; [by apply keeps_refl|done]. }
  assert ((dr, dc) ∈ four_directions) as Hdir.
  { destruct Hready as (_ & _ & _ & _ & Hd & _). exact (Forall_lookup_1 _ _ _ _ Hd Hk). }
  pose proof Hready as (Hwf & Hr & Hc & _).
  destruct (is_valid_move_ok g (row + 2 * dr) (col + 2 * dc) Hwf) as (ok & Hok & Hvalid).
  rewrite Hok in H. simpl in H. destruct ok; [|by eapply IH].
  destruct (Hvalid eq_refl) as (Hnr & Hnc & Hwall).
  rewrite <- cell_at_in in Hwall by lia.
  destruct (carve_step s g row col (dr, dc) Hready Hdir Hnr Hnc Hwall)
    as (g1 & g2 & Hw1 & Hw2 & Hk2 & Hready2).
  simpl in Hw1, Hw2. rewrite Hw1 in H. simpl in H. rewrite Hw2 in H. simpl in H.
  inv_bind H. destruct a as [g3 rng3].
  destruct (rec_keeps _ _ _ _ _ _ Hready2 Hrun) as [Hk3 Hl3].
  pose proof (keeps_trans _ _ _ _ Hk2 Hk3) as Hk03.
  destruct (IH _ _ _ _ _ (ready_keeps _ _ _ _ Hready Hk03 Hl3) H) as [Hk4 Hl4].
  split; [by eapply keeps_trans|done].
Qed.
End CarveInvariant.

Lemma dfs_keeps s fuel : ∀ g row col rng g' rng',
  ready s g (row, col) → dfs fuel g row col rng = Ok (g', rng') →
  keeps s g g' ∧ linked s (maze g').
Proof.
  induction fuel as [|fuel IH]; intros g row col rng g' rng' Hready H; [done|].
  cbn [dfs] in H. pose proof (shuffle_known (λ d, d ∈ four_directions) (directions g) rng) as Hsh.
  destruct (shuffle (directions g) rng) as [ds rng1]. simpl in Hsh.
  destruct Hready as (Hwf & Hr & Hc & Hroom & Hd & Hreach & Hl).
  set (g0 := {| rows := rows g; cols := cols g; maze := maze g;
                directions := ds; trace := trace g |}) in *.
  assert (ready s g0 (row, col)) as Hready0.
  { split; [done|]. split; [done|]. split; [done|]. split; [done|]. split; [by apply Hsh|].
    done. }
  destruct (dfs_loop_keeps s (dfs fuel) IH row col _ _ _ _ _ _ Hready0 H)
    as [(Hwf' & Hr' & Hc' & Hd' & Hp' & Ho' & Hs') Hl'].
  split; [|done]. split; [done|]. split; [done|]. split; [done|]. split; [done|].
  split; [done|]. split; done.
Qed.

Lemma cell_at_new rows cols (p : Coord) :
  cell_at (maze (new rows cols)) p
  = if bool_decide (0 ≤ p.1 < Z.of_nat rows)%Z && bool_decide (0 ≤ p.2 < Z.of_nat cols)%Z
    then Some wall else None.
Proof.
  unfold cell_at, new, at_pos. simpl.
  destruct (bool_decide (0 ≤ p.1)%Z) eqn:H1; simpl.
  2:{ apply bool_decide_eq_false in H1. rewrite bool_decide_eq_false_2 by lia. done. }
  apply bool_decide_eq_true in H1.
  destruct (bool_decide (0 ≤ p.2)%Z) eqn:H2; simpl.
  2:{ apply bool_decide_eq_false in H2. rewrite (bool_decide_eq_false_2 (_ ≤ p.2 < _)%Z) by lia.
      by rewrite andb_false_r. }
  apply bool_decide_eq_true in H2.
  destruct (decide (Z.to_nat p.1 < rows)) as [Hr|Hr].
  - rewrite lookup_replicate_2 by done. simpl. rewrite bool_decide_eq_true_2 by lia. simpl.
    destruct (decide (Z.to_nat p.2 < cols)) as [Hc|Hc].
    + rewrite lookup_replicate_2 by done. by rewrite bool_decide_eq_true_2 by lia.
    + rewrite (proj1 (lookup_replicate_None _ _ _)) by lia. by rewrite bool_decide_eq_false_2 by lia.
  - rewrite (proj1 (lookup_replicate_None _ _ _)) by lia. simpl. by rewrite bool_decide_eq_false_2 by lia.
Qed.

(** [generate_maze] up to the call of [dfs]: the two marks are written on
    the grid of walls, and the carving starts from a state it keeps. *)
Lemma generate_maze_keeps fuel rows cols sr sc er ec rng g' rng' :
  (0 ≤ sr < Z.of_nat rows)%Z → (0 ≤ sc < Z.of_nat cols)%Z →
  (0 ≤ er < Z.of_nat rows)%Z → (0 ≤ ec < Z.of_nat cols)%Z →
  generate_maze fuel (new rows cols) sr sc er ec rng = Ok (g', rng') →
  ∃ g2, keeps (sr, sc) g2 g' ∧ linked (sr, sc) (maze g')
        ∧ rows = MazeGenerator.rows g2 ∧ cols = MazeGenerator.cols g2
        ∧ ∀ p, cell_at (maze g2) p
               = if decide (p = (er, ec)) then Some "E"%char
                 else if decide (p = (sr, sc)) then Some "S"%char
                 else cell_at (maze (new rows cols)) p.
Proof.
  intros Hsr Hsc Her Hec H. unfold generate_maze in H.
  assert (gen_wf (new rows cols)) as Hwf by apply dims_replicate.
  destruct (write_cell (new rows cols) sr sc "S" Hwf Hsr Hsc)
    as (g1 & Hw1 & Hwf1 & Hr1 & Hc1 & Hd1 & Hcell1).
  rewrite Hw1 in H. simpl in H, Hr1, Hc1.
  destruct (write_cell g1 er ec "E" Hwf1 ltac:(lia) ltac:(lia))
    as (g2 & Hw2 & Hwf2 & Hr2 & Hc2 & Hd2 & Hcell2).
  rewrite Hw2 in H. simpl in H.
  assert (∀ p, cell_at (maze g2) p
               = if decide (p = (er, ec)) then Some "E"%char
                 else if decide (p = (sr, sc)) then Some "S"%char
                 else cell_at (maze (new rows cols)) p) as Hcell.
  { intros p. rewrite Hcell2. destruct (decide (p = (er, ec))); [done|]. apply Hcell1. }
  assert (ready (sr, sc) g2 (sr, sc)) as Hready.
  { split; [done|]. rewrite Hr2, Hr1, Hc2, Hc1. split; [done|]. split; [done|].
    split; [unfold room; simpl; split; Z.div_mod_to_equations; lia|].
    split. { unfold known_directions. rewrite Hd2, Hd1. simpl. by apply Forall_forall. }
    split.
    - apply reach_here. unfold open_cell. rewrite Hcell.
      destruct (decide _); [by eexists|]. rewrite decide_True by done. by eexists.
    - intros p Hp. rewrite Hcell in Hp. destruct (decide _); [done|].
      destruct (decide _); [done|]. rewrite cell_at_new in Hp.
      by destruct (_ && _). }
  destruct (dfs_keeps _ _ _ _ _ _ _ _ Hready H) as [Hk Hl].
  exists g2. split; [done|]. split; [done|]. split; [congruence|]. split; [congruence|done].
Qed.

(** X9.  For a start and an end inside the grid, [generate_maze] on a new
    generator returns for every random source, with a recursion depth of at
    most the number of cells, and the maze keeps its dimensions. *)
Theorem generate_maze_total fuel rows cols sr sc er ec rng :
  (0 ≤ sr < Z.of_nat rows)%Z → (0 ≤ sc < Z.of_nat cols)%Z →
  (0 ≤ er < Z.of_nat rows)%Z → (0 ≤ ec < Z.of_nat cols)%Z →
  rows * cols < fuel →
  ∃ g' rng', generate_maze fuel (new rows cols) sr sc er ec rng = Ok (g', rng')
             ∧ dims (maze g') rows cols.
Proof.
  intros Hsr Hsc Her Hec Hfuel. unfold generate_maze.
  assert (gen_wf (new rows cols)) as Hwf by apply dims_replicate.
  assert (walls (new rows cols) = rows * cols) as Hw
    by (by apply (count_cells_replicate (λ c, c = wall))).
  destruct (write_ok (new rows cols) sr sc "S" Hwf Hsr Hsc ltac:(discriminate))
    as (g1 & -> & Hs1 & _). simpl.
  pose proof Hs1 as (Hwf1 & Hr1 & Hc1 & Hw1). simpl in Hr1, Hc1.
  destruct (write_ok g1 er ec "E" Hwf1 ltac:(lia) ltac:(lia) ltac:(discriminate))
    as (g2 & -> & Hs2 & _). simpl.
  pose proof Hs2 as (Hwf2 & Hr2 & Hc2 & Hw2).
  destruct (dfs_returns fuel g2 sr sc rng Hwf2 ltac:(lia) ltac:(lia) ltac:(lia))
    as (g' & rng' & -> & Hwf' & Hr' & Hc' & _).
  exists g', rng'. split; [done|]. unfold gen_wf in Hwf'. by rewrite Hr', Hr2, Hr1, Hc', Hc2, Hc1 in Hwf'.
Qed.

Lemma generate_maze_total_witness :
  ∃ g' rng', generate_maze 201 (new 10 20) 0 1 9 18 (replay []) = Ok (g', rng')
             ∧ dims (maze g') 10 20.
Proof.
  apply (generate_maze_total 201 10 20 0 1 9 18 (replay [])); lia.
Defined.

(** X10.  The start keeps its 'S' when the end is another cell, and the end
    keeps its 'E' when its row offset and its column offset from the start
    have the same parity. *)
Theorem generate_maze_marks fuel rows cols sr sc er ec rng g' rng' :
  (0 ≤ sr < Z.of_nat rows)%Z → (0 ≤ sc < Z.of_nat cols)%Z →
  (0 ≤ er < Z.of_nat rows)%Z → (0 ≤ ec < Z.of_nat cols)%Z →
  generate_maze fuel (new rows cols) sr sc er ec rng = Ok (g', rng') →
  ((sr, sc) ≠ (er, ec) → cell_at (maze g') (sr, sc) = Some "S"%char)
  ∧ (((er - sr) `mod` 2 = (ec - sc) `mod` 2)%Z →
     cell_at (maze g') (er, ec) = Some "E"%char).
Proof.
  intros Hsr Hsc Her Hec H.
  destruct (generate_maze_keeps _ _ _ _ _ _ _ _ _ _ Hsr Hsc Her Hec H)
    as (g2 & (_ & _ & _ & _ & Hp & _ & _) & _ & _ & _ & Hcell).
  split.
  - intros Hne. rewrite Hp, Hcell.
    + rewrite decide_False by done. by rewrite decide_True.
    + right. split; [unfold room; simpl; split; Z.div_mod_to_equations; lia|].
      rewrite Hcell. rewrite decide_False by done. by rewrite decide_True.
  - intros Hpar. rewrite Hp, Hcell; [by rewrite decide_True|].
    assert (cell_at (maze g2) (er, ec) ≠ Some wall) as Hnw
      by (rewrite Hcell; by rewrite decide_True).
    unfold protected, pillar, room. simpl.
    assert (((er - sr) `mod` 2 = 0 ∨ (er - sr) `mod` 2 = 1)%Z) as [H0|H1]
      by (Z.div_mod_to_equations; lia).
    + right. split; [|done]. split; [done|congruence].
    + left. split; [done|congruence].
Qed.

Lemma generate_maze_marks_witness :
  ∃ g' rng', generate_maze 201 (new 10 20) 0 1 9 18 (replay []) = Ok (g', rng')
    ∧ (((0, 1)%Z ≠ (9, 18)%Z → cell_at (maze g') (0, 1)%Z = Some "S"%char)
       ∧ (((9 - 0) `mod` 2 = (18 - 1) `mod` 2)%Z →
          cell_at (maze g') (9, 18)%Z = Some "E"%char)).
Proof.
  destruct (generate_maze 201 (new 10 20) 0 1 9 18 (replay [])) as [[g' rng']|e] eqn:Hrun.
  - exists g', rng'. split; [reflexivity|].
    apply (generate_maze_marks 201 10 20 0 1 9 18 (replay []) g' rng'); [lia..|exact Hrun].
  - vm_compute in Hrun. discriminate Hrun.
Defined.

(** X11.  A cell at an odd row offset and an odd column offset from the
    start is never carved: unless it is the end, it is a wall in the
    generated maze. *)
Theorem generate_maze_pillars fuel rows cols sr sc er ec rng g' rng' (p : Coord) :
  (0 ≤ sr < Z.of_nat rows)%Z → (0 ≤ sc < Z.of_nat cols)%Z →
  (0 ≤ er < Z.of_nat rows)%Z → (0 ≤ ec < Z.of_nat cols)%Z →
  generate_maze fuel (new rows cols) sr sc er ec rng = Ok (g', rng') →
  (0 ≤ p.1 < Z.of_nat rows)%Z → (0 ≤ p.2 < Z.of_nat cols)%Z →
  pillar (sr, sc) p → p ≠ (er, ec) →
  cell_at (maze g') p = Some wall.
Proof.
  intros Hsr Hsc Her Hec H Hp1 Hp2 Hpil Hne.
  destruct (generate_maze_keeps _ _ _ _ _ _ _ _ _ _ Hsr Hsc Her Hec H)
    as (g2 & (_ & _ & _ & _ & Hp & _ & _) & _ & _ & _ & Hcell).
  rewrite Hp by (by left). rewrite Hcell. rewrite decide_False by done.
  rewrite decide_False.
  - rewrite cell_at_new. by rewrite !bool_decide_eq_true_2 by done.
  - intros ->. destruct Hpil as [Hpil _]. simpl in Hpil. Z.div_mod_to_equations. lia.
Qed.

Lemma generate_maze_pillars_witness :
  ∃ g' rng', generate_maze 201 (new 10 20) 0 1 9 18 (replay []) = Ok (g', rng')
    ∧ cell_at (maze g') (1, 2)%Z = Some wall.
Proof.
  destruct (generate_maze 201 (new 10 20) 0 1 9 18 (replay [])) as [[g' rng']|e] eqn:Hrun.
  - exists g', rng'. split; [reflexivity|].
    apply (generate_maze_pillars 201 10 20 0 1 9 18 (replay []) g' rng' (1, 2)%Z);
      [lia..|exact Hrun|simpl; lia|simpl; lia|split; reflexivity|discriminate].
  - vm_compute in Hrun. discriminate Hrun.
Defined.

(** X12.  Every cell the carving opened is connected to the start: from the
    start one reaches it by cardinal steps through cells that are no wall. *)
Theorem generate_maze_linked fuel rows cols sr sc er ec rng g' rng' (p : Coord) :
  (0 ≤ sr < Z.of_nat rows)%Z → (0 ≤ sc < Z.of_nat cols)%Z →
  (0 ≤ er < Z.of_nat rows)%Z → (0 ≤ ec < Z.of_nat cols)%Z →
  generate_maze fuel (new rows cols) sr sc er ec rng = Ok (g', rng') →
  cell_at (maze g') p = Some " "%char →
  reachable (maze g') (sr, sc) p.
Proof.
  intros Hsr Hsc Her Hec H Hp.
  destruct (generate_maze_keeps _ _ _ _ _ _ _ _ _ _ Hsr Hsc Her Hec H)
    as (g2 & _ & Hl & _). by apply Hl.
Qed.

Lemma generate_maze_linked_witness :
  ∃ g' rng', generate_maze 10 (new 3 3) 0 0 2 2 (replay []) = Ok (g', rng')
    ∧ cell_at (maze g') (0, 2)%Z = Some " "%char
    ∧ reachable (maze g') (0, 0)%Z (0, 2)%Z.
Proof.
  destruct (generate_maze 10 (new 3 3) 0 0 2 2 (replay [])) as [[g' rng']|e] eqn:Hrun.
  - exists g', rng'. split; [reflexivity|].
    assert (cell_at (maze g') (0, 2)%Z = Some " "%char) as Hcell.
    { vm_compute in Hrun. injection Hrun as <- _. reflexivity. }
    split; [exact Hcell|].
    apply (generate_maze_linked 10 3 3 0 0 2 2 (replay []) g' rng' (0, 2)%Z);
      [lia..|exact Hrun|exact Hcell].
  - vm_compute in Hrun. discriminate Hrun.
Defined.

(** X22.  The marks are where they were put: in the generated maze 'E'
    appears at most at the end cell and 'S' at most at the start cell. *)
Theorem generate_maze_one_end fuel rows cols sr sc er ec rng g' rng' (p : Coord) :
  (0 ≤ sr < Z.of_nat rows)%Z → (0 ≤ sc < Z.of_nat cols)%Z →
  (0 ≤ er < Z.of_nat rows)%Z → (0 ≤ ec < Z.of_nat cols)%Z →
  generate_maze fuel (new rows cols) sr sc er ec rng = Ok (g', rng') →
  (cell_at (maze g') p = Some "E"%char → p = (er, ec))
  ∧ (cell_at (maze g') p = Some "S"%char → p = (sr, sc)).
Proof.
  intros Hsr Hsc Her Hec H.
  destruct (generate_maze_keeps _ _ _ _ _ _ _ _ _ _ Hsr Hsc Her Hec H)
    as (g2 & (_ & _ & _ & _ & _ & _ & Hs) & _ & _ & _ & Hcell).
  specialize (Hs p). rewrite Hcell in Hs. rewrite cell_at_new in Hs.
  split; intros Hp; rewrite Hp in Hs; destruct Hs as [Hs|Hs]; try done;
    destruct (decide (p = (er, ec))); try done;
    destruct (decide (p = (sr, sc))); try done;
    by destruct (_ && _).
Qed.

Lemma generate_maze_one_end_witness :
  ∃ g' rng', generate_maze 10 (new 3 3) 0 0 2 2 (replay []) = Ok (g', rng')
    ∧ (cell_at (maze g') (2, 2)%Z = Some "E"%char → (2, 2)%Z = (2, 2)%Z)
    ∧ (cell_at (maze g') (2, 2)%Z = Some "S"%char → (2, 2)%Z = (0, 0)%Z).
Proof.
  destruct (generate_maze 10 (new 3 3) 0 0 2 2 (replay [])) as [[g' rng']|e] eqn:Hrun.
  - exists g', rng'. split; [reflexivity|].
    apply (generate_maze_one_end 10 3 3 0 0 2 2 (replay []) g' rng' (2, 2)%Z);
      [lia..|exact Hrun].
  - vm_compute in Hrun. discriminate Hrun.
Defined.
End MazeCarvingFacts.

(** * Further properties: searching a maze *)

Module MazeSearchFacts.
Import MazeGrid MazeSolverDFS MazeGridFacts MazeSolverFacts MazeSearch.

Lemma entered_earlier s0 s s' x :
  advances s0 s → advances s s' → entered s s' x → entered s0 s' x.
Proof.
  intros (_ & Hsame & Hgrow & _) _ (Hp & Hns & Hs).
  split; [by apply (passable_same s0 s)|]. split; [|done]. intros H0. by apply Hns, Hgrow.
Qed.

Section SoundLoop.
Variable rec : Solver → Z → Z → result (bool * Solver).
Hypothesis rec_sound : ∀ s row col found s',
  wf s → rec s row col = Ok (found, s') → dfs_sound_post s (row, col) found s'.

Lemma dfs_loop_sound row col ds : ∀ s found s',
  wf s → dfs_loop rec s row col ds = Ok (found, s') →
  advances s s'
  ∧ if found
    then ∃ d, d ∈ ds ∧ sound_path s s' ((row + d.1)%Z, (col + d.2)%Z)
    else path s' = path s.
Proof.
  induction ds as [|[dr dc] ds IH]; intros s found s' Hwf H; simpl in H.
  - injection H as <- <-. split; [by apply advances_refl|done].
  - inv_bind H. destruct a as [f1 s1].
    destruct (rec_sound _ _ _ _ _ Hwf Hrun) as (Hadv1 & _ & Hpost1).
    destruct f1.
    + injection H as <- <-. split; [done|]. exists (dr, dc). split; [left|done].
    + pose proof Hadv1 as (Hwf1 & Hsame1 & _).
      destruct (IH _ _ _ Hwf1 H) as (Hadv2 & Hpost2).
      split; [by eapply advances_trans|]. destruct found; [|congruence].
      destruct Hpost2 as (d & Hd & q & Hq & Hstep & (e & Hlast & He) & Hent & Hnd).
      exists d. split; [by right|]. exists q. rewrite <- Hpost1. split; [done|].
      split; [done|]. split.
      { exists e. split; [done|]. destruct Hsame1 as (<- & _). done. }
      split; [|done]. eapply Forall_impl; [exact Hent|].
      intros x Hx. by eapply entered_earlier.
Qed.
End SoundLoop.

Lemma dfs_sound fuel : ∀ s row col found s',
  wf s → dfs fuel s row col = Ok (found, s') → dfs_sound_post s (row, col) found s'.
Proof.
  induction fuel as [|fuel IH]; intros s row col found s' Hwf H; [done|].
  cbn [dfs] in H.
  destruct (solver_valid_move_spec s row col Hwf) as (ok & Hok & Hspec).
  rewrite Hok in H. simpl in H. destruct ok; simpl in H.
  2:{ injection H as <- <-. split; [by apply advances_refl|]. split; [|done].
      intros Hpass. destruct (seen_dec s (row, col)) as [Hs|Hn]; [done|].
      destruct Hspec as [_ Hspec]. discriminate Hspec. done. }
  destruct Hspec as [Hspec _]. destruct (Hspec eq_refl) as [Hpass Hns]. clear Hspec.
  destruct (mark_cell s row col Hwf Hpass Hns) as (vis & Hvis & Hmark).
  rewrite Hvis in H. simpl in H.
  specialize (Hmark (path s ++ [(row, col)])).
  set (s1 := {| maze := maze s; rows := rows s; cols := cols s; visited := vis;
                directions := directions s; path := path s ++ [(row, col)] |}) in *.
  destruct Hmark as (Hwf1 & Hcount1 & Hseen1).
  assert (advances s s1) as Hadv1.
  { split; [done|]. split; [done|]. split; [|lia]. intros p Hp. apply Hseen1. by left. }
  assert (seen s1 (row, col)) as Hhere by (apply Hseen1; by right).
  pose proof Hpass as [[Hr Hc] (ch & Hch & Hnw)]. simpl in Hr, Hc, Hch.
  pose proof Hwf as (Hm & Hv & Hdirs).
  destruct (cell_get_dims _ _ _ row col Hm Hr Hc) as (ch' & Hget & Hch').
  rewrite Hget in H. simpl in H.
  assert (ch' = ch) as -> by congruence.
  assert (cell_at (maze s) (row, col) = Some ch) as Hcell.
  { unfold cell_at. simpl. by rewrite !bool_decide_eq_true_2 by lia. }
  case_bool_decide as HE.
  - injection H as <- <-. split; [done|]. split; [done|].
    exists []. split; [done|]. split; [done|]. split.
    { exists (row, col). split; [done|]. unfold is_end. by rewrite Hcell, HE. }
    split; [|apply NoDup_singleton]. constructor; [|constructor]. done.
  - inv_bind H. destruct a as [f2 s2].
    destruct (dfs_loop_sound (dfs fuel) IH row col _ _ _ _ Hwf1 Hrun) as (Hadv2 & Hpost2).
    pose proof (advances_trans _ _ _ Hadv1 Hadv2) as Hadv.
    assert (seen s2 (row, col)) as Hhere2 by (destruct Hadv2 as (_ & _ & Hg & _); auto).
    destruct f2.
    + injection H as <- <-. split; [done|]. split; [done|].
      destruct Hpost2 as (d & Hd & q & Hq & Hstep & (e & Hlast & He) & Hent & Hnd).
      exists (((row + d.1)%Z, (col + d.2)%Z) :: q). subst s1. simpl in *. split.
      { by rewrite Hq, <- app_assoc. }
      split.
      { split; [|done]. apply (adjacent_direction (row, col)). by rewrite <- Hdirs. }
      split; [by exists e|]. split.
      * constructor; [done|]. eapply Forall_impl; [exact Hent|].
        intros x (Hp & Hn & Hs). split; [done|]. split; [|done].
        intros Hsx. apply Hn. apply Hseen1. by left.
      * constructor; [|done]. intros Hin. rewrite Forall_forall in Hent.
        destruct (Hent _ Hin) as (_ & Hn & _). done.
    + assert (path s2 = path s ++ [(row, col)]) as Hp2 by (by rewrite Hpost2).
      rewrite Hp2, removelast_last in H.
      assert (∀ X (a b : X), match path s ++ [(row, col)] with
                             | [] => a | _ :: _ => b end = b) as Hmatch
        by (intros; by destruct (path s)).
      rewrite Hmatch in H. injection H as <- <-.
      pose proof Hadv as (Hw & Hsm & Hg & Hcn).
      split; [|split; [|done]].
      * split; [exact Hw|]. split; [exact Hsm|]. split; [exact Hg|exact Hcn].
      * intros _. exact Hhere2.
Qed.

Lemma passable_open s p : passable s p → open_cell (maze s) p.
Proof.
  intros [[Hr Hc] (ch & Hch & Hnw)]. exists ch. split; [|done].
  unfold cell_at. by rewrite !bool_decide_eq_true_2 by lia.
Qed.

Lemma walk_reachable m s0 : ∀ l a e,
  stepwise (a :: l) → Forall (open_cell m) (a :: l) → last (a :: l) = Some e →
  reachable m s0 a → reachable m s0 e.
Proof.
  induction l as [|b l IH]; intros a e Hstep Hopen Hlast Hreach.
  - injection Hlast as <-. done.
  - destruct Hstep as [Hadj Hstep]. apply Forall_cons in Hopen as [_ Hopen].
    apply (IH b e Hstep Hopen); [done|].
    eapply reach_step; [exact Hreach|done|]. by apply Forall_cons in Hopen as [Hb _].
Qed.

(** What a returned path is, for any recursion bound. *)
Lemma solve_returned_path fuel m s sr sc p s' :
  init m = Ok s → rectangular m →
  solve fuel s sr sc = Ok (Some p, s') →
  head p = Some (sr, sc) ∧ stepwise p
  ∧ (∃ e, last p = Some e ∧ cell_at m e = Some "E"%char)
  ∧ Forall (open_cell m) p ∧ NoDup p.
Proof.
  intros Hinit Hrect H.
  destruct (init_wf m s Hinit Hrect) as (Hwf & Hm & [Hpath _]).
  unfold solve in H.
  destruct (solver_valid_move_spec s sr sc Hwf) as (ok & Hok & _).
  rewrite Hok in H. simpl in H. destruct ok; [|done]. simpl in H.
  inv_bind H. destruct a as [found s2].
  destruct (dfs_sound _ _ _ _ _ _ Hwf Hrun) as (_ & _ & Hpost).
  destruct found; [|done]. injection H as <- <-.
  destruct Hpost as (q & Hq & Hstep & (e & Hlast & He) & Hent & Hnd).
  rewrite Hpath in Hq. simpl in Hq. rewrite Hq.
  split; [done|]. split; [done|]. split.
  { exists e. split; [done|]. by rewrite <- Hm. }
  split; [|done]. eapply Forall_impl; [exact Hent|].
  intros x (Hp & _). rewrite <- Hm. by apply passable_open.
Qed.

Lemma solve_returns fuel m s sr sc :
  init m = Ok s → rectangular m →
  length m * length (default [] (head m)) < fuel →
  ∃ r s', solve fuel s sr sc = Ok (r, s').
Proof.
  intros Hinit Hrect Hfuel.
  destruct (init_wf m s Hinit Hrect) as (Hwf & Hm & Hblank).
  pose proof (init_count m s Hinit) as Hcount. unfold solve.
  destruct (solver_valid_move_spec s sr sc Hwf) as (ok & -> & _). simpl.
  destruct ok; simpl; [|eauto].
  destruct (dfs_ok fuel s sr sc Hwf ltac:(lia)) as (found & s' & -> & _). simpl.
  destruct found; eauto.
Qed.

(** X13.  Whatever the recursion bound, a path returned by [solve] on a
    fresh solver starts at the start, advances by one cardinal step at a
    time, ends on an 'E' cell, passes only through cells that are no wall
    and visits no cell twice. *)
Theorem solve_path_sound fuel m s sr sc p s' :
  init m = Ok s → rectangular m →
  solve fuel s sr sc = Ok (Some p, s') →
  head p = Some (sr, sc) ∧ stepwise p
  ∧ (∃ e, last p = Some e ∧ cell_at m e = Some "E"%char)
  ∧ Forall (open_cell m) p ∧ NoDup p.
Proof. apply solve_returned_path. Qed.

Lemma solve_path_sound_witness :
  ∃ p s', solve 10 solver3 0 0 = Ok (Some p, s')
    ∧ head p = Some (0, 0)%Z ∧ stepwise p
    ∧ (∃ e, last p = Some e ∧ cell_at maze3 e = Some "E"%char)
    ∧ Forall (open_cell maze3) p ∧ NoDup p.
Proof.
  destruct (solve 10 solver3 0 0) as [[[p|] s']|e] eqn:Hrun.
  - exists p, s'. split; [reflexivity|].
    apply (solve_path_sound 10 maze3 solver3 0 0 p s'); [reflexivity| |exact Hrun].
    repeat constructor.
  - vm_compute in Hrun. discriminate Hrun.
  - vm_compute in Hrun. discriminate Hrun.
Defined.

(** X14.  On a rectangular maze [solve] raises nothing, whatever the start
    (also outside the maze), needs no deeper recursion than the number of
    cells plus one, and returns a path exactly when an 'E' cell can be
    reached from the start through cells that are no wall. *)
Theorem solve_decides fuel m s sr sc :
  init m = Ok s → rectangular m →
  length m * length (default [] (head m)) < fuel →
  ∃ r s', solve fuel s sr sc = Ok (r, s')
    ∧ (is_Some r ↔ ∃ e, reachable m (sr, sc) e ∧ cell_at m e = Some "E"%char).
Proof.
  intros Hinit Hrect Hfuel.
  destruct (init_wf m s Hinit Hrect) as (Hwf & Hm & Hblank).
  pose proof (init_count m s Hinit) as Hcount.
  unfold solve.
  destruct (solver_valid_move_spec s sr sc Hwf) as (ok & -> & Hok). simpl.
  destruct ok; simpl.
  - destruct (dfs_ok fuel s sr sc Hwf ltac:(lia)) as (found & s' & Hrun & Hadv & Hpost).
    rewrite Hrun. simpl.
    destruct (dfs_sound _ _ _ _ _ _ Hwf Hrun) as (_ & _ & Hsound).
    destruct found.
    + exists (Some (path s')), s'. split; [done|]. split; [|by eexists]. intros _.
      destruct Hsound as (q & Hq & Hstep & (e & Hlast & He) & Hent & _).
      exists e. split; [|by rewrite <- Hm].
      assert (Forall (open_cell m) ((sr, sc) :: q)) as Hopen.
      { eapply Forall_impl; [exact Hent|]. intros x (Hp & _). rewrite <- Hm.
        by apply passable_open. }
      eapply walk_reachable; [done..|]. apply reach_here.
      by apply Forall_cons in Hopen as [Hs _].
    + exists None, s'. split; [done|]. split; [by intros [? [=]]|].
      intros (e & Hreach & HE). exfalso.
      destruct Hpost as (_ & Hseen & Hclosed).
      assert (passable s (sr, sc)) as Hstart.
      { apply open_cell_passable; [done|]. rewrite Hm. by eapply reachable_start. }
      assert (∀ x, reachable m (sr, sc) x → seen s' x) as Hall.
      { induction 1 as [|x y Hxy IH Hadj Hy]; [by apply Hseen|].
        destruct (Hclosed x IH) as [_ Hq]; [by apply blank_not_seen|].
        apply (Hq y Hadj). apply open_cell_passable; [done|]. by rewrite Hm. }
      destruct (Hclosed e (Hall e Hreach)) as [Hne _]; [by apply blank_not_seen|].
      apply Hne. unfold is_end. by rewrite Hm.
  - exists None, s. split; [done|]. split; [by intros [? [=]]|].
    intros (e & Hreach & _). exfalso.
    assert (passable s (sr, sc)) as Hstart.
    { apply open_cell_passable; [done|]. rewrite Hm. by eapply reachable_start. }
    destruct Hok as [_ Hok]. discriminate Hok. split; [done|]. by apply blank_not_seen.
Qed.

Lemma solve_decides_witness :
  ∃ r s', solve 10 solver3 0 0 = Ok (r, s')
    ∧ (is_Some r ↔ ∃ e, reachable maze3 (0, 0)%Z e ∧ cell_at maze3 e = Some "E"%char).
Proof.
  apply (solve_decides 10 maze3 solver3 0 0); [reflexivity|repeat constructor|].
  vm_compute. lia.
Defined.

(** X15.  A solver serves one search: after [solve] has returned, with a
    path or without, a second [solve] from the same start returns None and
    changes nothing, because the marks of the first search are kept. *)
Theorem solve_single_use fuel fuel' m s sr sc r s' :
  init m = Ok s → rectangular m →
  solve fuel s sr sc = Ok (r, s') →
  solve fuel' s' sr sc = Ok (None, s').
Proof.
  intros Hinit Hrect H.
  destruct (init_wf m s Hinit Hrect) as (Hwf & Hm & Hblank).
  unfold solve in H.
  destruct (solver_valid_move_spec s sr sc Hwf) as (ok & Hok & Hspec).
  rewrite Hok in H. simpl in H. destruct ok; simpl in H.
  - inv_bind H. destruct a as [found s2].
    destruct (dfs_sound _ _ _ _ _ _ Hwf Hrun) as (Hadv & Hseen & _).
    assert (s' = s2) as -> by (destruct found; by injection H as <- <-).
    destruct Hspec as [Hspec _]. destruct (Hspec eq_refl) as [Hpass _].
    pose proof Hadv as (Hwf2 & _).
    unfold solve.
    destruct (solver_valid_move_spec s2 sr sc Hwf2) as (ok2 & -> & Hspec2). simpl.
    destruct ok2; [|done]. destruct Hspec2 as [Hspec2 _].
    destruct (Hspec2 eq_refl) as [_ Hns]. destruct Hns. by apply Hseen.
  - injection H as <- <-. unfold solve. by rewrite Hok.
Qed.

Lemma solve_single_use_witness :
  ∃ r s', solve 10 solver3 0 0 = Ok (r, s')
    ∧ solve 10 s' 0 0 = Ok (None, s').
Proof.
  destruct (solve 10 solver3 0 0) as [[r s']|e] eqn:Hrun.
  - exists r, s'. split; [reflexivity|].
    apply (solve_single_use 10 10 maze3 solver3 0 0 r s'); [reflexivity| |exact Hrun].
    repeat constructor.
  - vm_compute in Hrun. discriminate Hrun.
Defined.
End MazeSearchFacts.

(** * Further properties: word lists and ladders *)

Module WordListFacts.
Import WordLadderGame WordLadderFacts WordLists.

(** ** Neighbours *)

Lemma alphabet_NoDup : NoDup alphabet.
Proof. apply (bool_decide_unpack _). vm_compute. exact I. Qed.

Lemma elem_of_guard {A} (b : bool) (a y : A) :
  y ∈ (if b then [a] else []) ↔ b = true ∧ y = a.
Proof.
  destruct b.
  - rewrite list_elem_of_singleton. split; [by intros ->|by intros [_ ->]].
  - rewrite elem_of_nil. split; [done|by intros [[=] _]].
Qed.

Lemma get_neighbors_NoDup ws (w : Word) : NoDup (get_neighbors ws w).
Proof.
  unfold get_neighbors. apply NoDup_bind; [| |apply NoDup_seq].
  - intros i1 i2 y Hi1%elem_of_seq Hi2%elem_of_seq H1 H2.
    apply list_elem_of_bind in H1 as (c1 & H1 & _).
    apply list_elem_of_bind in H2 as (c2 & H2 & _).
    apply elem_of_guard in H1 as [Hb1 H1]. apply elem_of_guard in H2 as [_ H2].
    apply andb_true_iff in Hb1 as [Hne1%bool_decide_eq_true _].
    rewrite <- (insert_take_drop w i1 c1) in H1, Hne1 by lia.
    rewrite <- (insert_take_drop w i2 c2) in H2 by lia.
    destruct (decide (i1 = i2)) as [|Hne]; [done|]. exfalso. apply Hne1.
    apply list_insert_id.
    assert (<[i1 := c1]> w !! i1 = w !! i1) as Heq.
    { rewrite <- H1, H2. by rewrite list_lookup_insert_ne. }
    by rewrite list_lookup_insert_eq in Heq by lia.
  - intros i Hi%elem_of_seq. apply NoDup_bind; [| |apply alphabet_NoDup].
    + intros c1 c2 y _ _ H1 H2.
      apply elem_of_guard in H1 as [_ H1]. apply elem_of_guard in H2 as [_ H2].
      rewrite <- (insert_take_drop w i c1) in H1 by lia.
      rewrite <- (insert_take_drop w i c2) in H2 by lia.
      assert (<[i := c1]> w !! i = <[i := c2]> w !! i) as Heq by congruence.
      rewrite !list_lookup_insert_eq in Heq by lia. congruence.
    + intros c _. destruct (_ && _); [apply NoDup_singleton|constructor].
Qed.

(** X16.  On a dictionary of lowercase words, [get_neighbors] returns
    exactly the dictionary words that differ from the given word in one
    position, each of them once. *)
Theorem get_neighbors_exact ws (w : Word) :
  lowercase ws →
  (∀ x, x ∈ get_neighbors ws w ↔ x ∈ ws ∧ differ_in_one w x)
  ∧ NoDup (get_neighbors ws w).
Proof.
  intros Hlow. split; [|apply get_neighbors_NoDup].
  intros x. split; [apply neighbor_differs|]. intros [Hin Hd]. by apply differ_neighbor.
Qed.

Lemma get_neighbors_exact_witness :
  lowercase ladder_words
  ∧ (∀ x, x ∈ get_neighbors ladder_words (word "aa")
          ↔ x ∈ ladder_words ∧ differ_in_one (word "aa") x)
  ∧ NoDup (get_neighbors ladder_words (word "aa")).
Proof.
  split; [exact ladder_words_lowercase|].
  exact (get_neighbors_exact ladder_words (word "aa") ladder_words_lowercase).
Defined.

(** ** The search is complete *)

Lemma settled_init ws s e : settled ws s e [(s, [s])] [s].
Proof.
  split; [left|]. intros x ->%list_elem_of_singleton Hn. destruct Hn. left.
Qed.

Lemma settled_step ws s e w p rest v q' v' :
  settled ws s e ((w, p) :: rest) v → w ≠ e →
  enqueue (get_neighbors ws w) p rest v = (q', v') →
  settled ws s e q' v'.
Proof.
  intros [Hs Hclosed] Hw Henq.
  destruct (enqueue_spec _ _ _ _ _ _ Henq) as (new & -> & Hv & Hnew).
  split; [apply Hv; by right|].
  intros x Hx Hnq.
  assert (x ∉ new) as Hxn.
  { intros Hin. apply Hnq. rewrite fmap_app, elem_of_app. right.
    rewrite <- list_fmap_compose. apply list_elem_of_fmap. by exists x. }
  apply Hv in Hx as [Hx|Hx]; [done|].
  destruct (decide (x = w)) as [->|Hne].
  - split; [done|]. intros y Hy. apply Hv.
    destruct (decide (y ∈ v)) as [Hyv|Hyv]; [by right|]. left. by apply Hnew.
  - destruct (Hclosed x Hx) as [Hxe Hxn'].
    { intros Hin. apply Hnq. rewrite fmap_app, elem_of_app. left.
      rewrite fmap_cons in Hin. apply elem_of_cons in Hin as [Heq|Hin]; done. }
    split; [done|]. intros y Hy. apply Hv. right. by apply Hxn'.
Qed.

Lemma bfs_none ws s e fuel : ∀ q v,
  settled ws s e q v → bfs fuel ws e q v = Ok None → ∀ n, ¬ walk ws s e n.
Proof.
  induction fuel as [|fuel IH]; intros q v Hset H; [done|]. simpl in H.
  destruct q as [|[w p] rest].
  - destruct Hset as [Hs Hclosed]. intros n Hwalk.
    assert (∀ x y, x ∈ v → y ∈ get_neighbors ws x → y ∈ v) as Hnext.
    { intros x y Hx Hy. destruct (Hclosed x Hx) as [_ Hn]; [simpl; apply not_elem_of_nil|].
      by apply Hn. }
    assert (e ∈ v) as He.
    { clear H IH Hclosed. induction Hwalk as [|x y n Hx IHx Hy]; [done|]. eauto. }
    destruct (Hclosed e He) as [Hne _]; [simpl; apply not_elem_of_nil|]. done.
  - case_bool_decide as Hw; [done|].
    destruct (enqueue _ _ _ _) as [q' v'] eqn:Henq.
    eapply IH; [|exact H]. by eapply settled_step.
Qed.

(** What [find_shortest_path] returns, in terms of chains of neighbour
    moves. *)
Lemma find_shortest_path_walk fuel ws s e :
  s ∈ ws → e ∈ ws → length ws < fuel →
  ∃ r, find_shortest_path fuel ws s e = Ok r
       ∧ match r with
         | Some P => transformation_path ws s e P
                     ∧ ∀ n, walk ws s e n → length P ≤ n
         | None => ∀ n, ¬ walk ws s e n
         end.
Proof.
  intros Hs He Hfuel.
  destruct (find_shortest_path_total fuel ws s e Hfuel) as [r Hr].
  exists r. split; [done|]. unfold find_shortest_path in Hr.
  rewrite (proj2 (mem_true _ _) Hs), (proj2 (mem_true _ _) He) in Hr. simpl in Hr.
  destruct r as [P|].
  - split.
    + apply (bfs_good ws s) in Hr as [(Hh & Hin & Hst & Hnd) Hl]; [done|].
      constructor; [|constructor]. simpl. split; [|split; [done|]].
      * split; [done|]. split; [by constructor|]. split; [done|apply NoDup_singleton].
      * intros x Hx. done.
    + eapply bfs_shortest; [|exact Hr]. exists 1. apply level_inv_init.
  - eapply bfs_none; [|exact Hr]. apply settled_init.
Qed.

(** X17.  On a dictionary of lowercase words, with a bound above the
    number of entries, [find_shortest_path] returns, and it returns a path
    exactly when a transformation path from the start word to the end word
    exists. *)
Theorem find_shortest_path_decides fuel ws s e :
  lowercase ws → length ws < fuel →
  ∃ r, find_shortest_path fuel ws s e = Ok r
       ∧ (is_Some r ↔ ∃ Q, transformation_path ws s e Q).
Proof.
  intros Hlow Hfuel.
  destruct (decide (s ∈ ws ∧ e ∈ ws)) as [[Hs He]|Hout].
  - destruct (find_shortest_path_walk fuel ws s e Hs He Hfuel) as (r & Hr & Hpost).
    exists r. split; [done|]. destruct r as [P|].
    + split; [|by eexists]. intros _. exists P. apply Hpost.
    + split; [by intros [? [=]]|]. intros (Q & Hhead & Hlast & Hin & Hsteps). exfalso.
      destruct Q as [|x Q]; [done|]. injection Hhead as ->.
      apply Forall_cons in Hin as [_ Hin].
      exact (Hpost _ (ladder_walk ws s Hlow Q s 1 e (walk_start ws s) Hin Hsteps Hlast)).
  - exists None. split.
    + unfold find_shortest_path.
      destruct (mem s ws) eqn:Hs; [|done]. destruct (mem e ws) eqn:He; [|done].
      destruct Hout. split; by apply mem_true.
    + split; [by intros [? [=]]|]. intros (Q & Hhead & Hlast & Hin & _). exfalso.
      apply Hout. rewrite Forall_forall in Hin. split; apply Hin.
      * destruct Q; [done|]. injection Hhead as ->. left.
      * clear Hhead. induction Q as [|a Q IH] using rev_ind; [done|].
        rewrite last_snoc in Hlast. injection Hlast as ->.
        apply elem_of_app. right. left.
Qed.

Lemma find_shortest_path_decides_witness :
  lowercase ladder_words ∧ length ladder_words < 6
  ∧ ∃ r, find_shortest_path 6 ladder_words (word "aa") (word "bb") = Ok r
       ∧ (is_Some r ↔ ∃ Q, transformation_path ladder_words (word "aa") (word "bb") Q).
Proof.
  assert (length ladder_words < 6) as Hfuel by (vm_compute; lia).
  split; [exact ladder_words_lowercase|]. split; [exact Hfuel|].
  exact (find_shortest_path_decides 6 ladder_words (word "aa") (word "bb")
           ladder_words_lowercase Hfuel).
Defined.

(** ** Generated word lists *)

Lemma choice_alphabet rng :
  ∃ c, choice alphabet rng = Ok (c, rest rng) ∧ c ∈ alphabet.
Proof.
  unfold choice. assert (length alphabet = 26) as Hlen by reflexivity.
  destruct (lookup_lt_is_Some_2 alphabet (rng 0 `mod` length alphabet)) as [c Hc].
  { rewrite Hlen. apply Nat.mod_upper_bound. lia. }
  rewrite Hc. exists c. split; [done|]. by eapply list_elem_of_lookup_2.
Qed.

Lemma choices_ok k : ∀ rng,
  ∃ w rng', choices alphabet k rng = Ok (w, rng')
            ∧ length w = k ∧ Forall (λ c, c ∈ alphabet) w.
Proof.
  induction k as [|k IH]; intros rng; simpl.
  - exists [], rng. split; [done|]. split; [done|constructor].
  - destruct (choice_alphabet rng) as (c & -> & Hc). simpl.
    destruct (IH (rest rng)) as (w & rng' & -> & Hlen & Hw). simpl.
    exists (c :: w), rng'. split; [done|]. split; [simpl; lia|by constructor].
Qed.

Lemma generate_next_word_ok (w : Word) rng :
  0 < length w →
  ∃ w' rng', generate_next_word w rng = Ok (w', rng') ∧ one_change w w'.
Proof.
  intros Hlen. unfold generate_next_word, randint.
  destruct (Z.ltb_spec (Z.of_nat (length w) - 1) 0) as [Hneg|_]; [lia|]. simpl.
  destruct (choice_alphabet (rest rng)) as (c & -> & Hc). simpl.
  eexists _, _. split; [done|]. eexists _, c. split; [|done].
  pose proof (Z.mod_pos_bound (Z.of_nat (rng 0)) (Z.of_nat (length w) - 1 - 0 + 1)
                ltac:(lia)). lia.
Qed.

Lemma generate_next_word_empty rng : generate_next_word [] rng = Err ValueError.
Proof. reflexivity. Qed.

Lemma chain_snoc (l : list Word) x y :
  chain l → last l = Some x → one_change x y → chain (l ++ [y]).
Proof.
  induction l as [|a l IH]; [done|]. intros Hl Hlast Hxy.
  destruct l as [|b l].
  - simpl in *. injection Hlast as ->. done.
  - destruct Hl as [Hab Hl]. split; [done|]. apply IH; [done| |done].
    by rewrite last_cons_cons in Hlast.
Qed.

Lemma one_change_keeps (x y : Word) :
  one_change x y → Forall (λ c, c ∈ alphabet) x →
  length y = length x ∧ Forall (λ c, c ∈ alphabet) y.
Proof.
  intros (i & ch & Hi & Hch & ->) Hx. split; [apply length_insert|].
  by apply Forall_insert.
Qed.

Lemma extend_ok k n : ∀ (current : Word) acc rng,
  0 < k → last acc = Some current → chain acc →
  Forall (λ w, length w = k ∧ Forall (λ c, c ∈ alphabet) w) acc →
  ∃ ws rng', extend n current acc rng = Ok (ws, rng')
    ∧ length ws = length acc + n ∧ head ws = head acc ∧ chain ws
    ∧ Forall (λ w, length w = k ∧ Forall (λ c, c ∈ alphabet) w) ws.
Proof.
  induction n as [|n IH]; intros current acc rng Hk Hlast Hchain Hall; simpl.
  - exists acc, rng. split; [done|]. split; [lia|]. done.
  - assert (length current = k ∧ Forall (λ c, c ∈ alphabet) current) as [Hlen Hlow].
    { rewrite Forall_forall in Hall. apply Hall.
      destruct acc as [|a acc] using rev_ind; [done|].
      rewrite last_snoc in Hlast. injection Hlast as ->. apply elem_of_app. right. left. }
    destruct (generate_next_word_ok current rng ltac:(lia)) as (w' & rng1 & -> & Hchange).
    simpl. destruct (one_change_keeps _ _ Hchange Hlow) as [Hlen' Hlow'].
    destruct (IH w' (acc ++ [w']) rng1) as (ws & rng' & -> & Hl & Hh & Hc & Ha).
    + done.
    + apply last_snoc.
    + by eapply chain_snoc.
    + apply Forall_app. split; [done|]. constructor; [|constructor]. split; [lia|done].
    + exists ws, rng'. split; [done|]. rewrite length_app in Hl. simpl in Hl.
      split; [lia|]. split; [|done]. rewrite Hh. by destruct acc.
Qed.

(** X18.  For a positive word length, [generate_word_list] returns
    [max(1, num_words)] words of that length, made of lowercase letters,
    each obtained from the one before it by assigning one position. *)
Theorem generate_word_list_chain (num_words word_length : Z) rng :
  (0 < word_length)%Z →
  ∃ ws rng', generate_word_list num_words word_length rng = Ok (ws, rng')
    ∧ length ws = Z.to_nat (Z.max 1 num_words)
    ∧ Forall (λ w, length w = Z.to_nat word_length) ws
    ∧ lowercase ws ∧ chain ws.
Proof.
  intros Hk. unfold generate_word_list.
  destruct (choices_ok (Z.to_nat word_length) rng) as (w & rng1 & -> & Hlen & Hw). simpl.
  destruct (extend_ok (Z.to_nat word_length) (Z.to_nat (num_words - 1)) w [w] rng1)
    as (ws & rng' & -> & Hl & _ & Hc & Ha); [lia|done|done|by repeat constructor|].
  exists ws, rng'. split; [done|]. split; [simpl in Hl; lia|].
  split; [|split; [|done]].
  - eapply Forall_impl; [exact Ha|]. by intros x [Hx _].
  - eapply Forall_impl; [exact Ha|]. by intros x [_ Hx].
Qed.

Lemma generate_word_list_chain_witness :
  ∃ ws rng', generate_word_list 20 5 (replay []) = Ok (ws, rng')
    ∧ length ws = Z.to_nat (Z.max 1 20)
    ∧ Forall (λ w, length w = Z.to_nat 5) ws
    ∧ lowercase ws ∧ chain ws.
Proof.
  apply (generate_word_list_chain 20 5 (replay [])). lia.
Defined.

(** X19.  With a word length of 0 or less the first word is empty, and as
    soon as a second word is asked for [generate_word_list] raises
    [ValueError]: [randint(0, -1)] has an empty range. *)
Theorem generate_word_list_no_letters (num_words word_length : Z) rng :
  (word_length ≤ 0)%Z → (2 ≤ num_words)%Z →
  generate_word_list num_words word_length rng = Err ValueError.
Proof.
  intros Hk Hn. unfold generate_word_list.
  replace (Z.to_nat word_length) with 0 by lia. simpl.
  destruct (Z.to_nat (num_words - 1)) as [|n] eqn:Hm; [lia|]. reflexivity.
Qed.

Lemma generate_word_list_no_letters_witness :
  generate_word_list 20 0 (replay []) = Err ValueError.
Proof.
  apply (generate_word_list_no_letters 20 0 (replay [])); lia.
Defined.

Lemma chain_walk ws s : ∀ (l : list Word) x n e,
  walk ws s x n → chain (x :: l) → Forall (λ w, w ∈ ws) l →
  last (x :: l) = Some e →
  ∃ m, walk ws s e m ∧ m ≤ n + length l.
Proof.
  induction l as [|y l IH]; intros x n e Hwalk Hchain Hin Hlast.
  - injection Hlast as <-. exists n. split; [done|lia].
  - destruct Hchain as [(i & ch & Hi & Hch & Hy) Hchain].
    apply Forall_cons in Hin as [Hyin Hin]. rewrite last_cons_cons in Hlast.
    destruct (decide (y = x)) as [->|Hne].
    + destruct (IH x n e Hwalk Hchain Hin Hlast) as (m & Hm & Hle).
      exists m. split; [done|]. simpl. lia.
    + assert (y ∈ get_neighbors ws x) as Hnb.
      { apply get_neighbors_spec. exists i, ch. done. }
      destruct (IH y (S n) e (walk_step _ _ _ _ _ Hwalk Hnb) Hchain Hin Hlast)
        as (m & Hm & Hle).
      exists m. split; [done|]. simpl. lia.
Qed.

Lemma extend_chain n : ∀ (current : Word) acc rng ws rng',
  last acc = Some current → chain acc →
  extend n current acc rng = Ok (ws, rng') →
  chain ws ∧ head ws = head acc ∧ ws ≠ [].
Proof.
  induction n as [|n IH]; intros current acc rng ws rng' Hlast Hchain H; simpl in H.
  - injection H as <- <-. split; [done|]. split; [done|]. by destruct acc.
  - inv_bind H. destruct a as [w' rng1].
    assert (one_change current w') as Hchange.
    { destruct current as [|c0 current]; [by rewrite generate_next_word_empty in Hrun|].
      destruct (generate_next_word_ok (c0 :: current) rng) as (w2 & rng2 & Heq & Hc);
        [simpl; lia|]. rewrite Heq in Hrun. by injection Hrun as <- <-. }
    destruct (IH w' (acc ++ [w']) rng1 ws rng') as (Hc & Hh & Hne);
      [apply last_snoc|by eapply chain_snoc|done|].
    split; [done|]. split; [|done]. rewrite Hh. by destruct acc.
Qed.

(** X20.  The way the game uses the two: on any list [generate_word_list]
    returns, [find_shortest_path] from the first word to the last one finds
    a transformation path, of no more words than the list holds. *)
Theorem ladder_on_generated_list fuel (num_words word_length : Z) rng ws rng' s e :
  generate_word_list num_words word_length rng = Ok (ws, rng') →
  head ws = Some s → last ws = Some e → length ws < fuel →
  ∃ P, find_shortest_path fuel ws s e = Ok (Some P)
       ∧ transformation_path ws s e P ∧ length P ≤ length ws.
Proof.
  intros Hgen Hhead Hlast Hfuel. unfold generate_word_list in Hgen.
  inv_bind Hgen. destruct a as [w rng1].
  destruct (extend_chain _ w [w] rng1 ws rng' eq_refl I Hgen) as (Hchain & Hh & _).
  destruct ws as [|x l]; [done|]. injection Hhead as ->.
  assert (s ∈ s :: l) as Hs by left.
  assert (e ∈ s :: l) as He.
  { clear -Hlast. revert Hlast. generalize (s :: l). intros l0 Hlast.
    induction l0 as [|a l0 IH] using rev_ind; [done|].
    rewrite last_snoc in Hlast. injection Hlast as ->. apply elem_of_app. right. left. }
  destruct (chain_walk (s :: l) s l s 1 e (walk_start _ _) Hchain) as (m & Hm & Hle);
    [|done|].
  { apply Forall_forall. intros y Hy. by right. }
  destruct (find_shortest_path_walk fuel (s :: l) s e Hs He Hfuel) as (r & -> & Hpost).
  destruct r as [P|]; [|destruct (Hpost m Hm)].
  exists P. split; [done|]. destruct Hpost as [Hpath Hshort]. split; [done|].
  specialize (Hshort m Hm). simpl in *. lia.
Qed.

Lemma ladder_on_generated_list_witness :
  ∃ ws rng' s e,
    generate_word_list 20 5 (replay [3; 1; 4; 1; 5; 9; 2; 6]) = Ok (ws, rng')
    ∧ head ws = Some s ∧ last ws = Some e ∧ length ws < 21
    ∧ ∃ P, find_shortest_path 21 ws s e = Ok (Some P)
           ∧ transformation_path ws s e P ∧ length P ≤ length ws.
Proof.
  destruct (generate_word_list 20 5 (replay [3; 1; 4; 1; 5; 9; 2; 6]))
    as [[ws rng']|err] eqn:Hrun; [|vm_compute in Hrun; discriminate Hrun].
  destruct (head ws) as [s|] eqn:Hhead;
    [|vm_compute in Hrun; injection Hrun as <- _; discriminate Hhead].
  destruct (last ws) as [e|] eqn:Hlast;
    [|vm_compute in Hrun; injection Hrun as <- _; discriminate Hlast].
  assert (length ws < 21) as Hlen.
  { vm_compute in Hrun. injection Hrun as <- _. vm_compute. lia. }
  exists ws, rng', s, e. split; [reflexivity|]. split; [exact Hhead|].
  split; [exact Hlast|]. split; [exact Hlen|].
  exact (ladder_on_generated_list 21 20 5 (replay [3; 1; 4; 1; 5; 9; 2; 6])
           ws rng' s e Hrun Hhead Hlast Hlen).
Defined.
End WordListFacts.

(** * Further properties: generating a maze, then solving it *)

Module MazeGameFacts.
Import MazeGrid MazeGridFacts.
Import MazeGenerator(generate_maze, new).
Import MazeSolverDFS MazeSolverFacts MazeCarving MazeCarvingFacts MazeSearch MazeSearchFacts.

Lemma dims_rectangular (m : list (list ascii)) rows cols :
  dims m rows cols → 0 < rows →
  rectangular m ∧ length m * length (default [] (head m)) = rows * cols
  ∧ ∃ s, init m = Ok s.
Proof.
  intros [Hlen Hrows] Hpos. destruct m as [|row0 m]; [simpl in Hlen; lia|].
  pose proof Hrows as Hrows'. apply Forall_cons in Hrows' as [H0 _]. simpl in H0.
  split; [|split].
  - unfold rectangular. simpl. eapply Forall_impl; [exact Hrows|]. simpl. congruence.
  - simpl in *. rewrite H0. lia.
  - eexists. reflexivity.
Qed.

(** X23.  The way the game uses the two: on a maze [generate_maze]
    returned, a fresh [MazeSolverDFS] started at the generator's start
    raises nothing, and any path it returns leads from the start to the
    generator's end cell by cardinal steps through cells that are no wall,
    without visiting a cell twice. *)
Theorem solve_generated_maze fuel fuel' rows cols sr sc er ec rng g rng' :
  (0 ≤ sr < Z.of_nat rows)%Z → (0 ≤ sc < Z.of_nat cols)%Z →
  (0 ≤ er < Z.of_nat rows)%Z → (0 ≤ ec < Z.of_nat cols)%Z →
  generate_maze fuel (new rows cols) sr sc er ec rng = Ok (g, rng') →
  rows * cols < fuel' →
  ∃ s r s', init (MazeGenerator.maze g) = Ok s
    ∧ solve fuel' s sr sc = Ok (r, s')
    ∧ ∀ p, r = Some p →
        head p = Some (sr, sc) ∧ last p = Some (er, ec) ∧ stepwise p
        ∧ Forall (open_cell (MazeGenerator.maze g)) p ∧ NoDup p.
Proof.
  intros Hsr Hsc Her Hec H Hfuel.
  destruct (generate_maze_keeps _ _ _ _ _ _ _ _ _ _ Hsr Hsc Her Hec H)
    as (g2 & (Hwf & Hr & Hc & _ & _ & _ & Hs) & _ & Hr2 & Hc2 & Hcell).
  unfold MazeGenerator.gen_wf in Hwf. rewrite Hr, Hc, <- Hr2, <- Hc2 in Hwf.
  destruct (dims_rectangular _ _ _ Hwf ltac:(lia)) as (Hrect & Hsize & s & Hinit).
  destruct (solve_returns fuel' _ s sr sc Hinit Hrect ltac:(lia)) as (r & s' & Hrun).
  exists s, r, s'. split; [done|]. split; [done|]. intros p ->.
  destruct (solve_returned_path _ _ _ _ _ _ _ Hinit Hrect Hrun)
    as (Hhead & Hstep & (e & Hlast & He) & Hopen & Hnd).
  split; [done|]. split; [|done]. rewrite Hlast. f_equal.
  specialize (Hs e). rewrite He, Hcell, cell_at_new in Hs.
  destruct (decide (e = (er, ec))); [done|]. exfalso.
  destruct Hs as [Hs|Hs]; [|done].
  destruct (decide (e = (sr, sc))); [done|]. by destruct (_ && _).
Qed.

Lemma solve_generated_maze_witness :
  ∃ g rng', generate_maze 201 (new 10 20) 0 1 9 18 (replay [1; 2; 3; 4; 5]) = Ok (g, rng')
    ∧ ∃ s r s', init (MazeGenerator.maze g) = Ok s
        ∧ solve 201 s 0 1 = Ok (r, s')
        ∧ ∀ p, r = Some p →
            head p = Some (0, 1)%Z ∧ last p = Some (9, 18)%Z ∧ stepwise p
            ∧ Forall (open_cell (MazeGenerator.maze g)) p ∧ NoDup p.
Proof.
  destruct (generate_maze 201 (new 10 20) 0 1 9 18 (replay [1; 2; 3; 4; 5]))
    as [[g rng']|e] eqn:Hrun.
  - exists g, rng'. split; [reflexivity|].
    apply (solve_generated_maze 201 201 10 20 0 1 9 18 (replay [1; 2; 3; 4; 5]) g rng');
      [lia..|exact Hrun|lia].
  - vm_compute in Hrun. discriminate Hrun.
Defined.

(** X24.  Whether the game's maze can be solved depends on the random
    source.  With the dimensions, start and end of [play_maze] there is a
    random source for which the generated maze has no path from 'S' to 'E'
    ([solve] returns None), and one for which it has. *)
Theorem generated_maze_may_have_no_path :
  (∃ g rng' s s',
     generate_maze 201 (new 10 20) 0 1 9 18 (replay []) = Ok (g, rng')
     ∧ init (MazeGenerator.maze g) = Ok s
     ∧ solve 201 s 0 1 = Ok (None, s'))
  ∧ (∃ g rng' s p s',
       generate_maze 201 (new 10 20) 0 1 9 18 (replay [1; 2; 3; 4; 5]) = Ok (g, rng')
       ∧ init (MazeGenerator.maze g) = Ok s
       ∧ solve 201 s 0 1 = Ok (Some p, s')).
Proof.
  split.
  - destruct (generate_maze 201 (new 10 20) 0 1 9 18 (replay [])) as [[g rng']|e] eqn:Hrun;
      [|vm_compute in Hrun; discriminate Hrun].
    vm_compute in Hrun. injection Hrun as <- _.
    eexists _, rng', _, _. split; [reflexivity|]. split; [reflexivity|].
    vm_compute. reflexivity.
  - destruct (generate_maze 201 (new 10 20) 0 1 9 18 (replay [1; 2; 3; 4; 5]))
      as [[g rng']|e] eqn:Hrun; [|vm_compute in Hrun; discriminate Hrun].
    vm_compute in Hrun. injection Hrun as <- _.
    eexists _, rng', _, _, _. split; [reflexivity|]. split; [reflexivity|].
    vm_compute. reflexivity.
Qed.
End MazeGameFacts.
